(** * Straight-line amortization of a long-term deferred expense

    A shallow embedding of [src/main.py]: the class
    [LongTermDeferredExpense] with its constructor, [amortize_for_period]
    and [get_status].

    The amounts of the program are Python [float]s, that is IEEE 754
    binary64 numbers.  They are modelled by [spec_float] of the standard
    library, with 53 bits of precision and exponents up to 1024; every
    operation rounds to nearest, ties to even, exactly as the hardware does.
    Python [int]s are unbounded and are modelled by [Z].  What the program
    prints is kept as a list of structured lines: the amounts on a line are
    recorded, their formatting as text is not. *)

From Stdlib Require Import ZArith List Bool String Lia.
From Stdlib Require Import SpecFloat.
Import ListNotations.

Local Open Scope Z_scope.

(** ** Python floats *)

Module Binary64.

Definition prec : Z := 53.
Definition emax : Z := 1024.

Definition float : Type := spec_float.

Definition fadd : float -> float -> float := SFadd prec emax.
Definition fsub : float -> float -> float := SFsub prec emax.
Definition fdiv : float -> float -> float := SFdiv prec emax.

Definition flt : float -> float -> bool := SFltb.
Definition fle : float -> float -> bool := SFleb.
Definition feq : float -> float -> bool := SFeqb.

Definition zero : float := S754_zero false.

(** The float nearest to an integer ([float(n)], ties to even); the
    result is an infinity when the integer is out of range. *)
Definition of_Z (n : Z) : float := binary_normalize prec emax n 0 false.

(** The float a decimal literal with two decimals denotes: [dec2 3333]
    is the value of the Python literal [33.33], the float nearest to
    3333/100. *)
Definition dec2 (cents : Z) : float := fdiv (of_Z cents) (of_Z 100).

Definition is_finite (x : float) : bool :=
  match x with
  | S754_zero _ | S754_finite _ _ _ => true
  | _ => false
  end.

(** A float of the machine: the mantissa has at most 53 bits and is
    normalised, the exponent is in range. *)
Definition valid (x : float) : Prop := valid_binary prec emax x = true.

(** The smallest exponent, and the exponent the format gives to a number
    of magnitude [2 ^ e]. *)
Definition emin : Z := -1074.
Definition fexp (e : Z) : Z := Z.max (e - 53) emin.

(** The value of a finite float, counted in units of 2^-1074: every float
    of the machine is a whole number of them. *)
Definition ulps (x : float) : Z :=
  match x with
  | S754_finite s m e => cond_Zopp s (Zpos m * 2 ^ (e - emin))
  | _ => 0
  end.

(** A float that is not below zero: a zero of either sign, a positive
    float, the positive infinity, or NaN. *)
Definition not_negative (x : float) : Prop := flt x zero = false.

(** The distance from a positive float to the next one, its unit in the
    last place, in units of 2^-1074. *)
Definition spacing (x : float) : Z :=
  match x with
  | S754_finite _ _ e => 2 ^ (e - emin)
  | _ => 0
  end.

(** The largest float, 1.7976931348623157e308, as an integer. *)
Definition max_float : Z := (2 ^ 53 - 1) * 2 ^ 971.

End Binary64.

Import Binary64.

(** ** Exceptions *)

Inductive exn : Type :=
| ValueError
| OverflowError
| ZeroDivisionError.

Inductive result (A : Type) : Type :=
| Ok (a : A)
| Raise (e : exn).

Arguments Ok {A} a.
Arguments Raise {A} e.

Definition bind {A B : Type} (r : result A) (k : A -> result B) : result B :=
  match r with
  | Ok a => k a
  | Raise e => Raise e
  end.

Notation "x <- r ;; k" := (bind r (fun x => k))
  (at level 61, r at next level, right associativity).

(** ** The builtins the program calls *)

Module Py.

(** [float(n)] for an [int]: [OverflowError] when [n] is too large. *)
Definition float_of_int (n : Z) : result float :=
  match of_Z n with
  | S754_infinity _ => Raise OverflowError
  | y => Ok y
  end.

(** [x / n] for a float [x] and an int [n]: the int is converted first,
    a zero divisor raises, the quotient is correctly rounded. *)
Definition truediv (x : float) (n : Z) : result float :=
  y <- float_of_int n ;;
  if feq y zero then Raise ZeroDivisionError else Ok (fdiv x y).

(** The integer nearest to [n / d], ties to the even one ([0 < d]). *)
Definition div_half_even (n d : Z) : Z :=
  let q := n / d in
  let r := n mod d in
  match 2 * r ?= d with
  | Lt => q
  | Gt => q + 1
  | Eq => if Z.even q then q else q + 1
  end.

(** The float nearest to [k / 100], with the sign [s]: what reading the
    decimal [k / 100] back gives. *)
Definition hundredths (s : bool) (k : Z) : float :=
  match k with
  | Zpos p => fdiv (S754_finite s p 0) (S754_finite false 100 0)
  | _ => S754_zero s
  end.

(** [round(x, 2)]: the exact binary value of [x] is rounded to the
    nearest multiple of 1/100, ties to the even multiple, and the decimal
    obtained is converted back to the nearest float.  A float with a
    non-negative exponent is an integer and rounds to itself; zeros,
    infinities and NaN round to themselves. *)
Definition round2 (x : float) : float :=
  match x with
  | S754_finite s m e =>
      if 0 <=? e then x
      else hundredths s (div_half_even (100 * Zpos m) (2 ^ (- e)))
  | _ => x
  end.

(** [min(a, b)]: the first argument is kept unless the second is
    strictly smaller. *)
Definition min (a b : float) : float := if flt b a then b else a.

(** [sum(xs)] of the builtin, left to right from the int [0]. *)
Definition sum (xs : list float) : float := fold_left fadd xs zero.

(** [math.ceil(x)]: the least integer not below [x]. *)
Definition ceil (x : float) : result Z :=
  match x with
  | S754_zero _ => Ok 0
  | S754_finite s m e =>
      let v := cond_Zopp s (Zpos m) in
      Ok (if 0 <=? e then v * 2 ^ e else - (- v / 2 ^ (- e)))
  | S754_infinity _ => Raise OverflowError
  | S754_nan => Raise ValueError
  end.

End Py.

(** ** Dates *)

Module datetime.

Record date : Type := mk_date { year : Z; month : Z; day : Z }.

End datetime.

(** ** The data of the program *)

(** One entry of [amortization_history]: the dict with the keys ["date"],
    ["amortized_amount"] and ["remaining_book_value"]. *)
Record transaction : Type := mk_transaction {
  date : datetime.date;
  amortized_amount : float;
  remaining_book_value : float
}.

Record LongTermDeferredExpense : Type := mk_expense {
  name : string;
  total_cost : float;
  amortization_period_months : Z;
  start_date : datetime.date;
  book_value : float;
  monthly_amortization_amount : float;
  amortization_history : list transaction
}.

(** The lines the program prints, with the values they show. *)
Inductive line : Type :=
| RecognitionHeader
| ExpenseName (n : string)
| TotalCost (c : float)
| Period (months : Z)
| MonthlyAmount (a : float)
| JournalEntry
| DebitDeferred (n : string) (c : float)
| CreditBank (c : float)
| Rule
| FullyAmortized (d : datetime.date) (n : string)
| AmortizationHeader (d : datetime.date)
| DebitExpense (a : float)
| CreditDeferred (n : string) (a : float)
| BookValue (b : float).

(** ** The operations *)

(** [get_status]: prints the book value and a rule; [self] is returned as
    it is. *)
Definition get_status (self : LongTermDeferredExpense)
  : LongTermDeferredExpense * list line :=
  (self, [BookValue (book_value self); Rule]).

(** [__init__] *)
Definition init (name : string) (total_cost : float)
    (amortization_period_months : Z) (start_date : datetime.date)
  : result (LongTermDeferredExpense * list line) :=
  if amortization_period_months <=? 0 then Raise ValueError
  else
    q <- Py.truediv total_cost amortization_period_months ;;
    let monthly := Py.round2 q in
    Ok (mk_expense name total_cost amortization_period_months start_date
          total_cost monthly [],
        [RecognitionHeader; ExpenseName name; TotalCost total_cost;
         Period amortization_period_months; MonthlyAmount monthly;
         JournalEntry; DebitDeferred name total_cost; CreditBank total_cost;
         Rule]).

Definition set_book_value (self : LongTermDeferredExpense) (b : float)
  : LongTermDeferredExpense :=
  mk_expense (name self) (total_cost self) (amortization_period_months self)
    (start_date self) b (monthly_amortization_amount self)
    (amortization_history self).

Definition append_history (self : LongTermDeferredExpense) (t : transaction)
  : LongTermDeferredExpense :=
  mk_expense (name self) (total_cost self) (amortization_period_months self)
    (start_date self) (book_value self) (monthly_amortization_amount self)
    (amortization_history self ++ [t]).

Definition amortize_for_period (self : LongTermDeferredExpense)
    (amortization_date : datetime.date)
  : LongTermDeferredExpense * list line :=
  if fle (book_value self) zero then
    (self, [FullyAmortized amortization_date (name self)])
  else
    let amount_to_amortize :=
      Py.min (book_value self) (monthly_amortization_amount self) in
    let self := set_book_value self (fsub (book_value self) amount_to_amortize) in
    let transaction :=
      mk_transaction amortization_date amount_to_amortize (book_value self) in
    let self := append_history self transaction in
    let '(self, status) := get_status self in
    (self,
     [AmortizationHeader amortization_date; JournalEntry;
      DebitExpense amount_to_amortize;
      CreditDeferred (name self) amount_to_amortize] ++ status).

(** A driver: one call per date of the list, in order. *)
Fixpoint amortize_all (self : LongTermDeferredExpense)
    (dates : list datetime.date) : LongTermDeferredExpense :=
  match dates with
  | [] => self
  | d :: ds => amortize_all (fst (amortize_for_period self d)) ds
  end.

(** The amounts of a history, in order. *)
Definition amounts (h : list transaction) : list float :=
  map amortized_amount h.

(** ** The notions the properties are stated with *)

(** An amount of money: a float of the machine, finite and not below
    zero. *)
Definition amount (x : float) : Prop :=
  valid x /\ is_finite x = true /\ 0 <= ulps x.

(** What every run keeps: the book value is an amount, the monthly amount
    is a float of the machine that is not below zero. *)
Definition sound (self : LongTermDeferredExpense) : Prop :=
  amount (book_value self) /\
  valid (monthly_amortization_amount self) /\
  not_negative (monthly_amortization_amount self).

(** The sum of floats in exact arithmetic, in units of 2^-1074. *)
Definition exact_sum (xs : list float) : Z :=
  fold_right (fun x acc => ulps x + acc) 0 xs.

(** An asset on a grid: its book value and its monthly amount are whole
    multiples of [2 ^ w] units of 2^-1074, and the book value is below
    [2 ^ (53 + w)] of them, so that every difference the program takes is
    a float and nothing is rounded.  Whole numbers below [2 ^ 53] are on
    the grid [w = 1074]. *)
Definition on_grid (w : Z) (self : LongTermDeferredExpense) : Prop :=
  sound self /\
  ulps (book_value self) mod 2 ^ w = 0 /\
  ulps (book_value self) < 2 ^ (53 + w) /\
  ulps (monthly_amortization_amount self) mod 2 ^ w = 0.

(** What rounding has added to the books: the sum of the amortized
    amounts plus the book value, less the total cost, in exact arithmetic
    and units of 2^-1074. *)
Definition drift (self : LongTermDeferredExpense) : Z :=
  exact_sum (amounts (amortization_history self)) + ulps (book_value self)
  - ulps (total_cost self).

(** After [k] calls an asset is on schedule: either nothing is left, or
    each call has recorded the monthly amount. *)
Definition on_schedule (k : nat) (self : LongTermDeferredExpense) : Prop :=
  ulps (book_value self) = 0 \/
  (List.length (amortization_history self) = k /\
   exact_sum (amounts (amortization_history self))
   = Z.of_nat k * ulps (monthly_amortization_amount self)).

(** [k] is the integer nearest to [n / d], the even one on a tie. *)
Definition nearest_even (k n d : Z) : Prop :=
  2 * Z.abs (n - k * d) <= d /\
  (2 * Z.abs (n - k * d) = d -> Z.even k = true).

(** [r] is [x] rounded to two decimals, ties to even: the float nearest
    to [k / 100] for the integer [k] nearest to [100 * x]. *)
Definition rounded2 (x r : float) : Prop :=
  match x with
  | S754_finite s m e =>
      if 0 <=? e then r = x
      else exists k, nearest_even k (100 * Zpos m) (2 ^ (- e)) /\
                     r = Py.hundredths s k
  | _ => r = x
  end.

(** Rounding to two decimals with ties upwards, as the specification
    words it: the float nearest to [floor (100 * x + 1/2)] hundredths. *)
Definition round2_half_up (x : float) : float :=
  match x with
  | S754_finite s m e =>
      if 0 <=? e then x
      else
        let n := cond_Zopp s (100 * Zpos m) in
        let d := 2 ^ (- e) in
        match (2 * n + d) / (2 * d) with
        | Zpos p => Py.hundredths false (Zpos p)
        | Zneg p => Py.hundredths true (Zpos p)
        | Z0 => S754_zero s
        end
  | _ => x
  end.

(** The number of periods the specification counts with:
    [ceil (t / m)] in exact arithmetic. *)
Definition ceil_quotient (t m : float) : Z := - (- ulps t / ulps m).

(** ** Rounding to nearest *)

(** A shift record follows the number [a / b]: its mantissa is the whole
    part, its round bit says whether the rest reaches one half, its
    sticky bit whether anything is left after that. *)
Definition follows (mrs : shr_record) (a b : Z) : Prop :=
  let m := shr_m mrs in
  m * b <= a < (m + 1) * b /\
  (shr_r mrs = true <-> (2 * m + 1) * b <= 2 * a) /\
  (shr_s mrs = false <-> 2 * a = (2 * m + Z.b2z (shr_r mrs)) * b).

(** ** Sample data *)

Definition new_year : datetime.date := datetime.mk_date 2025 1 1.

(** The first day of the [k] months from January 2025 on. *)
Definition months_from (start : nat) (k : nat) : list datetime.date :=
  map (fun i => datetime.mk_date (2025 + Z.of_nat i / 12)
                  (1 + Z.of_nat i mod 12) 1)
      (seq start k).

(** ** The driver: [main] and what it calls *)

(** [calendar]: leap years and the number of days of a month, the second
    component of [calendar.monthrange]. *)
Module calendar.

Definition isleap (year : Z) : bool :=
  (year mod 4 =? 0) && (negb (year mod 100 =? 0) || (year mod 400 =? 0)).

Definition mdays (month : Z) : Z :=
  match month with
  | 1 | 3 | 5 | 7 | 8 | 10 | 12 => 31
  | 4 | 6 | 9 | 11 => 30
  | 2 => 28
  | _ => 0
  end.

Definition monthrange (year month : Z) : result Z :=
  if (1 <=? month) && (month <=? 12)
  then Ok (mdays month + (if (month =? 2) && isleap year then 1 else 0))
  else Raise ValueError.

End calendar.

(** [datetime.date].  The check of the fields, which [date(y, m, d)] and
    [date.replace] share: [ValueError] outside the years 1 to 9999, the
    months 1 to 12 and the days of the month.  [make] is the check alone,
    as [date.replace] meets it from [relativedelta], where the fields are
    small. *)
Module pydate.

Definition check_fields (year month day : Z) : bool :=
  (1 <=? year) && (year <=? 9999) && (1 <=? month) && (month <=? 12) &&
  (1 <=? day) &&
  match calendar.monthrange year month with
  | Ok n => day <=? n
  | Raise _ => false
  end.

Definition make (year month day : Z) : result datetime.date :=
  if check_fields year month day then Ok (datetime.mk_date year month day)
  else Raise ValueError.

(** [date(y, m, d)]: CPython takes the three fields as C ints, and raises
    [OverflowError] for an int that is not one, before it checks them. *)
Definition c_int (z : Z) : bool :=
  (-2147483648 <=? z) && (z <=? 2147483647).

Definition date (year month day : Z) : result datetime.date :=
  if c_int year && c_int month && c_int day then make year month day
  else Raise OverflowError.

(** A date as Python holds it. *)
Definition wf (d : datetime.date) : Prop :=
  check_fields (datetime.year d) (datetime.month d) (datetime.day d) = true.

(** Dates in the order of time, as [<] on dates. *)
Definition lt (a b : datetime.date) : Prop :=
  datetime.year a < datetime.year b \/
  (datetime.year a = datetime.year b /\
   (datetime.month a < datetime.month b \/
    (datetime.month a = datetime.month b /\ datetime.day a < datetime.day b))).

End pydate.

(** [dateutil.relativedelta]: what [d + relativedelta(months=1)] does.
    The month goes up by one and wraps after December, the day is clipped
    to the length of the new month, and the date is rebuilt. *)
Module relativedelta.

Definition add_one_month (other : datetime.date) : result datetime.date :=
  let year := datetime.year other in
  let month := datetime.month other + 1 in
  let '(year, month) :=
    if 12 <? month then (year + 1, month - 12)
    else if month <? 1 then (year - 1, month + 12)
    else (year, month) in
  days <- calendar.monthrange year month ;;
  let day := Z.min days (datetime.day other) in
  pydate.make year month day.

End relativedelta.

(** The lines [main] prints itself, and those of the asset. *)
Inductive report : Type :=
| Hello
| SimulationStarts
| FromAsset (l : line)
| SimulationEnds
| TotalAmortized (total : float)
| FinalBookValue (b : float).

(** The loop of [main]: for each [month_num] of the range, the current
    date moves one month on, except the first time, and the period is
    amortized.  The result carries the asset, the last date and what was
    printed. *)
Fixpoint simulation_loop (month_nums : list nat)
    (renovation_expense : LongTermDeferredExpense)
    (current_date : datetime.date)
  : result (LongTermDeferredExpense * datetime.date * list line) :=
  match month_nums with
  | [] => Ok (renovation_expense, current_date, [])
  | month_num :: rest =>
      current_date <-
        (if (0 <? month_num)%nat
         then relativedelta.add_one_month current_date
         else Ok current_date) ;;
      let '(renovation_expense, out) :=
        amortize_for_period renovation_expense current_date in
      r <- simulation_loop rest renovation_expense current_date ;;
      let '(renovation_expense, current_date, out') := r in
      Ok (renovation_expense, current_date, out ++ out')
  end.

(** [range(n)] for an int [n]: empty when [n <= 0]. *)
Definition range (n : Z) : list nat := seq 0 (Z.to_nat n).

(** The body of [main], with the parameters of the experiment as
    arguments: the name, the cost, the period in years and the start date
    as year, month and day. *)
Definition simulation (expense_name : string) (cost : float)
    (period_in_years : Z) (start_year start_month start_day : Z)
  : result (LongTermDeferredExpense * list report) :=
  let period_in_months := period_in_years * 12 in
  simulation_start_date <- pydate.date start_year start_month start_day ;;
  r <- init expense_name cost period_in_months simulation_start_date ;;
  let '(renovation_expense, out0) := r in
  r <- simulation_loop (range (period_in_months + 2)) renovation_expense
         simulation_start_date ;;
  let '(renovation_expense, _, out1) := r in
  let total_amortized :=
    Py.sum (amounts (amortization_history renovation_expense)) in
  Ok (renovation_expense,
      [Hello] ++ map FromAsset out0 ++ [SimulationStarts] ++
      map FromAsset out1 ++
      [SimulationEnds; TotalAmortized total_amortized;
       FinalBookValue (book_value renovation_expense)]).

(** [main]: 120000.00 yuan of office renovation over 5 years, from the
    first of January 2025. *)
Definition main : result (LongTermDeferredExpense * list report) :=
  simulation "办公室装修费" (dec2 12000000) 5 2025 1 1.

(** The dates the loop of [main] passes on when nothing is clipped: the
    [k] months from [start] on, on the same day of the month. *)
Definition month_at (start : datetime.date) (i : nat) : datetime.date :=
  let j := datetime.month start - 1 + Z.of_nat i in
  datetime.mk_date (datetime.year start + j / 12) (j mod 12 + 1)
    (datetime.day start).

Definition months_on (start : datetime.date) (k : nat) : list datetime.date :=
  map (month_at start) (seq 0 k).

(** The month a date lies in. *)
Definition year_month (d : datetime.date) : Z * Z :=
  (datetime.year d, datetime.month d).

(** The book values a history must show: from [b] on, each one is the one
    before less the amount of the record, rounded. *)
Fixpoint running (b : float) (xs : list float) : list float :=
  match xs with
  | [] => []
  | a :: rest => fsub b a :: running (fsub b a) rest
  end.

(** What the records of an asset satisfy: amounts between 0 and the
    monthly amount, balances between 0 and the total cost. *)
Definition record_in_bounds (total monthly : float) (t : transaction) : Prop :=
  fle zero (amortized_amount t) = true /\
  fle (amortized_amount t) monthly = true /\
  fle zero (remaining_book_value t) = true /\
  fle (remaining_book_value t) total = true.

(** The lines a record is printed with. *)
Definition journal (nm : string) (t : transaction) : list line :=
  [AmortizationHeader (date t); JournalEntry;
   DebitExpense (amortized_amount t);
   CreditDeferred nm (amortized_amount t);
   BookValue (remaining_book_value t); Rule].

(** What a sequence of calls prints, one call after the other. *)
Fixpoint printed_by_calls (self : LongTermDeferredExpense)
    (dates : list datetime.date) : list line :=
  match dates with
  | [] => []
  | d :: ds =>
      snd (amortize_for_period self d)
      ++ printed_by_calls (fst (amortize_for_period self d)) ds
  end.

(** Dates in strictly increasing order. *)
Fixpoint increasing (ds : list datetime.date) : Prop :=
  match ds with
  | [] => True
  | d :: rest =>
      match rest with
      | [] => True
      | d' :: _ => pydate.lt d d'
      end /\ increasing rest
  end.

(** * Floats: digits, shifts and rounding *)

Lemma fexp_eq e : SpecFloat.fexp prec emax e = fexp e.
Proof. reflexivity. Qed.

Lemma digits2_pos_bounds p :
  2 ^ (Zpos (digits2_pos p) - 1) <= Zpos p < 2 ^ Zpos (digits2_pos p).
Proof.
  induction p as [p IH | p IH | ]; cbn [digits2_pos].
  - rewrite Pos2Z.inj_succ.
    replace (Z.succ (Zpos (digits2_pos p)) - 1) with (Z.succ (Zpos (digits2_pos p) - 1)) by lia.
    rewrite !Z.pow_succ_r by lia. lia.
  - rewrite Pos2Z.inj_succ.
    replace (Z.succ (Zpos (digits2_pos p)) - 1) with (Z.succ (Zpos (digits2_pos p) - 1)) by lia.
    rewrite !Z.pow_succ_r by lia. lia.
  - cbn. lia.
Qed.

Lemma Zdigits2_nonneg m : 0 <= Zdigits2 m.
Proof. destruct m; cbn; lia. Qed.

Lemma Zdigits2_bounds m :
  0 < m -> 2 ^ (Zdigits2 m - 1) <= m < 2 ^ Zdigits2 m.
Proof. destruct m as [ | p | p]; try lia. intros _. apply digits2_pos_bounds. Qed.

Lemma Zdigits2_pos m : 0 < m -> 0 < Zdigits2 m.
Proof. destruct m; cbn; lia. Qed.

(** The number of digits is determined by a bracketing by powers of 2. *)
Lemma Zdigits2_unique m d :
  0 < d -> 2 ^ (d - 1) <= m < 2 ^ d -> Zdigits2 m = d.
Proof.
  intros Hd [Hl Hu].
  assert (Hm : 0 < m) by (pose proof (Z.pow_pos_nonneg 2 (d - 1)); lia).
  destruct (Zdigits2_bounds m Hm) as [Hl' Hu'].
  pose proof (Zdigits2_pos m Hm) as Hp.
  destruct (Z.lt_trichotomy (Zdigits2 m) d) as [Hlt | [Heq | Hgt]]; [ | exact Heq | ].
  - assert (2 ^ Zdigits2 m <= 2 ^ (d - 1)) by (apply Z.pow_le_mono_r; lia). lia.
  - assert (2 ^ d <= 2 ^ (Zdigits2 m - 1)) by (apply Z.pow_le_mono_r; lia). lia.
Qed.

Lemma Zdigits2_le a b : 0 <= a <= b -> Zdigits2 a <= Zdigits2 b.
Proof.
  intros [Ha Hab].
  destruct (Z.eq_dec a 0) as [-> | Hna]; [apply Zdigits2_nonneg | ].
  destruct (Zdigits2_bounds a ltac:(lia)) as [Hl _].
  destruct (Zdigits2_bounds b ltac:(lia)) as [_ Hu].
  destruct (Z_lt_le_dec (Zdigits2 b) (Zdigits2 a)) as [Hlt | ]; [ | assumption].
  assert (2 ^ Zdigits2 b <= 2 ^ (Zdigits2 a - 1)) by (apply Z.pow_le_mono_r; lia). lia.
Qed.

Lemma Zdigits2_shift m k :
  0 < m -> 0 <= k -> Zdigits2 (m * 2 ^ k) = Zdigits2 m + k.
Proof.
  intros Hm Hk.
  destruct (Zdigits2_bounds m Hm) as [Hl Hu].
  pose proof (Zdigits2_pos m Hm) as Hp.
  pose proof (Z.pow_pos_nonneg 2 k ltac:(lia) Hk) as H2k.
  apply Zdigits2_unique; [lia | ].
  replace (Zdigits2 m + k - 1) with (Zdigits2 m - 1 + k) by lia.
  rewrite !Z.pow_add_r by lia. nia.
Qed.

Lemma Zdigits2_div m k :
  0 <= k -> 2 ^ k <= m -> Zdigits2 (m / 2 ^ k) = Zdigits2 m - k.
Proof.
  intros Hk Hm.
  pose proof (Z.pow_pos_nonneg 2 k ltac:(lia) Hk) as H2k.
  destruct (Zdigits2_bounds m ltac:(lia)) as [Hl Hu].
  assert (Hdk : k < Zdigits2 m).
  { destruct (Z_lt_le_dec k (Zdigits2 m)) as [ | Hge]; [assumption | ].
    assert (2 ^ Zdigits2 m <= 2 ^ k) by (apply Z.pow_le_mono_r; lia). lia. }
  apply Zdigits2_unique; [lia | ].
  split.
  - apply Z.div_le_lower_bound; [lia | ].
    rewrite <- Z.pow_add_r by lia.
    replace (k + (Zdigits2 m - k - 1)) with (Zdigits2 m - 1) by lia. exact Hl.
  - apply Z.div_lt_upper_bound; [lia | ].
    rewrite <- Z.pow_add_r by lia.
    replace (k + (Zdigits2 m - k)) with (Zdigits2 m) by lia. exact Hu.
Qed.

(** *** Shifting right *)

Lemma shr_1_m mrs : 0 <= shr_m mrs -> shr_m (shr_1 mrs) = shr_m mrs / 2.
Proof.
  destruct mrs as [m r s]. cbn [shr_m]. intros Hm.
  rewrite <- Z.div2_div.
  destruct m as [ | [p | p | ] | p]; try reflexivity; lia.
Qed.

Lemma iter_shr_1_m p : forall mrs,
  0 <= shr_m mrs ->
  shr_m (iter_pos shr_1 p mrs) = shr_m mrs / 2 ^ Zpos p.
Proof.
  induction p as [p IH | p IH | ]; intros mrs Hm; cbn [iter_pos].
  - pose proof (Z.pow_pos_nonneg 2 (Zpos p) ltac:(lia) ltac:(lia)) as Hp.
    assert (H1 : 0 <= shr_m (shr_1 mrs))
      by (rewrite shr_1_m by assumption; apply Z.div_pos; lia).
    assert (H2 : 0 <= shr_m (iter_pos shr_1 p (shr_1 mrs)))
      by (rewrite IH by assumption; apply Z.div_pos; lia).
    rewrite IH, IH, shr_1_m by assumption.
    rewrite !Z.div_div by lia.
    f_equal. rewrite <- Z.pow_add_r by lia.
    rewrite <- (Z.pow_1_r 2) at 1. rewrite <- Z.pow_add_r by lia.
    f_equal. lia.
  - pose proof (Z.pow_pos_nonneg 2 (Zpos p) ltac:(lia) ltac:(lia)) as Hp.
    assert (H2 : 0 <= shr_m (iter_pos shr_1 p mrs))
      by (rewrite IH by assumption; apply Z.div_pos; lia).
    rewrite IH, IH by assumption.
    rewrite !Z.div_div by lia.
    rewrite <- Z.pow_add_r by lia.
    replace (Zpos p + Zpos p) with (Zpos p~0) by lia. reflexivity.
  - rewrite shr_1_m by assumption. reflexivity.
Qed.

Lemma shr_record_of_loc_m m l : shr_m (shr_record_of_loc m l) = m.
Proof. destruct l as [ | [ | | ]]; reflexivity. Qed.

(** [shr_fexp] brings a mantissa to the exponent [fexp] asks for, when
    this exponent is larger, and drops the low bits. *)
Lemma shr_fexp_spec m e l :
  0 <= m ->
  let E := fexp (Zdigits2 m + e) in
  let res := shr_fexp prec emax m e l in
  (e < E -> snd res = E /\ shr_m (fst res) = m / 2 ^ (E - e)) /\
  (E <= e -> snd res = e /\ shr_m (fst res) = m).
Proof.
  intros Hm E res. subst res. unfold shr_fexp. rewrite fexp_eq. fold E.
  unfold shr. split; intros HE.
  - destruct (E - e) as [ | p | p] eqn:Hd; try lia.
    cbn [fst snd]. split; [lia | ].
    rewrite iter_shr_1_m by (rewrite shr_record_of_loc_m; assumption).
    rewrite shr_record_of_loc_m. reflexivity.
  - destruct (E - e) as [ | p | p] eqn:Hd; try lia;
      cbn [fst snd]; rewrite shr_record_of_loc_m; split; reflexivity.
Qed.

Lemma round_nearest_even_bounds m l :
  m <= round_nearest_even m l <= m + 1.
Proof.
  destruct l as [ | [ | | ]]; cbn [round_nearest_even]; try lia.
  destruct (Z.even m); lia.
Qed.

Lemma fexp_le a b : a <= b -> fexp a <= fexp b.
Proof. unfold fexp, emin. lia. Qed.

Lemma fexp_emin a : emin <= fexp a.
Proof. unfold fexp, emin. lia. Qed.

Lemma shr_1_exact m :
  0 <= m ->
  shr_1 (Build_shr_record (2 * m) false false) = Build_shr_record m false false.
Proof. destruct m as [ | p | p]; try lia; reflexivity. Qed.

Lemma iter_shr_1_exact p : forall m,
  0 <= m ->
  iter_pos shr_1 p (Build_shr_record (m * 2 ^ Zpos p) false false)
  = Build_shr_record m false false.
Proof.
  induction p as [p IH | p IH | ]; intros m Hm; cbn [iter_pos].
  - pose proof (Z.pow_pos_nonneg 2 (Zpos p) ltac:(lia) ltac:(lia)) as Hp.
    replace (m * 2 ^ Zpos p~1) with (2 * (m * 2 ^ Zpos p * 2 ^ Zpos p)).
    + rewrite shr_1_exact by nia. rewrite IH by nia. apply IH. assumption.
    + replace (Zpos p~1) with (1 + Zpos p + Zpos p) by lia.
      rewrite !Z.pow_add_r by lia. rewrite Z.pow_1_r. ring.
  - pose proof (Z.pow_pos_nonneg 2 (Zpos p) ltac:(lia) ltac:(lia)) as Hp.
    replace (m * 2 ^ Zpos p~0) with (m * 2 ^ Zpos p * 2 ^ Zpos p).
    + rewrite IH by nia. apply IH. assumption.
    + replace (Zpos p~0) with (Zpos p + Zpos p) by lia.
      rewrite !Z.pow_add_r by lia. ring.
  - rewrite Z.pow_1_r, Z.mul_comm. apply shr_1_exact. assumption.
Qed.

(** Shifting right a mantissa whose low bits are zero loses nothing. *)
Lemma shr_fexp_exact m e :
  0 <= m ->
  let E := fexp (Zdigits2 m + e) in
  e < E -> m mod 2 ^ (E - e) = 0 ->
  fst (shr_fexp prec emax m e loc_Exact)
  = Build_shr_record (m / 2 ^ (E - e)) false false.
Proof.
  intros Hm E HE Hmod. unfold shr_fexp. rewrite fexp_eq. fold E.
  unfold shr. destruct (E - e) as [ | p | p] eqn:Hd; try lia.
  cbn [fst shr_record_of_loc].
  pose proof (Z.pow_pos_nonneg 2 (Zpos p) ltac:(lia) ltac:(lia)) as Hp.
  assert (Hq : 0 <= m / 2 ^ Zpos p) by (apply Z.div_pos; lia).
  rewrite <- (iter_shr_1_exact p (m / 2 ^ Zpos p) Hq). do 2 f_equal.
  rewrite (Z.div_mod m (2 ^ Zpos p)) at 1 by lia. rewrite Hmod. lia.
Qed.

(** A mantissa with at most one bit too many is brought back to the
    format without loss. *)
Lemma renormalize w E :
  0 < w <= 2 ^ 53 -> emin <= E -> E <= fexp (Zdigits2 w + E) ->
  let res := shr_fexp prec emax w E loc_Exact in
  exists p, shr_m (fst res) = Zpos p /\ Zpos p * 2 ^ (snd res - E) = w /\
            E <= snd res /\ canonical_mantissa prec emax p (snd res) = true.
Proof.
  intros [Hw0 Hw] HE Hf res.
  destruct (shr_fexp_spec w E loc_Exact ltac:(lia)) as [Hshift Hkeep].
  fold res in Hshift, Hkeep.
  destruct (Zdigits2_bounds w Hw0) as [Hl Hu].
  pose proof (Zdigits2_pos w Hw0) as Hd.
  destruct (Z_le_gt_dec (Zdigits2 w) 53) as [Hle | Hgt].
  - destruct Hkeep as [He Hm]; [unfold fexp, emin in *; lia | ].
    destruct w as [ | p | p]; try lia.
    exists p. rewrite He, Hm, Z.sub_diag, Z.pow_0_r.
    repeat split; try lia.
    unfold canonical_mantissa. rewrite fexp_eq. apply Z.eqb_eq.
    cbn [Zdigits2] in *. unfold fexp, emin in *. lia.
  - assert (Hd54 : Zdigits2 w = 54).
    { destruct (Z_le_gt_dec (Zdigits2 w) 54) as [ | Hgt']; [lia | ].
      assert (2 ^ 54 <= 2 ^ (Zdigits2 w - 1)) by (apply Z.pow_le_mono_r; lia).
      assert (2 ^ 53 < 2 ^ 54) by (apply Z.pow_lt_mono_r; lia). lia. }
    assert (Hw53 : w = 2 ^ 53) by (rewrite Hd54 in Hl; change (54 - 1) with 53 in Hl; lia).
    destruct Hshift as [He Hm]; [rewrite Hd54; unfold fexp, emin in *; lia | ].
    assert (HE1 : fexp (Zdigits2 w + E) = E + 1)
      by (rewrite Hd54; unfold fexp, emin in *; lia).
    rewrite HE1 in He, Hm.
    replace (E + 1 - E) with 1 in Hm by lia.
    exists (4503599627370496%positive).
    rewrite He, Hm, Hw53. replace (E + 1 - E) with 1 by lia.
    repeat split; try reflexivity; try lia.
    unfold canonical_mantissa. rewrite fexp_eq. apply Z.eqb_eq.
    cbn [digits2_pos Pos.succ]. unfold fexp, emin in *. lia.
Qed.

(** What [binary_round_aux] returns, when the mantissa it is given has
    enough bits: a zero, an infinity on overflow, or a normalised float
    whose value is the given one with the low bits dropped, or the next
    one up. *)
Lemma binary_round_aux_spec s m e l :
  0 <= m -> e <= fexp (Zdigits2 m + e) ->
  let E := fexp (Zdigits2 m + e) in
  let f := m / 2 ^ (E - e) in
  (binary_round_aux prec emax s m e l = S754_zero s /\ f = 0) \/
  exists p e',
    canonical_mantissa prec emax p e' = true /\ E <= e' /\
    f <= Zpos p * 2 ^ (e' - E) <= f + 1 /\
    (l = loc_Exact -> m mod 2 ^ (E - e) = 0 -> Zpos p * 2 ^ (e' - E) = f) /\
    binary_round_aux prec emax s m e l
    = if e' <=? emax - prec then S754_finite s p e' else S754_infinity s.
Proof.
  intros Hm Hpre E f.
  pose proof (Z.pow_pos_nonneg 2 (E - e) ltac:(lia) ltac:(lia)) as H2k.
  assert (Hf0 : 0 <= f) by (apply Z.div_pos; lia).
  pose proof (fexp_emin (Zdigits2 m + e)) as HEmin. fold E in HEmin.
  unfold binary_round_aux.
  destruct (shr_fexp prec emax m e l) as [mrs' e'] eqn:H1.
  assert (He' : e' = E /\ shr_m mrs' = f).
  { destruct (shr_fexp_spec m e l Hm) as [Hshift Hkeep].
    rewrite H1 in Hshift, Hkeep. cbn [fst snd] in *. fold E in Hshift, Hkeep.
    destruct (Z_lt_le_dec e E) as [Hlt | Hge].
    - apply Hshift; assumption.
    - destruct (Hkeep Hge) as [-> ->]. split; [lia | ].
      unfold f. replace (E - e) with 0 by lia. rewrite Z.pow_0_r, Z.div_1_r. reflexivity. }
  destruct He' as [-> Hmrs'].
  set (m2 := round_nearest_even (shr_m mrs') (loc_of_shr_record mrs')).
  assert (Hm2 : f <= m2 <= f + 1)
    by (unfold m2; rewrite <- Hmrs'; apply round_nearest_even_bounds).
  assert (Hexact : l = loc_Exact -> m mod 2 ^ (E - e) = 0 -> m2 = f).
  { intros -> Hmod. unfold m2.
    destruct (Z_lt_le_dec e E) as [Hlt | Hge].
    - pose proof (shr_fexp_exact m e Hm Hlt Hmod) as Hx. fold E in Hx.
      rewrite H1 in Hx. cbn [fst] in Hx. rewrite Hx. reflexivity.
    - destruct (shr_fexp_spec m e loc_Exact Hm) as [_ Hkeep].
      unfold shr_fexp, shr in H1. rewrite fexp_eq in H1. fold E in H1.
      destruct (E - e) as [ | p | p] eqn:Hd; try lia;
        injection H1 as <- _; cbn; unfold f;
        rewrite Z.pow_0_r, Z.div_1_r; reflexivity. }
  (* the number of digits of what is kept *)
  assert (Hdf : 0 < f -> Zdigits2 f = Zdigits2 m + e - E).
  { intros Hfpos. unfold f. rewrite Zdigits2_div; [lia | lia | ].
    destruct (Z_le_gt_dec (2 ^ (E - e)) m) as [ | Hsmall]; [assumption | ].
    unfold f in Hfpos. rewrite Z.div_small in Hfpos; lia. }
  assert (Hf53 : f < 2 ^ 53).
  { destruct (Z.eq_dec f 0) as [-> | Hnz]; [reflexivity | ].
    destruct (Zdigits2_bounds f ltac:(lia)) as [_ Hu].
    assert (2 ^ Zdigits2 f <= 2 ^ 53).
    { apply Z.pow_le_mono_r; [lia | ]. rewrite Hdf by lia.
      unfold E, fexp, emin. lia. }
    lia. }
  destruct (Z.eq_dec m2 0) as [Hz | Hnz].
  - left. split; [ | lia]. rewrite Hz.
    destruct (shr_fexp_spec 0 E loc_Exact ltac:(lia)) as [_ Hkeep].
    destruct (shr_fexp prec emax 0 E loc_Exact) as [mrs'' e''].
    cbn [fst snd] in Hkeep.
    destruct Hkeep as [_ ->]; [cbn [Zdigits2]; unfold E, fexp, emin; lia | reflexivity].
  - right.
    assert (Hpre2 : E <= fexp (Zdigits2 m2 + E)).
    { destruct (Z.eq_dec f 0) as [Hfz | Hfnz].
      - assert (Hm21 : m2 = 1) by lia. rewrite Hm21. cbn [Zdigits2 digits2_pos].
        (* nothing is kept: the exponent is the smallest one *)
        assert (HEe : E = emin).
        { destruct (Z.eq_dec m 0) as [Hm0 | Hm0].
          - unfold E. rewrite Hm0. cbn [Zdigits2].
            unfold E in Hpre. rewrite Hm0 in Hpre. cbn [Zdigits2] in Hpre.
            unfold fexp, emin in *. lia.
          - destruct (Zdigits2_bounds m ltac:(lia)) as [Hl _].
            assert (Hsmall : m < 2 ^ (E - e)).
            { destruct (Z_lt_le_dec m (2 ^ (E - e))) as [ | Hbig]; [assumption | ].
              assert (1 <= f) by (apply Z.div_le_lower_bound; lia). lia. }
            assert (Zdigits2 m - 1 < E - e).
            { apply (Z.pow_lt_mono_r_iff 2); lia. }
            unfold E, fexp, emin in *. lia. }
        rewrite HEe. reflexivity.
      - apply Z.le_trans with (fexp (Zdigits2 f + E)).
        + rewrite Hdf by lia. replace (Zdigits2 m + e - E + E) with (Zdigits2 m + e) by lia.
          fold E. lia.
        + apply fexp_le. pose proof (Zdigits2_le f m2 ltac:(lia)). lia. }
    destruct (renormalize m2 E ltac:(lia) HEmin Hpre2) as (p & Hp & Hval & Hge & Hcan).
    destruct (shr_fexp prec emax m2 E loc_Exact) as [mrs'' e''].
    cbn [fst snd] in *.
    exists p, e''. rewrite Hp.
    repeat split; try assumption; try lia.
    intros Hl Hmod. rewrite Hval. auto.
Qed.

(** * Floats: values and comparisons *)

Lemma canonical_inv m e :
  canonical_mantissa prec emax m e = true ->
  fexp (Zpos (digits2_pos m) + e) = e.
Proof. unfold canonical_mantissa. rewrite fexp_eq. apply Z.eqb_eq. Qed.

Lemma bounded_inv m e :
  bounded prec emax m e = true ->
  fexp (Zpos (digits2_pos m) + e) = e /\ e <= 971.
Proof.
  unfold bounded. intros H. apply andb_true_iff in H as [Hc He].
  split; [apply canonical_inv; assumption | ].
  apply Z.leb_le in He. exact He.
Qed.

Lemma canonical_range m e :
  canonical_mantissa prec emax m e = true ->
  emin <= e /\ Zpos (digits2_pos m) <= 53.
Proof.
  intros H. apply canonical_inv in H. unfold fexp, emin in *. lia.
Qed.

Lemma pow2_pos k : 0 <= k -> 0 < 2 ^ k.
Proof. intros; apply Z.pow_pos_nonneg; lia. Qed.

Lemma ulps_pos m e :
  emin <= e -> 0 < Zpos m * 2 ^ (e - emin).
Proof. intros He. pose proof (pow2_pos (e - emin)). nia. Qed.

(** Among normalised floats the exponent orders the values. *)
Lemma canonical_lt_exp m1 e1 m2 e2 :
  canonical_mantissa prec emax m1 e1 = true ->
  canonical_mantissa prec emax m2 e2 = true ->
  e1 < e2 ->
  Zpos m1 * 2 ^ (e1 - emin) < Zpos m2 * 2 ^ (e2 - emin).
Proof.
  intros H1 H2 Hlt.
  pose proof (canonical_range _ _ H1) as [Hmin1 Hd1].
  apply canonical_inv in H1, H2.
  destruct (digits2_pos_bounds m1) as [_ Hu1].
  destruct (digits2_pos_bounds m2) as [Hl2 _].
  assert (Hd2 : Zpos (digits2_pos m2) = 53) by (unfold fexp, emin in *; lia).
  rewrite Hd2 in Hl2. change (53 - 1) with 52 in Hl2.
  assert (Hm1 : Zpos m1 < 2 ^ 53).
  { apply Z.lt_le_trans with (1 := Hu1). apply Z.pow_le_mono_r; lia. }
  replace (e2 - emin) with ((e2 - e1 - 1) + 1 + (e1 - emin)) by lia.
  rewrite !Z.pow_add_r by lia. rewrite Z.pow_1_r.
  pose proof (pow2_pos (e2 - e1 - 1) ltac:(lia)) as HA.
  pose proof (pow2_pos (e1 - emin) ltac:(lia)) as HB.
  set (A := 2 ^ (e2 - e1 - 1)) in *. set (B := 2 ^ (e1 - emin)) in *.
  change (2 ^ 53) with (2 * 2 ^ 52) in Hm1.
  set (C := 2 ^ 52) in *.
  assert (Zpos m1 * B < 2 * C * B) by (apply Z.mul_lt_mono_pos_r; assumption).
  assert (2 * C * B <= 2 * Zpos m2 * B)
    by (apply Z.mul_le_mono_nonneg_r; lia).
  assert (2 * Zpos m2 * B * 1 <= 2 * Zpos m2 * B * A)
    by (apply Z.mul_le_mono_nonneg_l; lia).
  replace (Zpos m2 * (A * 2 * B)) with (2 * Zpos m2 * B * A) by ring.
  lia.
Qed.

Lemma canonical_compare m1 e1 m2 e2 :
  canonical_mantissa prec emax m1 e1 = true ->
  canonical_mantissa prec emax m2 e2 = true ->
  match e1 ?= e2 with
  | Lt => Lt
  | Gt => Gt
  | Eq => Pos.compare_cont Eq m1 m2
  end = (Zpos m1 * 2 ^ (e1 - emin) ?= Zpos m2 * 2 ^ (e2 - emin)).
Proof.
  intros H1 H2. symmetry.
  destruct (Z.compare_spec e1 e2) as [-> | Hlt | Hgt].
  - pose proof (canonical_range _ _ H2) as [Hmin _].
    pose proof (pow2_pos (e2 - emin) ltac:(lia)).
    rewrite <- Zmult_compare_compat_r by lia. reflexivity.
  - apply Z.compare_lt_iff. apply canonical_lt_exp; assumption.
  - apply Z.compare_gt_iff. apply canonical_lt_exp; assumption.
Qed.

(** On floats of the machine the comparison of the program is the
    comparison of the values. *)
Lemma SFcompare_ulps x y :
  valid x -> valid y -> is_finite x = true -> is_finite y = true ->
  SFcompare x y = Some (ulps x ?= ulps y).
Proof.
  unfold valid.
  destruct x as [sx | sx | | sx mx ex], y as [sy | sy | | sy my ey];
    cbn [is_finite valid_binary]; try discriminate; intros Hx Hy _ _.
  - reflexivity.
  - apply bounded_inv in Hy as [Hy _].
    pose proof (ulps_pos my ey ltac:(unfold fexp, emin in *; lia)) as Hp.
    cbn [SFcompare ulps]. f_equal. destruct sy; cbn [cond_Zopp]; symmetry.
    + apply Z.compare_gt_iff. lia.
    + apply Z.compare_lt_iff. lia.
  - apply bounded_inv in Hx as [Hx _].
    pose proof (ulps_pos mx ex ltac:(unfold fexp, emin in *; lia)) as Hp.
    cbn [SFcompare ulps]. f_equal. destruct sx; cbn [cond_Zopp]; symmetry.
    + apply Z.compare_lt_iff. lia.
    + apply Z.compare_gt_iff. lia.
  - unfold bounded in Hx, Hy.
    apply andb_true_iff in Hx as [Hx _]. apply andb_true_iff in Hy as [Hy _].
    pose proof (canonical_range _ _ Hx) as [Hminx _].
    pose proof (canonical_range _ _ Hy) as [Hminy _].
    pose proof (ulps_pos mx ex Hminx) as Hpx.
    pose proof (ulps_pos my ey Hminy) as Hpy.
    pose proof (canonical_compare mx ex my ey Hx Hy) as Hc.
    pose proof (canonical_compare my ey mx ex Hy Hx) as Hc'.
    cbn [SFcompare ulps]. f_equal.
    destruct sx, sy; cbn [cond_Zopp].
    + rewrite Z.compare_opp.
      rewrite <- Hc'. rewrite (Z.compare_antisym ex ey).
      rewrite (Pos.compare_cont_antisym mx my Eq). cbn [CompOpp].
      destruct (ex ?= ey); reflexivity.
    + symmetry. apply Z.compare_lt_iff. lia.
    + symmetry. apply Z.compare_gt_iff. lia.
    + exact Hc.
Qed.

Lemma fle_ulps x y :
  valid x -> valid y -> is_finite x = true -> is_finite y = true ->
  fle x y = (ulps x <=? ulps y).
Proof.
  intros. unfold fle, SFleb. rewrite SFcompare_ulps by assumption.
  unfold Z.leb. destruct (ulps x ?= ulps y); reflexivity.
Qed.

Lemma flt_ulps x y :
  valid x -> valid y -> is_finite x = true -> is_finite y = true ->
  flt x y = (ulps x <? ulps y).
Proof.
  intros. unfold flt, SFltb. rewrite SFcompare_ulps by assumption.
  unfold Z.ltb. destruct (ulps x ?= ulps y); reflexivity.
Qed.

Lemma iter_xO m d : Zpos (Pos.iter xO m d) = Zpos m * 2 ^ Zpos d.
Proof.
  induction d as [ | d IH] using Pos.peano_ind.
  - cbn [Pos.iter]. rewrite Z.pow_1_r. lia.
  - rewrite Pos.iter_succ, Pos2Z.inj_succ, Z.pow_succ_r by lia.
    rewrite Pos2Z.inj_xO, IH. ring.
Qed.

Lemma shl_align_spec mx ex ez :
  ez <= ex ->
  Zpos (fst (shl_align mx ex ez)) = Zpos mx * 2 ^ (ex - ez) /\
  snd (shl_align mx ex ez) = ez.
Proof.
  intros H. unfold shl_align.
  destruct (ez - ex) as [ | d | d] eqn:Hd; try lia; cbn [fst snd].
  - replace (ex - ez) with 0 by lia. rewrite Z.pow_0_r. lia.
  - rewrite iter_xO. replace (ex - ez) with (Zpos d) by lia. lia.
Qed.

Lemma shl_align_keep mx ex ez :
  ex <= ez -> shl_align mx ex ez = (mx, ex).
Proof.
  intros H. unfold shl_align.
  destruct (ez - ex) as [ | d | d] eqn:Hd; try lia; reflexivity.
Qed.

(** Rounding a positive number [V] of units of 2^-1074: the result is a
    multiple of the unit in the last place [U] of [V] next to [V], and
    [V] itself when it is such a multiple. *)
Lemma binary_round_spec s mx ex :
  emin <= ex ->
  let E := fexp (Zpos (digits2_pos mx) + ex) in
  let U := 2 ^ (E - emin) in
  let V := Zpos mx * 2 ^ (ex - emin) in
  exists p e',
    canonical_mantissa prec emax p e' = true /\
    V / U * U <= Zpos p * 2 ^ (e' - emin) <= V / U * U + U /\
    (V mod U = 0 -> Zpos p * 2 ^ (e' - emin) = V) /\
    binary_round prec emax s mx ex
    = if e' <=? emax - prec then S754_finite s p e' else S754_infinity s.
Proof.
  intros Hex E U V.
  pose proof (fexp_emin (Zpos (digits2_pos mx) + ex)) as HE. fold E in HE.
  assert (HU : 0 < U) by (apply pow2_pos; lia).
  unfold binary_round. rewrite fexp_eq. fold E.
  destruct (shl_align mx ex E) as [mz ez] eqn:Hsh.
  (* the mantissa handed to the rounding and what it keeps of it *)
  assert (Hz : exists k, 0 <= k /\ ez <= fexp (Zdigits2 (Zpos mz) + ez) /\
               fexp (Zdigits2 (Zpos mz) + ez) = E /\ k = E - ez /\
               V / U = Zpos mz / 2 ^ k /\
               (V mod U = 0 -> Zpos mz mod 2 ^ k = 0)).
  { destruct (Z_lt_le_dec E ex) as [Hlt | Hge].
    - destruct (shl_align_spec mx ex E ltac:(lia)) as [Hm He].
      rewrite Hsh in Hm, He. cbn [fst snd] in Hm, He. subst ez.
      assert (Hd : Zdigits2 (Zpos mz) + E = Zpos (digits2_pos mx) + ex).
      { rewrite Hm, Zdigits2_shift by lia. cbn [Zdigits2]. lia. }
      exists 0. rewrite Hd. fold E. repeat split; try lia.
      + rewrite Z.pow_0_r, Z.div_1_r. unfold V, U.
        replace (ex - emin) with ((ex - E) + (E - emin)) by lia.
        rewrite Z.pow_add_r, Z.mul_assoc, Z.div_mul by lia. lia.
      + intros _. rewrite Z.pow_0_r. apply Z.mod_1_r.
    - rewrite shl_align_keep in Hsh by lia. injection Hsh as <- <-.
      exists (E - ex). cbn [Zdigits2]. fold E. repeat split; try lia.
      + unfold V, U.
        replace (E - emin) with ((E - ex) + (ex - emin)) by lia.
        rewrite Z.pow_add_r by lia.
        rewrite Z.div_mul_cancel_r; try reflexivity;
          apply Z.neq_sym, Z.lt_neq, pow2_pos; lia.
      + unfold V, U.
        replace (E - emin) with ((E - ex) + (ex - emin)) by lia.
        rewrite Z.pow_add_r by lia.
        rewrite Z.mul_mod_distr_r by (apply Z.neq_sym, Z.lt_neq, pow2_pos; lia).
        pose proof (pow2_pos (ex - emin) ltac:(lia)). nia. }
  destruct Hz as (k & Hk & Hpre & HEz & -> & Hf & Hmod).
  destruct (binary_round_aux_spec s (Zpos mz) ez loc_Exact ltac:(lia) Hpre)
    as [[_ Hzero] | (p & e' & Hcan & Hge & Hb & Hexact & Hres)].
  - (* a positive number has at least one unit in the last place *)
    exfalso. rewrite HEz, <- Hf in Hzero.
    assert (Hsmall : V < U).
    { destruct (Z_lt_le_dec V U) as [ | Hbig]; [assumption | ].
      assert (1 <= V / U) by (apply Z.div_le_lower_bound; lia). lia. }
    destruct (digits2_pos_bounds mx) as [Hl _].
    assert (Hlt : Zpos (digits2_pos mx) - 1 + (ex - emin) < E - emin).
    { apply (Z.pow_lt_mono_r_iff 2); [lia | lia | ].
      rewrite Z.pow_add_r by lia.
      pose proof (pow2_pos (ex - emin) ltac:(lia)).
      apply Z.le_lt_trans with V; [ | exact Hsmall].
      unfold V. apply Z.mul_le_mono_nonneg_r; lia. }
    unfold E, fexp, emin in *. lia.
  - rewrite HEz, <- Hf in Hb, Hexact.
    exists p, e'. split; [assumption | ].
    assert (Hv : Zpos p * 2 ^ (e' - emin) = Zpos p * 2 ^ (e' - E) * U).
    { unfold U. rewrite <- Z.mul_assoc, <- Z.pow_add_r by lia.
      do 2 f_equal. lia. }
    rewrite Hv. repeat split; try nia; try assumption.
    intros HVmod. rewrite Hexact by auto.
    rewrite (Z.div_mod V U) at 2 by lia. lia.
Qed.

(** * Floats: subtraction *)

Lemma fsub_self x : is_finite x = true -> fsub x x = zero.
Proof.
  destruct x as [[ | ] | | | s m e]; try discriminate; try reflexivity.
  intros _. unfold fsub, SFsub. rewrite Z.sub_diag. reflexivity.
Qed.

Lemma fsub_zero_r x s :
  x <> S754_zero true -> x <> S754_zero false -> fsub x (S754_zero s) = x.
Proof.
  destruct x as [[ | ] | [ | ] | | sx m e]; intros H1 H2;
    try contradiction; try reflexivity.
Qed.

Lemma ulps_finite_pos x :
  0 < ulps x -> exists m e, x = S754_finite false m e.
Proof.
  destruct x as [ | | | s m e]; cbn [ulps]; try lia.
  destruct s; cbn [cond_Zopp]; [lia | ]. intros _. eauto.
Qed.

Lemma valid_ulps_pos s m e :
  valid (S754_finite s m e) -> 0 < Zpos m * 2 ^ (e - emin).
Proof.
  unfold valid. cbn [valid_binary]. intros V.
  apply bounded_inv in V as [Hc _]. apply ulps_pos.
  unfold fexp, emin in *. lia.
Qed.

Lemma ulps_nonneg_cases x :
  valid x -> is_finite x = true -> 0 <= ulps x ->
  (exists s, x = S754_zero s) \/ (exists m e, x = S754_finite false m e /\ 0 < ulps x).
Proof.
  destruct x as [s | | | s m e]; cbn [is_finite]; try discriminate; intros V _ H.
  - left. eauto.
  - right. pose proof (valid_ulps_pos s m e V).
    destruct s; cbn [ulps cond_Zopp] in *; [lia | ].
    exists m, e. split; [reflexivity | lia].
Qed.

(** Rounding is monotone: a number that is not above a float of the
    machine is rounded to a float that is not above it either, and that
    is away from the number by at most the spacing of that float. *)
Lemma binary_round_le s mx ex mX eX :
  emin <= ex -> bounded prec emax mX eX = true ->
  Zpos mx * 2 ^ (ex - emin) <= Zpos mX * 2 ^ (eX - emin) ->
  exists p e',
    binary_round prec emax s mx ex = S754_finite s p e' /\
    bounded prec emax p e' = true /\
    Zpos p * 2 ^ (e' - emin) <= Zpos mX * 2 ^ (eX - emin) /\
    Z.abs (Zpos p * 2 ^ (e' - emin) - Zpos mx * 2 ^ (ex - emin))
    <= 2 ^ (eX - emin).
Proof.
  intros Hex VX Hle.
  destruct (bounded_inv _ _ VX) as [HcX HeX].
  assert (HminX : emin <= eX) by (unfold fexp, emin in *; lia).
  set (V := Zpos mx * 2 ^ (ex - emin)) in *.
  set (X := Zpos mX * 2 ^ (eX - emin)) in *.
  assert (HV : 0 < V) by (apply ulps_pos; assumption).
  destruct (binary_round_spec s mx ex Hex)
    as (p & e' & Hcan & [Hlow Hup] & Hexact & ->).
  fold V in Hlow, Hup, Hexact.
  set (E := fexp (Zpos (digits2_pos mx) + ex)) in *.
  set (U := 2 ^ (E - emin)) in *.
  pose proof (fexp_emin (Zpos (digits2_pos mx) + ex)) as HEmin. fold E in HEmin.
  assert (HU : 0 < U) by (apply pow2_pos; lia).
  (* the unit in the last place of [V] divides [X] *)
  assert (HEX : E <= eX).
  { rewrite <- HcX. apply fexp_le.
    assert (Hd : Zdigits2 V <= Zdigits2 X) by (apply Zdigits2_le; lia).
    unfold V, X in Hd. rewrite !Zdigits2_shift in Hd by lia.
    cbn [Zdigits2] in Hd. lia. }
  assert (HXU : X = Zpos mX * 2 ^ (eX - E) * U).
  { unfold X, U. rewrite <- Z.mul_assoc, <- Z.pow_add_r by lia. do 2 f_equal. lia. }
  assert (HR : Zpos p * 2 ^ (e' - emin) <= X).
  { destruct (Z.eq_dec (V mod U) 0) as [Hmod | Hmod].
    - rewrite Hexact by assumption. exact Hle.
    - assert (Hq : V / U < Zpos mX * 2 ^ (eX - E)).
      { apply Z.div_lt_upper_bound; [lia | ]. rewrite Z.mul_comm, <- HXU.
        pose proof (Z.div_mod V U ltac:(lia)).
        pose proof (Z.mod_pos_bound V U HU).
        assert (V <> X); [ | lia].
        intros HVX. apply Hmod. rewrite HVX, HXU. apply Z.mod_mul. lia. }
      nia. }
  (* no overflow: the result is not above [X] *)
  assert (He' : e' <= eX).
  { destruct (Z_le_gt_dec e' eX) as [ | Hgt]; [assumption | ].
    unfold bounded in VX. apply andb_true_iff in VX as [VX _].
    pose proof (canonical_lt_exp mX eX p e' VX Hcan ltac:(lia)) as H.
    fold X in H. lia. }
  assert (HUX : U <= 2 ^ (eX - emin)) by (apply Z.pow_le_mono_r; lia).
  exists p, e'.
  replace (e' <=? emax - prec) with true
    by (symmetry; apply Z.leb_le; unfold emax, prec; lia).
  split; [reflexivity | ]. split; [ | split; [exact HR | ]].
  - unfold bounded. rewrite Hcan. apply Z.leb_le. unfold emax, prec. lia.
  - pose proof (Z.div_mod V U ltac:(lia)).
    pose proof (Z.mod_pos_bound V U HU). lia.
Qed.

(** Taking a smaller non-negative float from a float leaves a positive
    float of the machine that is not larger than the first, and that is
    the exact difference up to the spacing of the first. *)
Lemma fsub_lt_bounds x y :
  valid x -> valid y -> is_finite x = true -> is_finite y = true ->
  0 <= ulps y -> ulps y < ulps x ->
  valid (fsub x y) /\ is_finite (fsub x y) = true /\
  0 < ulps (fsub x y) <= ulps x /\
  Z.abs (ulps (fsub x y) - (ulps x - ulps y)) <= spacing x.
Proof.
  intros Vx Vy Fx Fy Hy Hlt.
  destruct (ulps_finite_pos x ltac:(lia)) as (mx & ex & ->).
  destruct (ulps_nonneg_cases y Vy Fy Hy) as [[sy ->] | (my & ey & -> & Hypos)].
  { cbn [ulps] in Hlt |- *. rewrite fsub_zero_r by discriminate.
    cbn [spacing ulps].
    pose proof (Z.pow_nonneg 2 (ex - emin) ltac:(lia)).
    repeat split; try assumption; lia. }
  pose proof Vx as Bx. pose proof Vy as By.
  unfold valid in Bx, By. cbn [valid_binary] in Bx, By.
  destruct (bounded_inv _ _ Bx) as [Hcx Hex].
  destruct (bounded_inv _ _ By) as [Hcy Hey].
  assert (Hminx : emin <= ex) by (unfold fexp, emin in *; lia).
  assert (Hminy : emin <= ey) by (unfold fexp, emin in *; lia).
  cbn [ulps cond_Zopp] in Hlt, Hypos |- *.
  set (X := Zpos mx * 2 ^ (ex - emin)) in *.
  set (Y := Zpos my * 2 ^ (ey - emin)) in *.
  unfold fsub, SFsub. cbn [cond_Zopp].
  set (ez := Z.min ex ey).
  destruct (shl_align_spec mx ex ez ltac:(lia)) as [-> _].
  destruct (shl_align_spec my ey ez ltac:(lia)) as [-> _].
  pose proof (pow2_pos (ez - emin) ltac:(lia)) as Hpz.
  assert (HX : X = Zpos mx * 2 ^ (ex - ez) * 2 ^ (ez - emin)).
  { unfold X. rewrite <- Z.mul_assoc, <- Z.pow_add_r by lia. do 2 f_equal. lia. }
  assert (HY : Y = Zpos my * 2 ^ (ey - ez) * 2 ^ (ez - emin)).
  { unfold Y. rewrite <- Z.mul_assoc, <- Z.pow_add_r by lia. do 2 f_equal. lia. }
  set (M := Zpos mx * 2 ^ (ex - ez) - Zpos my * 2 ^ (ey - ez)).
  assert (HM : M * 2 ^ (ez - emin) = X - Y) by (unfold M; lia).
  assert (HMpos : 0 < M) by nia.
  destruct M as [ | pM | pM] eqn:HeqM; try lia. cbn [binary_normalize].
  destruct (binary_round_le false pM ez mx ex ltac:(lia) Bx)
    as (p & e' & -> & Bp & HR & Herr); [fold X; lia | ].
  fold X in HR. rewrite HM in Herr.
  cbn [ulps cond_Zopp spacing].
  split; [exact Bp | ]. split; [reflexivity | ]. split; [ | exact Herr].
  split; [apply (valid_ulps_pos false); exact Bp | exact HR].
Qed.

(** * Floats: division and [round] *)

(** The quotient handed to the rounding has enough bits. *)
Lemma SFdiv_core_binary_pre m1 e1 m2 e2 :
  0 < m1 -> 0 < m2 ->
  let '(q, e', _) := SFdiv_core_binary prec emax m1 e1 m2 e2 in
  0 <= q /\ e' <= fexp (Zdigits2 q + e').
Proof.
  intros H1 H2. unfold SFdiv_core_binary. rewrite fexp_eq.
  set (d1 := Zdigits2 m1). set (d2 := Zdigits2 m2).
  set (e' := Z.min (fexp (d1 + e1 - (d2 + e2))) (e1 - e2)).
  set (s := e1 - e2 - e').
  assert (Hs : 0 <= s) by (unfold s, e'; lia).
  set (m' := match s with Z.pos _ => Z.shiftl m1 s | 0 => m1 | Z.neg _ => 0 end).
  assert (Hm' : m' = m1 * 2 ^ s).
  { unfold m'. clearbody s. destruct s as [ | p | p]; try lia.
    apply Z.shiftl_mul_pow2. lia. }
  pose proof (Z_div_mod m' m2 ltac:(lia)) as Hdm.
  destruct (Z.div_eucl m' m2) as [q r]. destruct Hdm as [Hq Hr].
  pose proof (pow2_pos s Hs) as H2s.
  assert (Hq0 : 0 <= q) by nia.
  split; [assumption | ].
  apply Z.le_trans with (fexp (d1 + e1 - (d2 + e2))); [unfold e'; lia | ].
  apply fexp_le.
  (* the quotient has at least [d1 + s - d2] digits *)
  destruct (Z_le_gt_dec (d1 + s - d2) 0) as [Hsmall | Hbig].
  - pose proof (Zdigits2_nonneg q). unfold s in *. lia.
  - assert (Hqd : 2 ^ (d1 + s - d2 - 1) <= q).
    { destruct (Zdigits2_bounds m1 H1) as [Hl1 _].
      destruct (Zdigits2_bounds m2 H2) as [_ Hu2]. fold d1 in Hl1. fold d2 in Hu2.
      pose proof (Zdigits2_pos m1 H1). pose proof (Zdigits2_pos m2 H2).
      fold d1 in H. fold d2 in H0.
      assert (Hlow : 2 ^ (d1 + s - d2 - 1) * 2 ^ d2 <= m').
      { rewrite Hm', <- Z.pow_add_r by lia.
        replace (d1 + s - d2 - 1 + d2) with ((d1 - 1) + s) by lia.
        rewrite Z.pow_add_r by lia. apply Z.mul_le_mono_nonneg_r; lia. }
      pose proof (pow2_pos (d1 + s - d2 - 1) ltac:(lia)).
      destruct (Z_le_gt_dec (2 ^ (d1 + s - d2 - 1)) q) as [ | Hlt]; [assumption | ].
      exfalso. assert (q + 1 <= 2 ^ (d1 + s - d2 - 1)) by lia.
      assert (m' < (q + 1) * m2) by nia.
      assert ((q + 1) * m2 <= 2 ^ (d1 + s - d2 - 1) * m2)
        by (apply Z.mul_le_mono_nonneg_r; lia).
      assert (2 ^ (d1 + s - d2 - 1) * m2 < 2 ^ (d1 + s - d2 - 1) * 2 ^ d2)
        by (apply Z.mul_lt_mono_pos_l; lia).
      lia. }
    assert (Hdq : d1 + s - d2 <= Zdigits2 q).
    { assert (0 < q) by (pose proof (pow2_pos (d1 + s - d2 - 1) ltac:(lia)); lia).
      destruct (Zdigits2_bounds q ltac:(lia)) as [_ Hu].
      destruct (Z_le_gt_dec (d1 + s - d2) (Zdigits2 q)) as [ | Hlt]; [assumption | ].
      assert (2 ^ Zdigits2 q <= 2 ^ (d1 + s - d2 - 1))
        by (apply Z.pow_le_mono_r; lia).
      lia. }
    unfold s in *. lia.
Qed.

(** The sign and the shape of what [binary_round_aux] returns. *)
Lemma binary_round_aux_shape s m e l :
  0 <= m -> e <= fexp (Zdigits2 m + e) ->
  let r := binary_round_aux prec emax s m e l in
  valid r /\
  (r = S754_zero s \/ (exists p e', r = S754_finite s p e') \/ r = S754_infinity s).
Proof.
  intros Hm Hpre r.
  destruct (binary_round_aux_spec s m e l Hm Hpre)
    as [[Hz _] | (p & e' & Hcan & _ & _ & _ & Hres)]; subst r.
  - rewrite Hz. split; [reflexivity | auto].
  - rewrite Hres. destruct (e' <=? emax - prec) eqn:He.
    + split; [ | eauto]. unfold valid. cbn [valid_binary]. unfold bounded.
      rewrite Hcan, He. reflexivity.
    + split; [reflexivity | auto].
Qed.

Lemma fdiv_finite_shape s mx ex my ey :
  let r := fdiv (S754_finite s mx ex) (S754_finite false my ey) in
  valid r /\
  (r = S754_zero s \/ (exists p e', r = S754_finite s p e') \/ r = S754_infinity s).
Proof.
  unfold fdiv, SFdiv.
  pose proof (SFdiv_core_binary_pre (Zpos mx) ex (Zpos my) ey ltac:(lia) ltac:(lia)) as H.
  destruct (SFdiv_core_binary prec emax (Zpos mx) ex (Zpos my) ey) as [[q e'] l].
  destruct H as [Hq Hpre]. rewrite xorb_false_r.
  apply binary_round_aux_shape; assumption.
Qed.

(** Every quotient is a float of the machine. *)
Lemma fdiv_valid x y : valid (fdiv x y).
Proof.
  destruct x as [sx | sx | | sx mx ex], y as [sy | sy | | sy my ey];
    try reflexivity.
  unfold fdiv, SFdiv.
  pose proof (SFdiv_core_binary_pre (Zpos mx) ex (Zpos my) ey ltac:(lia) ltac:(lia)) as H.
  destruct (SFdiv_core_binary prec emax (Zpos mx) ex (Zpos my) ey) as [[q e'] l].
  destruct H as [Hq Hpre]. apply binary_round_aux_shape; assumption.
Qed.

Lemma not_negative_shape x :
  (x = S754_zero false \/ (exists p e, x = S754_finite false p e)
   \/ x = S754_infinity false) ->
  not_negative x.
Proof. intros [-> | [(p & e & ->) | ->]]; reflexivity. Qed.

Lemma not_negative_finite s m e :
  not_negative (S754_finite s m e) -> s = false.
Proof. destruct s; [discriminate | reflexivity]. Qed.

Lemma fdiv_not_negative x my ey :
  is_finite x = true -> not_negative x ->
  not_negative (fdiv x (S754_finite false my ey)).
Proof.
  destruct x as [sx | sx | | sx mx ex]; try discriminate; intros _ H.
  - destruct sx; reflexivity.
  - apply not_negative_finite in H as ->.
    apply not_negative_shape. apply fdiv_finite_shape.
Qed.

Lemma round2_valid x : valid x -> valid (Py.round2 x).
Proof.
  destruct x as [s | s | | s m e]; try (intros; assumption).
  intros V. unfold Py.round2, Py.hundredths. destruct (0 <=? e); [assumption | ].
  destruct (Py.div_half_even _ _); try reflexivity. apply fdiv_valid.
Qed.

Lemma round2_not_negative x : not_negative x -> not_negative (Py.round2 x).
Proof.
  destruct x as [s | s | | s m e]; try (intros; assumption).
  intros H. pose proof (not_negative_finite _ _ _ H) as ->.
  unfold Py.round2, Py.hundredths. destruct (0 <=? e); [assumption | ].
  destruct (Py.div_half_even _ _); try reflexivity.
  apply not_negative_shape. apply fdiv_finite_shape.
Qed.

Lemma of_Z_pos n :
  1 <= n <= max_float ->
  exists p e, of_Z n = S754_finite false p e /\ bounded prec emax p e = true.
Proof.
  intros [H1 Hn]. destruct n as [ | pn | pn]; try lia.
  unfold of_Z. cbn [binary_normalize].
  destruct (binary_round_le false pn 0 9007199254740991 971)
    as (p & e & Hr & Hb & _).
  - unfold emin. lia.
  - reflexivity.
  - unfold max_float in Hn.
    replace (0 - emin) with 1074 by reflexivity.
    replace (971 - emin) with (971 + 1074) by reflexivity.
    rewrite Z.pow_add_r by lia.
    change (2 ^ 53 - 1) with 9007199254740991 in Hn.
    rewrite Z.mul_assoc. apply Z.mul_le_mono_nonneg_r; [ | exact Hn].
    apply Z.lt_le_incl, pow2_pos. lia.
  - exists p, e. split; assumption.
Qed.

(** An integer from [2 ^ 1024] on is too large for a float. *)
Lemma of_Z_overflow n : 2 ^ 1024 <= n -> of_Z n = S754_infinity false.
Proof.
  intros Hn.
  assert (H1024 : 0 < 2 ^ 1024) by (apply pow2_pos; lia).
  destruct n as [ | pn | pn]; try lia.
  unfold of_Z. cbn [binary_normalize].
  destruct (binary_round_spec false pn 0 ltac:(unfold emin; lia))
    as (p & e & Hcan & [Hlow _] & _ & ->).
  replace (e <=? emax - prec) with false; [reflexivity | ].
  symmetry. apply Z.leb_gt. unfold emax, prec.
  destruct (Z_le_gt_dec e 971) as [He | ]; [exfalso | lia].
  set (d := Zpos (digits2_pos pn)) in *.
  set (E := fexp (d + 0)) in *.
  destruct (digits2_pos_bounds pn) as [Hl Hu]. fold d in Hl, Hu.
  assert (Hd : 1025 <= d).
  { destruct (Z_le_gt_dec 1025 d) as [ | Hsmall]; [assumption | ].
    assert (2 ^ d <= 2 ^ 1024) by (apply Z.pow_le_mono_r; lia). lia. }
  assert (HE : E = d - 53) by (unfold E, fexp, emin; lia).
  (* the result is at least [2 ^ (d - 1)], the integer at most [2 ^ 1024] *)
  pose proof (canonical_range _ _ Hcan) as [Hmin Hdp].
  destruct (digits2_pos_bounds p) as [_ Hup].
  assert (Hp : Zpos p < 2 ^ 53).
  { apply Z.lt_le_trans with (1 := Hup). apply Z.pow_le_mono_r; lia. }
  assert (HR : Zpos p * 2 ^ (e - emin) < 2 ^ (d - 1) * 2 ^ (0 - emin)).
  { apply Z.lt_le_trans with (2 ^ 53 * 2 ^ (e - emin)).
    - apply Z.mul_lt_mono_pos_r; [apply pow2_pos; lia | exact Hp].
    - rewrite <- !Z.pow_add_r by (unfold emin in *; lia).
      apply Z.pow_le_mono_r; unfold emin in *; lia. }
  assert (Hfloor : 2 ^ (d - 1) * 2 ^ (0 - emin)
                   <= Zpos pn * 2 ^ (0 - emin) / 2 ^ (E - emin) * 2 ^ (E - emin)).
  { pose proof (pow2_pos (E - emin) ltac:(unfold emin in *; lia)) as HU.
    assert (HA : 2 ^ (d - 1) * 2 ^ (0 - emin)
                 = 2 ^ (d - 1 - E) * 2 ^ (E - emin)).
    { rewrite <- !Z.pow_add_r by (unfold emin in *; lia). f_equal. lia. }
    rewrite HA. apply Z.mul_le_mono_nonneg_r; [lia | ].
    apply Z.div_le_lower_bound; [lia | ].
    rewrite Z.mul_comm, <- HA.
    apply Z.mul_le_mono_nonneg_r; [apply Z.pow_nonneg; lia | exact Hl]. }
  lia.
Qed.

(** * Floats: exact operations *)

(** Normalised floats with the same value are the same. *)
Lemma canonical_unique m1 e1 m2 e2 :
  canonical_mantissa prec emax m1 e1 = true ->
  canonical_mantissa prec emax m2 e2 = true ->
  Zpos m1 * 2 ^ (e1 - emin) = Zpos m2 * 2 ^ (e2 - emin) ->
  m1 = m2 /\ e1 = e2.
Proof.
  intros H1 H2 Heq.
  assert (He : e1 = e2).
  { destruct (Z.lt_trichotomy e1 e2) as [Hlt | [ | Hgt]]; [ | assumption | ].
    - pose proof (canonical_lt_exp _ _ _ _ H1 H2 Hlt). lia.
    - pose proof (canonical_lt_exp _ _ _ _ H2 H1 ltac:(lia)). lia. }
  subst e2. split; [ | reflexivity].
  pose proof (canonical_range _ _ H1) as [Hmin _].
  pose proof (pow2_pos (e1 - emin) ltac:(lia)).
  apply Z.mul_cancel_r in Heq; [ | lia]. congruence.
Qed.

(** A float of the machine given with extra zero bits is rounded to
    itself. *)
Lemma binary_round_aux_exact s mx ex k :
  bounded prec emax mx ex = true -> 0 <= k ->
  binary_round_aux prec emax s (Zpos mx * 2 ^ k) (ex - k) loc_Exact
  = S754_finite s mx ex.
Proof.
  intros B Hk. pose proof B as B'.
  apply bounded_inv in B' as [Hc He].
  unfold bounded in B. apply andb_true_iff in B as [Bc _].
  pose proof (pow2_pos k Hk) as H2k.
  assert (Hd : Zdigits2 (Zpos mx * 2 ^ k) + (ex - k) = Zpos (digits2_pos mx) + ex).
  { rewrite Zdigits2_shift by lia. cbn [Zdigits2]. lia. }
  destruct (binary_round_aux_spec s (Zpos mx * 2 ^ k) (ex - k) loc_Exact)
    as [[_ Hz] | (p & e' & Hcan & Hge & _ & Hexact & ->)].
  - lia.
  - rewrite Hd, Hc. lia.
  - exfalso. rewrite Hd, Hc in Hz.
    replace (ex - (ex - k)) with k in Hz by lia.
    rewrite Z.div_mul in Hz; lia.
  - rewrite Hd, Hc in Hge, Hexact.
    replace (ex - (ex - k)) with k in Hexact by lia.
    rewrite Z.div_mul, Z.mod_mul in Hexact by lia.
    specialize (Hexact eq_refl eq_refl).
    pose proof (canonical_range _ _ Bc) as [Hmin _].
    destruct (canonical_unique p e' mx ex Hcan Bc) as [-> ->].
    { rewrite <- Hexact.
      rewrite <- Z.mul_assoc, <- Z.pow_add_r by lia. do 2 f_equal. lia. }
    replace (ex <=? emax - prec) with true; [reflexivity | ].
    symmetry. apply Z.leb_le. unfold emax, prec. lia.
Qed.

(** Dividing by [1.0] changes nothing. *)
Lemma fdiv_one x : valid x -> fdiv x (of_Z 1) = x.
Proof.
  change (of_Z 1) with (S754_finite false 4503599627370496 (-52)).
  destruct x as [[ | ] | [ | ] | | s mx ex]; try reflexivity.
  intros V. unfold valid in V. cbn [valid_binary] in V.
  destruct (bounded_inv _ _ V) as [Hc He].
  unfold fdiv, SFdiv, SFdiv_core_binary. rewrite fexp_eq, xorb_false_r.
  cbn [Zdigits2 digits2_pos Pos.succ].
  set (e' := Z.min (fexp (Zpos (digits2_pos mx) + ex - (53 + -52))) (ex - -52)).
  assert (He' : e' <= ex) by (unfold e', fexp, emin in *; lia).
  set (s' := ex - -52 - e').
  assert (Hs' : s' = 52 + (ex - e')) by (unfold s'; lia).
  assert (Hm' : match s' with
                | Z.pos _ => Z.shiftl (Zpos mx) s'
                | 0 => Zpos mx
                | Z.neg _ => 0
                end = Zpos mx * 2 ^ (ex - e') * 4503599627370496).
  { clearbody s'. destruct s' as [ | p | p]; try lia.
    rewrite Z.shiftl_mul_pow2 by lia. rewrite Hs', Z.pow_add_r by lia.
    change (2 ^ 52) with 4503599627370496. ring. }
  rewrite Hm'.
  pose proof (Z_div_mod (Zpos mx * 2 ^ (ex - e') * 4503599627370496)
                4503599627370496 ltac:(lia)) as Hdm.
  destruct (Z.div_eucl _ _) as [q r]. destruct Hdm as [Hq Hr].
  assert (Hq' : q = Zpos mx * 2 ^ (ex - e') /\ r = 0).
  { pose proof (pow2_pos (ex - e') ltac:(lia)). nia. }
  destruct Hq' as [-> ->].
  change (new_location 4503599627370496 0) with loc_Exact.
  replace e' with (ex - (ex - e')) at 2 by lia.
  apply binary_round_aux_exact; [assumption | lia].
Qed.

(** A multiple of [2 ^ w] below [2 ^ (53 + w)] is a multiple of its unit
    in the last place. *)
Lemma grid_exact mx ex w :
  emin <= ex -> 0 <= w ->
  let V := Zpos mx * 2 ^ (ex - emin) in
  V mod 2 ^ w = 0 -> V < 2 ^ (53 + w) ->
  V mod 2 ^ (fexp (Zpos (digits2_pos mx) + ex) - emin) = 0.
Proof.
  intros Hex Hw V Hmod Hlt.
  pose proof (fexp_emin (Zpos (digits2_pos mx) + ex)) as HE.
  set (E := fexp (Zpos (digits2_pos mx) + ex)) in *.
  assert (HV : 0 < V) by (apply ulps_pos; assumption).
  assert (Hd : Zdigits2 V <= 53 + w).
  { destruct (Zdigits2_bounds V HV) as [Hl _].
    destruct (Z_le_gt_dec (Zdigits2 V) (53 + w)) as [ | Hgt]; [assumption | ].
    assert (2 ^ (53 + w) <= 2 ^ (Zdigits2 V - 1)) by (apply Z.pow_le_mono_r; lia).
    lia. }
  unfold V in Hd. rewrite Zdigits2_shift in Hd by lia. cbn [Zdigits2] in Hd.
  assert (HEw : E - emin <= w) by (unfold E, fexp, emin in *; lia).
  apply Z.mod_divide; [apply Z.neq_sym, Z.lt_neq, pow2_pos; lia | ].
  apply Z.divide_trans with (2 ^ w).
  - exists (2 ^ (w - (E - emin))). rewrite <- Z.pow_add_r by lia. f_equal. lia.
  - apply Z.mod_divide; [apply Z.neq_sym, Z.lt_neq, pow2_pos; lia | assumption].
Qed.

(** Subtraction is exact on a grid: when both floats are multiples of
    [2 ^ w] units and lie below [2 ^ (53 + w)] units, nothing is rounded. *)
Lemma fsub_exact x y w :
  valid x -> valid y -> is_finite x = true -> is_finite y = true ->
  0 <= ulps y -> ulps y < ulps x -> 0 <= w ->
  ulps x mod 2 ^ w = 0 -> ulps y mod 2 ^ w = 0 -> ulps x < 2 ^ (53 + w) ->
  ulps (fsub x y) = ulps x - ulps y.
Proof.
  intros Vx Vy Fx Fy Hy Hlt Hw Gx Gy Hx.
  destruct (ulps_finite_pos x ltac:(lia)) as (mx & ex & ->).
  destruct (ulps_nonneg_cases y Vy Fy Hy) as [[sy ->] | (my & ey & -> & Hypos)].
  { rewrite fsub_zero_r by discriminate. cbn [ulps]. lia. }
  pose proof Vx as Bx. pose proof Vy as By.
  unfold valid in Bx, By. cbn [valid_binary] in Bx, By.
  destruct (bounded_inv _ _ Bx) as [Hcx Hex].
  destruct (bounded_inv _ _ By) as [Hcy Hey].
  assert (Hminx : emin <= ex) by (unfold fexp, emin in *; lia).
  assert (Hminy : emin <= ey) by (unfold fexp, emin in *; lia).
  cbn [ulps cond_Zopp] in Hlt, Hypos, Gx, Gy, Hx |- *.
  set (X := Zpos mx * 2 ^ (ex - emin)) in *.
  set (Y := Zpos my * 2 ^ (ey - emin)) in *.
  unfold fsub, SFsub. cbn [cond_Zopp].
  set (ez := Z.min ex ey).
  destruct (shl_align_spec mx ex ez ltac:(lia)) as [-> _].
  destruct (shl_align_spec my ey ez ltac:(lia)) as [-> _].
  pose proof (pow2_pos (ez - emin) ltac:(lia)) as Hpz.
  assert (HX : X = Zpos mx * 2 ^ (ex - ez) * 2 ^ (ez - emin)).
  { unfold X. rewrite <- Z.mul_assoc, <- Z.pow_add_r by lia. do 2 f_equal. lia. }
  assert (HY : Y = Zpos my * 2 ^ (ey - ez) * 2 ^ (ez - emin)).
  { unfold Y. rewrite <- Z.mul_assoc, <- Z.pow_add_r by lia. do 2 f_equal. lia. }
  set (M := Zpos mx * 2 ^ (ex - ez) - Zpos my * 2 ^ (ey - ez)).
  assert (HM : M * 2 ^ (ez - emin) = X - Y) by (unfold M; lia).
  assert (HMpos : 0 < M) by nia.
  destruct M as [ | pM | pM] eqn:HeqM; try lia. cbn [binary_normalize].
  assert (Hgrid : (X - Y) mod 2 ^ w = 0).
  { pose proof (pow2_pos w Hw).
    rewrite Zminus_mod, Gx, Gy. reflexivity. }
  pose proof (grid_exact pM ez w ltac:(lia) Hw) as Hg. cbn zeta in Hg.
  rewrite HM in Hg. specialize (Hg Hgrid ltac:(lia)).
  destruct (binary_round_spec false pM ez ltac:(lia))
    as (p & e' & Hcan & _ & Hexact & Hres).
  rewrite HM in Hexact. specialize (Hexact Hg).
  destruct (binary_round_le false pM ez mx ex ltac:(lia) Bx)
    as (p' & e'' & Hres' & _ & _); [fold X; lia | ].
  rewrite Hres' in Hres |- *.
  destruct (e' <=? emax - prec); [ | discriminate].
  injection Hres as -> ->. cbn [ulps cond_Zopp]. exact Hexact.
Qed.

(** * The program: the two branches of [amortize_for_period] *)

Lemma amortize_noop self d :
  fle (book_value self) zero = true ->
  amortize_for_period self d = (self, [FullyAmortized d (name self)]).
Proof. intros H. unfold amortize_for_period. rewrite H. reflexivity. Qed.

Lemma amortize_active self d :
  fle (book_value self) zero = false ->
  let a := Py.min (book_value self) (monthly_amortization_amount self) in
  let b := fsub (book_value self) a in
  fst (amortize_for_period self d)
  = append_history (set_book_value self b) (mk_transaction d a b).
Proof. intros H. unfold amortize_for_period. rewrite H. reflexivity. Qed.

Lemma amortize_all_app self ds1 ds2 :
  amortize_all self (ds1 ++ ds2) = amortize_all (amortize_all self ds1) ds2.
Proof.
  revert self. induction ds1 as [ | d ds1 IH]; intros self; cbn; auto.
Qed.

Lemma amortize_all_noop self ds :
  fle (book_value self) zero = true -> amortize_all self ds = self.
Proof.
  intros H. induction ds as [ | d ds IH]; cbn; [reflexivity | ].
  rewrite (amortize_noop self d H). exact IH.
Qed.

(** The fields a call never touches. *)
Lemma amortize_frame self d :
  let self' := fst (amortize_for_period self d) in
  name self' = name self /\
  total_cost self' = total_cost self /\
  amortization_period_months self' = amortization_period_months self /\
  start_date self' = start_date self /\
  monthly_amortization_amount self' = monthly_amortization_amount self.
Proof.
  unfold amortize_for_period.
  destruct (fle (book_value self) zero); cbn; auto.
Qed.

Lemma amortize_all_frame self ds :
  let self' := amortize_all self ds in
  total_cost self' = total_cost self /\
  monthly_amortization_amount self' = monthly_amortization_amount self.
Proof.
  revert self. induction ds as [ | d ds IH]; intros self; cbn; [auto | ].
  destruct (IH (fst (amortize_for_period self d))) as [-> ->].
  destruct (amortize_frame self d) as (_ & -> & _ & _ & ->). auto.
Qed.

(** What the constructor builds, when it succeeds. *)
Lemma init_inv nm total n sd self out :
  init nm total n sd = Ok (self, out) ->
  0 < n /\
  exists y, Py.float_of_int n = Ok y /\ feq y zero = false /\
    self = mk_expense nm total n sd total (Py.round2 (fdiv total y)) [].
Proof.
  unfold init. destruct (n <=? 0) eqn:Hn; [discriminate | ].
  apply Z.leb_gt in Hn. unfold Py.truediv, bind.
  destruct (Py.float_of_int n) as [y | e]; [ | discriminate].
  destruct (feq y zero) eqn:Hy; [discriminate | ].
  intros H. injection H as <- _. split; [assumption | ]. eauto.
Qed.

Lemma of_Z_shape n :
  0 < n ->
  (exists p e, of_Z n = S754_finite false p e) \/ of_Z n = S754_infinity false.
Proof.
  intros Hn. destruct n as [ | pn | pn]; try lia.
  unfold of_Z. cbn [binary_normalize].
  destruct (binary_round_spec false pn 0 ltac:(unfold emin; lia))
    as (p & e & _ & _ & _ & ->).
  destruct (e <=? emax - prec); eauto.
Qed.

Lemma float_of_int_pos n y :
  0 < n -> Py.float_of_int n = Ok y -> exists p e, y = S754_finite false p e.
Proof.
  intros Hn. unfold Py.float_of_int.
  destruct (of_Z_shape n Hn) as [(p & e & ->) | ->]; [ | discriminate].
  intros H. injection H as <-. eauto.
Qed.

Lemma amount_zero : amount zero.
Proof. repeat split. cbn. lia. Qed.

Lemma fle_zero_ulps x :
  valid x -> is_finite x = true -> fle zero x = true -> 0 <= ulps x.
Proof.
  intros V F H. rewrite fle_ulps in H by (auto; reflexivity).
  apply Z.leb_le in H. exact H.
Qed.

Lemma ulps_fle_zero x :
  valid x -> is_finite x = true -> 0 <= ulps x -> fle zero x = true.
Proof.
  intros V F H. rewrite fle_ulps by (auto; reflexivity).
  apply Z.leb_le. exact H.
Qed.

Lemma amount_not_negative x : amount x -> not_negative x.
Proof.
  intros (V & F & H). unfold not_negative.
  rewrite flt_ulps by (auto; reflexivity). apply Z.ltb_ge. exact H.
Qed.

Lemma init_sound nm total n sd self out :
  amount total -> init nm total n sd = Ok (self, out) -> sound self.
Proof.
  intros Ht Hi. apply init_inv in Hi as (Hn & y & Hy & _ & ->).
  destruct (float_of_int_pos n y Hn Hy) as (p & e & ->).
  split; [exact Ht | ]. cbn [monthly_amortization_amount]. split.
  - apply round2_valid, fdiv_valid.
  - apply round2_not_negative, fdiv_not_negative.
    + apply Ht.
    + apply amount_not_negative, Ht.
Qed.

(** A monthly amount that is below the book value is an amount. *)
Lemma monthly_below_amount m b :
  valid m -> not_negative m -> amount b -> flt m b = true ->
  amount m /\ ulps m < ulps b.
Proof.
  intros Vm Nm (Vb & Fb & Hb) Hlt.
  assert (Fm : is_finite m = true).
  { destruct m as [s | [ | ] | | s p e]; try reflexivity; try discriminate.
    destruct b as [sb | sb | | sb pb eb]; discriminate. }
  assert (Hm : 0 <= ulps m).
  { unfold not_negative in Nm. rewrite flt_ulps in Nm by (auto; reflexivity).
    apply Z.ltb_ge in Nm. exact Nm. }
  rewrite flt_ulps in Hlt by assumption. apply Z.ltb_lt in Hlt.
  repeat split; assumption.
Qed.

(** One call: the book value stays an amount and does not grow. *)
Lemma amortize_sound self d :
  sound self ->
  let self' := fst (amortize_for_period self d) in
  sound self' /\ ulps (book_value self') <= ulps (book_value self).
Proof.
  intros (Hb & Vm & Nm). cbn zeta.
  destruct (fle (book_value self) zero) eqn:Hz.
  - rewrite amortize_noop by assumption. cbn [fst].
    split; [repeat split; try apply Hb; assumption | lia].
  - rewrite amortize_active by assumption.
    unfold sound. cbn [append_history set_book_value book_value
                         monthly_amortization_amount].
    unfold Py.min.
    destruct (flt (monthly_amortization_amount self) (book_value self)) eqn:Hlt.
    + destruct (monthly_below_amount _ _ Vm Nm Hb Hlt) as ((Vm' & Fm & Hm) & Hlt').
      destruct Hb as (Vb & Fb & Hb).
      destruct (fsub_lt_bounds _ _ Vb Vm' Fb Fm Hm Hlt') as (V & F & [H0 H1] & _).
      repeat split; try assumption; lia.
    + rewrite fsub_self by apply Hb.
      split; [split; [apply amount_zero | split; assumption] | ].
      cbn. apply Hb.
Qed.

Lemma amortize_all_sound self ds :
  sound self ->
  let self' := amortize_all self ds in
  sound self' /\ ulps (book_value self') <= ulps (book_value self).
Proof.
  revert self. induction ds as [ | d ds IH]; intros self Hs; cbn.
  - split; [assumption | lia].
  - destruct (amortize_sound self d Hs) as [Hs' Hle].
    destruct (IH _ Hs') as [Hs'' Hle']. split; [assumption | lia].
Qed.

(** * The model against known values of Python *)

(** [round(2.675, 2) == 2.67], [round(0.125, 2) == 0.12],
    [round(0.375, 2) == 0.38] and [round(1.005, 2) == 1.0]. *)
Example round2_known_values :
  Py.round2 (fdiv (of_Z 2675) (of_Z 1000)) = dec2 267 /\
  Py.round2 (fdiv (of_Z 125) (of_Z 1000)) = dec2 12 /\
  Py.round2 (fdiv (of_Z 375) (of_Z 1000)) = dec2 38 /\
  Py.round2 (fdiv (of_Z 1005) (of_Z 1000)) = of_Z 1.
Proof. repeat split; vm_compute; reflexivity. Qed.

(** The literals [33.33], [0.1] and [120000.0], with their mantissas and
    exponents: 0x1.0aa3d70a3d70ap+5, 0x1.999999999999ap-4 and
    0x1.d4cp+16. *)
Example dec2_known_values :
  dec2 3333 = S754_finite false 0x10aa3d70a3d70a (-47) /\
  dec2 10 = S754_finite false 0x1999999999999a (-56) /\
  dec2 12000000 = S754_finite false 0x1d4c0000000000 (-36).
Proof. repeat split; vm_compute; reflexivity. Qed.

(** [0.1 + 0.2 != 0.3] and [100.0 / 3 == 33.333333333333336]. *)
Example float_known_values :
  feq (fadd (dec2 10) (dec2 20)) (dec2 30) = false /\
  fdiv (of_Z 100) (of_Z 3) = S754_finite false 4691249611844267 (-47).
Proof. split; vm_compute; reflexivity. Qed.

(** The simulation of [main]: 120000.00 over 60 months, run for 62. *)
Example main_simulation :
  exists self out,
    init "Office Renovation" (dec2 12000000) 60 new_year = Ok (self, out) /\
    monthly_amortization_amount self = dec2 200000 /\
    let self' := amortize_all self (months_from 0 62) in
    book_value self' = zero /\
    amounts (amortization_history self') = repeat (dec2 200000) 60 /\
    Py.sum (amounts (amortization_history self')) = dec2 12000000.
Proof.
  eexists; eexists. split; [vm_compute; reflexivity | ].
  repeat split; vm_compute; reflexivity.
Qed.

(** * More facts on the program *)

Lemma SFcompare_antisym x y :
  SFcompare y x = option_map CompOpp (SFcompare x y).
Proof.
  destruct x as [sx | sx | | sx mx ex], y as [sy | sy | | sy my ey];
    try reflexivity;
    try (destruct sx; reflexivity); try (destruct sy; reflexivity);
    try (destruct sx, sy; reflexivity).
  cbn [SFcompare option_map]. f_equal.
  rewrite (Z.compare_antisym ex ey).
  destruct sx, sy; try reflexivity; destruct (ex ?= ey); cbn [CompOpp];
    try reflexivity;
    rewrite (Pos.compare_cont_antisym mx my Eq); reflexivity.
Qed.

Lemma fle_not_flt x y : fle x y = true -> flt y x = false.
Proof.
  unfold fle, flt, SFleb, SFltb. rewrite (SFcompare_antisym x y).
  destruct (SFcompare x y) as [[ | | ] | ]; cbn; congruence.
Qed.

Lemma flt_not_fle x y : flt x y = true -> fle y x = false.
Proof.
  unfold fle, flt, SFleb, SFltb. rewrite (SFcompare_antisym x y).
  destruct (SFcompare x y) as [[ | | ] | ]; cbn; congruence.
Qed.

(** A float equal to zero is a zero. *)
Lemma feq_zero_inv x : feq x zero = true -> exists s, x = S754_zero s.
Proof.
  destruct x as [s | [ | ] | | [ | ] m e]; try discriminate. eauto.
Qed.

(** A float above zero is positive, finite or not. *)
Lemma flt_zero_inv x :
  flt zero x = true ->
  (exists m e, x = S754_finite false m e) \/ x = S754_infinity false.
Proof.
  destruct x as [s | [ | ] | | [ | ] m e]; try discriminate; eauto.
Qed.

(** The last period: a book value that does not exceed the monthly amount
    is amortized whole. *)
Lemma amortize_last_period self d :
  is_finite (book_value self) = true ->
  fle (book_value self) zero = false ->
  fle (book_value self) (monthly_amortization_amount self) = true ->
  fst (amortize_for_period self d)
  = append_history (set_book_value self zero)
      (mk_transaction d (book_value self) zero).
Proof.
  intros F Hz Hle. rewrite amortize_active by assumption.
  unfold Py.min. rewrite (fle_not_flt _ _ Hle), fsub_self by assumption.
  reflexivity.
Qed.

(** With a monthly amount of zero a positive book value never moves. *)
Lemma amortize_zero_amount self d :
  flt zero (book_value self) = true ->
  feq (monthly_amortization_amount self) zero = true ->
  fst (amortize_for_period self d)
  = append_history self
      (mk_transaction d (monthly_amortization_amount self) (book_value self)).
Proof.
  intros Hpos Hm. rewrite amortize_active by (apply flt_not_fle; assumption).
  destruct (feq_zero_inv _ Hm) as [s Hs].
  assert (Hmin : Py.min (book_value self) (monthly_amortization_amount self)
                 = monthly_amortization_amount self).
  { unfold Py.min. rewrite Hs.
    destruct (flt_zero_inv _ Hpos) as [(m & e & ->) | ->]; destruct s; reflexivity. }
  rewrite Hmin, Hs, fsub_zero_r.
  - destruct self; reflexivity.
  - destruct (flt_zero_inv _ Hpos) as [(m & e & ->) | ->]; discriminate.
  - destruct (flt_zero_inv _ Hpos) as [(m & e & ->) | ->]; discriminate.
Qed.

(** * Runs on a grid: no subtraction rounds *)

Lemma exact_sum_app xs x : exact_sum (xs ++ [x]) = exact_sum xs + ulps x.
Proof.
  unfold exact_sum. induction xs as [ | y ys IH]; cbn [app fold_right]; lia.
Qed.

Lemma amounts_app h t : amounts (h ++ [t]) = amounts h ++ [amortized_amount t].
Proof. unfold amounts. rewrite map_app. reflexivity. Qed.

Lemma amount_ulps_zero x : amount x -> ulps x = 0 -> exists s, x = S754_zero s.
Proof.
  intros (V & F & H) Hz.
  destruct (ulps_nonneg_cases x V F H) as [Hs | (m & e & _ & Hpos)]; [assumption | lia].
Qed.

(** One call on a grid: the asset stays on the grid, what leaves the book
    value is what the record shows, and the book value goes down by the
    monthly amount, or to zero. *)
Lemma amortize_grid w self d :
  0 <= w -> on_grid w self ->
  let self' := fst (amortize_for_period self d) in
  on_grid w self' /\
  exact_sum (amounts (amortization_history self')) + ulps (book_value self')
  = exact_sum (amounts (amortization_history self)) + ulps (book_value self) /\
  (0 < ulps (monthly_amortization_amount self) ->
   ulps (book_value self')
   = Z.max (ulps (book_value self) - ulps (monthly_amortization_amount self)) 0).
Proof.
  intros Hw (Hs & Gb & Bb & Gm). pose proof Hs as (Hb & Vm & Nm).
  pose proof (pow2_pos w Hw) as H2w. cbn zeta.
  destruct (fle (book_value self) zero) eqn:Hz.
  - rewrite amortize_noop by assumption. cbn [fst].
    split; [repeat split; try apply Hb; assumption | ]. split; [reflexivity | ].
    intros Hm. destruct Hb as (Vb & Fb & Hb).
    rewrite fle_ulps in Hz by (auto; reflexivity). apply Z.leb_le in Hz.
    cbn [ulps zero] in Hz. lia.
  - rewrite amortize_active by assumption.
    unfold on_grid, sound.
    cbn [append_history set_book_value book_value monthly_amortization_amount
           amortization_history].
    rewrite amounts_app, exact_sum_app. cbn [amortized_amount].
    unfold Py.min.
    destruct (flt (monthly_amortization_amount self) (book_value self)) eqn:Hlt.
    + destruct (monthly_below_amount _ _ Vm Nm Hb Hlt) as ((Vm' & Fm & Hm) & Hlt').
      destruct Hb as (Vb & Fb & Hb).
      destruct (fsub_lt_bounds _ _ Vb Vm' Fb Fm Hm Hlt') as (V & F & [H0 H1] & _).
      pose proof (fsub_exact _ _ w Vb Vm' Fb Fm Hm Hlt' Hw Gb Gm Bb) as Hex.
      repeat split; try assumption; try lia.
      rewrite Hex, Zminus_mod, Gb, Gm. reflexivity.
    + rewrite fsub_self by apply Hb. cbn [ulps zero].
      split; [ | split].
      * split; [split; [apply amount_zero | split; assumption] | ].
        split; [apply Z.mod_0_l; lia | ].
        split; [apply pow2_pos; lia | assumption].
      * lia.
      * intros Hm. destruct (ulps_finite_pos _ Hm) as (pm & em & Hmf).
        destruct Hb as (Vb & Fb & Hb).
        rewrite flt_ulps in Hlt by (try assumption; rewrite Hmf; reflexivity).
        apply Z.ltb_ge in Hlt. lia.
Qed.

Lemma amortize_all_grid w self ds :
  0 <= w -> on_grid w self ->
  let self' := amortize_all self ds in
  on_grid w self' /\
  exact_sum (amounts (amortization_history self')) + ulps (book_value self')
  = exact_sum (amounts (amortization_history self)) + ulps (book_value self) /\
  (0 < ulps (monthly_amortization_amount self) ->
   ulps (book_value self')
   = Z.max (ulps (book_value self)
            - Z.of_nat (List.length ds) * ulps (monthly_amortization_amount self)) 0).
Proof.
  intros Hw. revert self. induction ds as [ | d ds IH]; intros self Hg.
  - cbn [amortize_all List.length]. split; [assumption | ]. split; [reflexivity | ].
    intros _. destruct Hg as ((Hb & _) & _). destruct Hb as (_ & _ & Hb). lia.
  - cbn [amortize_all].
    destruct (amortize_grid w self d Hw Hg) as (Hg1 & Hsum1 & Hmax1).
    destruct (IH _ Hg1) as (Hg2 & Hsum2 & Hmax2).
    destruct (amortize_frame self d) as (_ & _ & _ & _ & Hm).
    split; [assumption | ]. split; [cbn zeta in *; lia | ].
    intros Hpos. cbn zeta in Hmax2. rewrite Hm in Hmax2.
    rewrite (Hmax2 Hpos), (Hmax1 Hpos).
    cbn [List.length]. rewrite Nat2Z.inj_succ.
    assert (0 <= Z.of_nat (List.length ds) * ulps (monthly_amortization_amount self))
      by (apply Z.mul_nonneg_nonneg; lia).
    lia.
Qed.

Lemma init_on_grid nm total n sd self out w :
  amount total -> init nm total n sd = Ok (self, out) ->
  ulps total mod 2 ^ w = 0 -> ulps total < 2 ^ (53 + w) ->
  ulps (monthly_amortization_amount self) mod 2 ^ w = 0 ->
  on_grid w self /\ book_value self = total /\ total_cost self = total /\
  amortization_history self = [].
Proof.
  intros Ht Hi Gt Bt Gm. pose proof (init_sound _ _ _ _ _ _ Ht Hi) as Hs.
  apply init_inv in Hi as (_ & y & _ & _ & ->).
  cbn [book_value total_cost amortization_history] in *.
  repeat split; try assumption; apply Hs.
Qed.

Lemma ceil_quotient_le t m k :
  0 < ulps m -> ceil_quotient t m <= k -> ulps t <= k * ulps m.
Proof.
  unfold ceil_quotient. intros Hm Hk.
  pose proof (Z.mul_div_le (- ulps t) (ulps m) Hm).
  assert (- (- ulps t / ulps m) * ulps m <= k * ulps m)
    by (apply Z.mul_le_mono_nonneg_r; lia).
  lia.
Qed.

(** The book value is the total cost with the amounts of the history taken
    from it one after the other, each difference rounded. *)
Lemma amortize_all_chain self ds :
  book_value self
  = fold_left fsub (amounts (amortization_history self)) (total_cost self) ->
  let self' := amortize_all self ds in
  book_value self'
  = fold_left fsub (amounts (amortization_history self')) (total_cost self').
Proof.
  revert self. induction ds as [ | d ds IH]; intros self H; [exact H | ].
  cbn [amortize_all]. apply IH.
  destruct (fle (book_value self) zero) eqn:Hz.
  - rewrite amortize_noop by assumption. exact H.
  - rewrite amortize_active by assumption.
    cbn [append_history set_book_value book_value amortization_history total_cost].
    rewrite amounts_app, fold_left_app, <- H. reflexivity.
Qed.

(** * [round(x, 2)] rounds to the nearest hundredth, ties to even *)

Lemma div_half_even_nearest n d :
  0 < d -> nearest_even (Py.div_half_even n d) n d.
Proof.
  intros Hd. unfold nearest_even, Py.div_half_even.
  pose proof (Z.div_mod n d ltac:(lia)) as Hdm.
  pose proof (Z.mod_pos_bound n d Hd) as Hr.
  set (q := n / d) in *. set (r := n mod d) in *.
  destruct (Z.compare_spec (2 * r) d) as [Heq | Hlt | Hgt].
  - destruct (Z.even q) eqn:He.
    + split; [lia | auto].
    + split; [lia | ]. intros _. rewrite Z.add_1_r, Z.even_succ.
      rewrite <- Z.negb_even, He. reflexivity.
  - split; lia.
  - split; lia.
Qed.

Lemma nearest_even_unique k k' n d :
  0 < d -> nearest_even k n d -> nearest_even k' n d -> k = k'.
Proof.
  intros Hd [H1 E1] [H2 E2].
  assert (Hk : k' = k \/ k' = k + 1 \/ k' = k - 1) by nia.
  destruct Hk as [-> | [-> | ->]]; [reflexivity | | ].
  - assert (T1 : 2 * Z.abs (n - k * d) = d) by nia.
    assert (T2 : 2 * Z.abs (n - (k + 1) * d) = d) by nia.
    specialize (E1 T1). specialize (E2 T2).
    rewrite Z.add_1_r, Z.even_succ, <- Z.negb_even, E1 in E2. discriminate.
  - assert (T1 : 2 * Z.abs (n - k * d) = d) by nia.
    assert (T2 : 2 * Z.abs (n - (k - 1) * d) = d) by nia.
    specialize (E1 T1). specialize (E2 T2).
    replace k with (Z.succ (k - 1)) in E1 by lia.
    rewrite Z.even_succ, <- Z.negb_even, E2 in E1. discriminate.
Qed.

Lemma round2_rounded2 x : rounded2 x (Py.round2 x).
Proof.
  destruct x as [s | s | | s m e]; try reflexivity.
  unfold rounded2, Py.round2. destruct (0 <=? e) eqn:He; [reflexivity | ].
  apply Z.leb_gt in He.
  exists (Py.div_half_even (100 * Zpos m) (2 ^ (- e))).
  split; [ | reflexivity]. apply div_half_even_nearest, pow2_pos. lia.
Qed.

(** The characterisation leaves no choice. *)
Lemma rounded2_unique x r r' : rounded2 x r -> rounded2 x r' -> r = r'.
Proof.
  destruct x as [s | s | | s m e]; cbn [rounded2]; try congruence.
  destruct (0 <=? e) eqn:He; [congruence | ]. apply Z.leb_gt in He.
  intros (k & Hk & ->) (k' & Hk' & ->). f_equal.
  apply (nearest_even_unique k k' (100 * Zpos m) (2 ^ (- e))); try assumption.
  apply pow2_pos. lia.
Qed.

(** * Runs in general: what rounding can add *)

Lemma spacing_nonneg x : 0 <= spacing x.
Proof. destruct x; cbn [spacing]; try lia; apply Z.pow_nonneg; lia. Qed.

(** A smaller amount has a smaller spacing. *)
Lemma spacing_le x y :
  amount x -> amount y -> ulps x <= ulps y -> spacing x <= spacing y.
Proof.
  intros (Vx & Fx & Hx) (Vy & Fy & Hy) Hle.
  destruct (ulps_nonneg_cases x Vx Fx Hx) as [[s ->] | (mx & ex & -> & Hpx)];
    [apply spacing_nonneg | ].
  destruct (ulps_nonneg_cases y Vy Fy Hy) as [[s ->] | (my & ey & -> & Hpy)];
    [cbn [ulps cond_Zopp] in *; lia | ].
  unfold valid in Vx, Vy. cbn [valid_binary] in Vx, Vy.
  unfold bounded in Vx, Vy.
  apply andb_true_iff in Vx as [Cx _]. apply andb_true_iff in Vy as [Cy _].
  pose proof (canonical_range _ _ Cx) as [Hminx _].
  cbn [spacing ulps cond_Zopp] in *.
  apply Z.pow_le_mono_r; [lia | ].
  destruct (Z_le_gt_dec ex ey) as [ | Hgt]; [lia | ].
  pose proof (canonical_lt_exp my ey mx ex Cy Cx ltac:(lia)). lia.
Qed.

Lemma fle_false_ulps x : amount x -> fle x zero = false -> 0 < ulps x.
Proof.
  intros (V & F & H) Hz. rewrite fle_ulps in Hz by (auto; reflexivity).
  apply Z.leb_gt in Hz. exact Hz.
Qed.

Lemma fle_true_ulps x : amount x -> fle x zero = true -> ulps x = 0.
Proof.
  intros (V & F & H) Hz. rewrite fle_ulps in Hz by (auto; reflexivity).
  apply Z.leb_le in Hz. cbn [ulps zero] in Hz. lia.
Qed.

(** One call adds a record and at most one spacing of the total cost to
    the drift. *)
Lemma amortize_drift self d :
  sound self -> amount (total_cost self) ->
  ulps (book_value self) <= ulps (total_cost self) ->
  Z.abs (drift self)
  <= Z.of_nat (List.length (amortization_history self)) * spacing (total_cost self) ->
  let self' := fst (amortize_for_period self d) in
  Z.abs (drift self')
  <= Z.of_nat (List.length (amortization_history self')) * spacing (total_cost self').
Proof.
  intros (Hb & Vm & Nm) Ht Hle Hd. cbn zeta.
  pose proof (spacing_nonneg (total_cost self)) as Hsp.
  destruct (fle (book_value self) zero) eqn:Hz.
  - rewrite amortize_noop by assumption. exact Hd.
  - rewrite amortize_active by assumption. unfold drift in *.
    cbn [append_history set_book_value book_value total_cost amortization_history].
    rewrite amounts_app, exact_sum_app, length_app. cbn [amortized_amount List.length].
    rewrite Nat2Z.inj_add. change (Z.of_nat 1) with 1.
    unfold Py.min.
    destruct (flt (monthly_amortization_amount self) (book_value self)) eqn:Hlt.
    + destruct (monthly_below_amount _ _ Vm Nm Hb Hlt) as ((Vm' & Fm & Hm) & Hlt').
      pose proof (spacing_le _ _ Hb Ht Hle) as Hs.
      destruct Hb as (Vb & Fb & Hb).
      destruct (fsub_lt_bounds _ _ Vb Vm' Fb Fm Hm Hlt') as (_ & _ & _ & Herr).
      lia.
    + rewrite fsub_self by apply Hb. cbn [ulps zero]. lia.
Qed.

(** One call keeps an asset on schedule. *)
Lemma amortize_schedule k self d :
  sound self -> on_schedule k self ->
  on_schedule (S k) (fst (amortize_for_period self d)).
Proof.
  intros (Hb & Vm & Nm) Hk.
  destruct (fle (book_value self) zero) eqn:Hz.
  - rewrite amortize_noop by assumption. left. apply fle_true_ulps; assumption.
  - pose proof (fle_false_ulps _ Hb Hz) as Hpos.
    destruct Hk as [Hk | [Hlen Hsum]]; [lia | ].
    rewrite amortize_active by assumption. unfold on_schedule.
    cbn [append_history set_book_value book_value amortization_history
           monthly_amortization_amount].
    rewrite amounts_app, exact_sum_app, length_app. cbn [amortized_amount List.length].
    unfold Py.min.
    destruct (flt (monthly_amortization_amount self) (book_value self)) eqn:Hlt.
    + right. split; [lia | ]. rewrite Hsum, Nat2Z.inj_succ. lia.
    + left. rewrite fsub_self by apply Hb. reflexivity.
Qed.

Lemma amortize_all_drift self ds k :
  sound self -> amount (total_cost self) ->
  ulps (book_value self) <= ulps (total_cost self) ->
  Z.abs (drift self)
  <= Z.of_nat (List.length (amortization_history self)) * spacing (total_cost self) ->
  on_schedule k self ->
  let self' := amortize_all self ds in
  Z.abs (drift self')
  <= Z.of_nat (List.length (amortization_history self')) * spacing (total_cost self') /\
  on_schedule (k + List.length ds) self'.
Proof.
  revert self k. induction ds as [ | d ds IH]; intros self k Hs Ht Hle Hd Hk.
  - cbn [amortize_all List.length]. rewrite Nat.add_0_r. auto.
  - cbn [amortize_all List.length].
    destruct (amortize_sound self d Hs) as [Hs' Hle'].
    destruct (amortize_frame self d) as (_ & Htc & _ & _ & _).
    replace (k + S (List.length ds))%nat with (S k + List.length ds)%nat by lia.
    apply IH.
    + exact Hs'.
    + rewrite Htc. exact Ht.
    + rewrite Htc. cbn zeta in Hle'. lia.
    + apply amortize_drift; assumption.
    + apply amortize_schedule; assumption.
Qed.

(** The run from the constructor on: the drift is at most one spacing of
    the total cost for each record, and the asset is on schedule. *)
Lemma init_drift nm total n sd self out ds :
  amount total -> init nm total n sd = Ok (self, out) ->
  let self' := amortize_all self ds in
  sound self' /\
  total_cost self' = total /\
  monthly_amortization_amount self' = monthly_amortization_amount self /\
  Z.abs (drift self')
  <= Z.of_nat (List.length (amortization_history self')) * spacing total /\
  on_schedule (List.length ds) self'.
Proof.
  intros Ht Hi. cbn zeta.
  pose proof (init_sound _ _ _ _ _ _ Ht Hi) as Hs.
  assert (H0 : book_value self = total /\ total_cost self = total /\
               amortization_history self = [])
    by (apply init_inv in Hi as (_ & y & _ & _ & ->); auto).
  destruct H0 as (Hb & Htc & Hh).
  destruct (amortize_all_frame self ds) as [Htc' Hm'].
  destruct (amortize_all_sound self ds Hs) as [Hs' _].
  destruct (amortize_all_drift self ds 0) as [Hd Hk]; try assumption.
  - rewrite Htc. exact Ht.
  - rewrite Hb, Htc. lia.
  - unfold drift. rewrite Hh, Hb, Htc. cbn. lia.
  - right. rewrite Hh. split; reflexivity.
  - cbn zeta in *. rewrite Htc', Htc in Hd.
    repeat split; try assumption; try apply Hs'. congruence.
Qed.

(** * Floats: rounding to nearest *)

Lemma shr_1_r mrs : 0 <= shr_m mrs -> shr_r (shr_1 mrs) = Z.odd (shr_m mrs).
Proof.
  destruct mrs as [m r s]. cbn [shr_m]. intros Hm.
  destruct m as [ | [p | p | ] | p]; try reflexivity; lia.
Qed.

Lemma shr_1_s mrs :
  0 <= shr_m mrs -> shr_s (shr_1 mrs) = shr_r mrs || shr_s mrs.
Proof.
  destruct mrs as [m r s]. cbn [shr_m]. intros Hm.
  destruct m as [ | [p | p | ] | p]; try reflexivity; lia.
Qed.

Lemma follows_inv mrs a b :
  follows mrs a b ->
  let mb := shr_m mrs * b in
  mb <= a < mb + b /\
  (if shr_r mrs then 2 * mb + b <= 2 * a else 2 * a < 2 * mb + b) /\
  (if shr_s mrs then 2 * a <> 2 * mb + Z.b2z (shr_r mrs) * b
   else 2 * a = 2 * mb + Z.b2z (shr_r mrs) * b).
Proof.
  intros (Hv & Hr & Hs). cbn zeta in *.
  replace ((shr_m mrs + 1) * b) with (shr_m mrs * b + b) in Hv by ring.
  replace ((2 * shr_m mrs + 1) * b) with (2 * (shr_m mrs * b) + b) in Hr by ring.
  replace ((2 * shr_m mrs + Z.b2z (shr_r mrs)) * b)
    with (2 * (shr_m mrs * b) + Z.b2z (shr_r mrs) * b) in Hs by ring.
  split; [exact Hv | ]. split.
  - destruct (shr_r mrs).
    + apply Hr. reflexivity.
    + destruct (Z_lt_le_dec (2 * a) (2 * (shr_m mrs * b) + b)) as [ | H];
        [assumption | ].
      apply Hr in H. discriminate.
  - destruct (shr_s mrs).
    + intros H. apply Hs in H. discriminate.
    + apply Hs. reflexivity.
Qed.

Lemma follows_intro mrs a b :
  let mb := shr_m mrs * b in
  mb <= a < mb + b ->
  (if shr_r mrs then 2 * mb + b <= 2 * a else 2 * a < 2 * mb + b) ->
  (if shr_s mrs then 2 * a <> 2 * mb + Z.b2z (shr_r mrs) * b
   else 2 * a = 2 * mb + Z.b2z (shr_r mrs) * b) ->
  follows mrs a b.
Proof.
  cbn zeta. intros Hv Hr Hs. unfold follows. cbn zeta.
  replace ((shr_m mrs + 1) * b) with (shr_m mrs * b + b) by ring.
  replace ((2 * shr_m mrs + 1) * b) with (2 * (shr_m mrs * b) + b) by ring.
  replace ((2 * shr_m mrs + Z.b2z (shr_r mrs)) * b)
    with (2 * (shr_m mrs * b) + Z.b2z (shr_r mrs) * b) by ring.
  split; [exact Hv | ]. split.
  - destruct (shr_r mrs); split; intros H; try reflexivity; try discriminate; lia.
  - destruct (shr_s mrs); split; intros H; try reflexivity; try discriminate;
      [contradiction | exact Hs].
Qed.

Lemma follows_shr_1 mrs a b :
  0 <= shr_m mrs -> 0 < b -> follows mrs a b -> follows (shr_1 mrs) a (2 * b).
Proof.
  intros Hm Hb H. apply follows_inv in H. cbn zeta in H.
  destruct H as (Hv & Hr & Hs).
  apply follows_intro; cbn zeta;
    rewrite ?shr_1_m, ?shr_1_r, ?shr_1_s by assumption.
  all: pose proof (Z.div2_odd (shr_m mrs)) as Hm2; rewrite Z.div2_div in Hm2.
  all: set (m := shr_m mrs) in *; set (h := m / 2) in *.
  all: assert (Hmb : m * b = 2 * (h * b) + Z.b2z (Z.odd m) * b)
         by (rewrite Hm2 at 1; ring).
  all: replace (h * (2 * b)) with (2 * (h * b)) by ring.
  all: set (hb := h * b) in *; rewrite Hmb in Hv, Hr, Hs.
  all: destruct (Z.odd m), (shr_r mrs), (shr_s mrs);
         cbn [Z.b2z orb] in *; lia.
Qed.

Lemma follows_iter p : forall mrs a b,
  0 <= shr_m mrs -> 0 < b -> follows mrs a b ->
  follows (iter_pos shr_1 p mrs) a (b * 2 ^ Zpos p).
Proof.
  assert (Hnn : forall q mrs, 0 <= shr_m mrs -> 0 <= shr_m (iter_pos shr_1 q mrs)).
  { intros q mrs H. rewrite iter_shr_1_m by assumption.
    apply Z.div_pos; [assumption | apply pow2_pos; lia]. }
  assert (H1 : forall mrs, 0 <= shr_m mrs -> 0 <= shr_m (shr_1 mrs)).
  { intros mrs H. rewrite shr_1_m by assumption. apply Z.div_pos; lia. }
  induction p as [p IH | p IH | ]; intros mrs a b Hm Hb H; cbn [iter_pos].
  - pose proof (pow2_pos (Zpos p) ltac:(lia)) as Hp.
    replace (b * 2 ^ Zpos p~1) with (2 * b * 2 ^ Zpos p * 2 ^ Zpos p).
    + apply IH; [apply Hnn, H1, Hm | nia | ].
      apply IH; [apply H1, Hm | lia | ]. apply follows_shr_1; assumption.
    + replace (Zpos p~1) with (1 + Zpos p + Zpos p) by lia.
      rewrite !Z.pow_add_r by lia. rewrite Z.pow_1_r. ring.
  - pose proof (pow2_pos (Zpos p) ltac:(lia)) as Hp.
    replace (b * 2 ^ Zpos p~0) with (b * 2 ^ Zpos p * 2 ^ Zpos p).
    + apply IH; [apply Hnn, Hm | nia | ]. apply IH; assumption.
    + replace (Zpos p~0) with (Zpos p + Zpos p) by lia.
      rewrite !Z.pow_add_r by lia. ring.
  - rewrite Z.pow_1_r, Z.mul_comm. apply follows_shr_1; assumption.
Qed.

(** Rounding to nearest lands within one half of the number followed. *)
Lemma round_nearest_even_follows mrs a b :
  0 < b -> follows mrs a b ->
  let m2 := round_nearest_even (shr_m mrs) (loc_of_shr_record mrs) in
  (2 * m2 - 1) * b <= 2 * a <= (2 * m2 + 1) * b.
Proof.
  intros Hb H. apply follows_inv in H. cbn zeta in H.
  destruct H as (Hv & Hr & Hs). cbn zeta.
  destruct mrs as [m r s]. cbn [shr_m shr_r shr_s loc_of_shr_record] in *.
  set (mb := m * b) in *.
  destruct r, s; cbn [round_nearest_even Z.b2z] in *;
    try destruct (Z.even m);
    rewrite ?Z.mul_sub_distr_r, ?Z.mul_add_distr_r, <- ?Z.mul_assoc;
    fold mb; lia.
Qed.

Lemma follows_shr_fexp m e l a b :
  0 <= m -> 0 < b -> e <= fexp (Zdigits2 m + e) ->
  follows (shr_record_of_loc m l) a b ->
  follows (fst (shr_fexp prec emax m e l)) a
    (2 ^ (fexp (Zdigits2 m + e) - e) * b).
Proof.
  intros Hm Hb Hpre H. unfold shr_fexp. rewrite fexp_eq.
  set (E := fexp (Zdigits2 m + e)) in *. unfold shr.
  destruct (E - e) as [ | p | p] eqn:Hd; try lia; cbn [fst].
  - rewrite Z.pow_0_r, Z.mul_1_l. exact H.
  - rewrite Z.mul_comm. apply follows_iter; try assumption.
    rewrite shr_record_of_loc_m. exact Hm.
Qed.

(** What [binary_round_aux] returns is the float nearest to the number
    its mantissa and location stand for: the two differ by at most one
    half of the unit in the last place. *)
Lemma binary_round_aux_nearest s m e l a b :
  0 <= m -> 0 < b -> e <= fexp (Zdigits2 m + e) ->
  follows (shr_record_of_loc m l) a b ->
  let E := fexp (Zdigits2 m + e) in
  let kb := 2 ^ (E - e) * b in
  (binary_round_aux prec emax s m e l = S754_zero s /\ 2 * a <= kb /\
   E = emin) \/
  exists p e',
    canonical_mantissa prec emax p e' = true /\ E <= e' /\
    (2 * (Zpos p * 2 ^ (e' - E)) - 1) * kb <= 2 * a
      <= (2 * (Zpos p * 2 ^ (e' - E)) + 1) * kb /\
    binary_round_aux prec emax s m e l
    = if e' <=? emax - prec then S754_finite s p e' else S754_infinity s.
Proof.
  intros Hm Hb Hpre Hfol E kb.
  pose proof (Z.pow_pos_nonneg 2 (E - e) ltac:(lia) ltac:(lia)) as H2k.
  set (f := m / 2 ^ (E - e)).
  assert (Hf0 : 0 <= f) by (apply Z.div_pos; lia).
  pose proof (fexp_emin (Zdigits2 m + e)) as HEmin. fold E in HEmin.
  pose proof (follows_shr_fexp m e l a b Hm Hb Hpre Hfol) as Hfol'.
  fold E in Hfol'. fold kb in Hfol'.
  assert (Hkb : 0 < kb) by (unfold kb; nia).
  unfold binary_round_aux.
  destruct (shr_fexp prec emax m e l) as [mrs' e'] eqn:H1.
  cbn [fst] in Hfol'.
  assert (He' : e' = E /\ shr_m mrs' = f).
  { destruct (shr_fexp_spec m e l Hm) as [Hshift Hkeep].
    rewrite H1 in Hshift, Hkeep. cbn [fst snd] in *. fold E in Hshift, Hkeep.
    destruct (Z_lt_le_dec e E) as [Hlt | Hge].
    - apply Hshift; assumption.
    - destruct (Hkeep Hge) as [-> ->]. split; [lia | ].
      unfold f. replace (E - e) with 0 by lia. rewrite Z.pow_0_r, Z.div_1_r. reflexivity. }
  destruct He' as [-> Hmrs'].
  pose proof (round_nearest_even_follows mrs' a kb Hkb Hfol') as Hnear.
  cbn zeta in Hnear.
  set (m2 := round_nearest_even (shr_m mrs') (loc_of_shr_record mrs')) in *.
  assert (Hm2 : f <= m2 <= f + 1)
    by (unfold m2; rewrite <- Hmrs'; apply round_nearest_even_bounds).
  assert (Hdf : 0 < f -> Zdigits2 f = Zdigits2 m + e - E).
  { intros Hfpos. unfold f. rewrite Zdigits2_div; [lia | lia | ].
    destruct (Z_le_gt_dec (2 ^ (E - e)) m) as [ | Hsmall]; [assumption | ].
    unfold f in Hfpos. rewrite Z.div_small in Hfpos; lia. }
  assert (Hf53 : f < 2 ^ 53).
  { destruct (Z.eq_dec f 0) as [-> | Hnz]; [reflexivity | ].
    destruct (Zdigits2_bounds f ltac:(lia)) as [_ Hu].
    assert (2 ^ Zdigits2 f <= 2 ^ 53).
    { apply Z.pow_le_mono_r; [lia | ]. rewrite Hdf by lia.
      unfold E, fexp, emin. lia. }
    lia. }
  assert (HEe : f = 0 -> E = emin).
  { intros Hfz. destruct (Z.eq_dec m 0) as [Hm0 | Hm0].
    - unfold E. rewrite Hm0. cbn [Zdigits2].
      unfold E in Hpre. rewrite Hm0 in Hpre. cbn [Zdigits2] in Hpre.
      unfold fexp, emin in *. lia.
    - destruct (Zdigits2_bounds m ltac:(lia)) as [Hl _].
      assert (Hsmall : m < 2 ^ (E - e)).
      { destruct (Z_lt_le_dec m (2 ^ (E - e))) as [ | Hbig]; [assumption | ].
        assert (1 <= f) by (apply Z.div_le_lower_bound; lia). lia. }
      assert (Zdigits2 m - 1 < E - e).
      { apply (Z.pow_lt_mono_r_iff 2); lia. }
      unfold E, fexp, emin in *. lia. }
  destruct (Z.eq_dec m2 0) as [Hz | Hnz].
  - left. rewrite Hz in Hnear |- *. split; [ | split; [lia | apply HEe; lia]].
    destruct (shr_fexp_spec 0 E loc_Exact ltac:(lia)) as [_ Hkeep].
    destruct (shr_fexp prec emax 0 E loc_Exact) as [mrs'' e''].
    cbn [fst snd] in Hkeep.
    destruct Hkeep as [_ ->]; [cbn [Zdigits2]; unfold E, fexp, emin; lia | reflexivity].
  - right.
    assert (Hpre2 : E <= fexp (Zdigits2 m2 + E)).
    { destruct (Z.eq_dec f 0) as [Hfz | Hfnz].
      - assert (Hm21 : m2 = 1) by lia. rewrite Hm21. cbn [Zdigits2 digits2_pos].
        rewrite (HEe Hfz). reflexivity.
      - apply Z.le_trans with (fexp (Zdigits2 f + E)).
        + rewrite Hdf by lia. replace (Zdigits2 m + e - E + E) with (Zdigits2 m + e) by lia.
          fold E. lia.
        + apply fexp_le. pose proof (Zdigits2_le f m2 ltac:(lia)). lia. }
    destruct (renormalize m2 E ltac:(lia) HEmin Hpre2) as (p & Hp & Hval & Hge & Hcan).
    destruct (shr_fexp prec emax m2 E loc_Exact) as [mrs'' e''].
    cbn [fst snd] in *.
    exists p, e''. rewrite Hp, Hval.
    repeat split; try assumption; try lia.
Qed.

Lemma follows_exact m : follows (shr_record_of_loc m loc_Exact) m 1.
Proof.
  apply follows_intro; cbn [shr_record_of_loc shr_m shr_r shr_s Z.b2z]; lia.
Qed.

(** Rounding a positive number [V] of units of 2^-1074 gives the float
    nearest to it: twice the error is at most the unit in the last place
    [U] of [V]. *)
Lemma binary_round_nearest s mx ex :
  emin <= ex ->
  let E := fexp (Zpos (digits2_pos mx) + ex) in
  let U := 2 ^ (E - emin) in
  let V := Zpos mx * 2 ^ (ex - emin) in
  exists p e',
    canonical_mantissa prec emax p e' = true /\
    2 * Z.abs (Zpos p * 2 ^ (e' - emin) - V) <= U /\
    binary_round prec emax s mx ex
    = if e' <=? emax - prec then S754_finite s p e' else S754_infinity s.
Proof.
  intros Hex E U V.
  pose proof (fexp_emin (Zpos (digits2_pos mx) + ex)) as HE. fold E in HE.
  assert (HU : 0 < U) by (apply pow2_pos; lia).
  unfold binary_round. rewrite fexp_eq. fold E.
  destruct (shl_align mx ex E) as [mz ez] eqn:Hsh.
  assert (Hz : emin <= ez /\ ez <= E /\ fexp (Zdigits2 (Zpos mz) + ez) = E /\
               Zpos mz * 2 ^ (ez - emin) = V).
  { destruct (Z_lt_le_dec E ex) as [Hlt | Hge].
    - destruct (shl_align_spec mx ex E ltac:(lia)) as [Hm He].
      rewrite Hsh in Hm, He. cbn [fst snd] in Hm, He. subst ez.
      assert (Hd : Zdigits2 (Zpos mz) + E = Zpos (digits2_pos mx) + ex).
      { rewrite Hm, Zdigits2_shift by lia. cbn [Zdigits2]. lia. }
      rewrite Hd. fold E. repeat split; try lia.
      rewrite Hm. unfold V. rewrite <- Z.mul_assoc, <- Z.pow_add_r by lia.
      do 2 f_equal. lia.
    - rewrite shl_align_keep in Hsh by lia. injection Hsh as <- <-.
      cbn [Zdigits2]. fold E. repeat split; lia. }
  destruct Hz as (Hminz & HzE & HEz & HV).
  pose proof (pow2_pos (ez - emin) ltac:(lia)) as Hpz.
  pose proof (pow2_pos (E - ez) ltac:(lia)) as Hpk.
  assert (HUk : U = 2 ^ (E - ez) * 2 ^ (ez - emin)).
  { unfold U. rewrite <- Z.pow_add_r by lia. f_equal. lia. }
  destruct (binary_round_aux_nearest s (Zpos mz) ez loc_Exact (Zpos mz) 1
              ltac:(lia) ltac:(lia) ltac:(lia) (follows_exact _))
    as [(_ & Hzero & _) | (p & e' & Hcan & Hge & Hb & Hres)].
  - exfalso. rewrite HEz, Z.mul_1_r in Hzero.
    destruct (digits2_pos_bounds mz) as [Hl _].
    assert (Hle : 2 ^ Zpos (digits2_pos mz) <= 2 ^ (E - ez)).
    { replace (Zpos (digits2_pos mz)) with (1 + (Zpos (digits2_pos mz) - 1)) by lia.
      rewrite Z.pow_add_r by lia. lia. }
    apply Z.pow_le_mono_r_iff in Hle; [ | lia | lia].
    cbn [Zdigits2] in HEz. unfold fexp, emin in *. lia.
  - rewrite HEz, Z.mul_1_r in Hb. rewrite HEz in Hge.
    exists p, e'. split; [assumption | ]. split; [ | exact Hres].
    assert (Hv : Zpos p * 2 ^ (e' - emin) = Zpos p * 2 ^ (e' - E) * U).
    { unfold U. rewrite <- Z.mul_assoc, <- Z.pow_add_r by lia.
      do 2 f_equal. lia. }
    rewrite Hv, <- HV, HUk.
    set (P := Zpos p * 2 ^ (e' - E)) in *.
    set (K := 2 ^ (E - ez)) in *. set (W := 2 ^ (ez - emin)) in *.
    assert (H1 : (2 * P - 1) * K * W <= 2 * Zpos mz * W)
      by (apply Z.mul_le_mono_nonneg_r; lia).
    assert (H2 : 2 * Zpos mz * W <= (2 * P + 1) * K * W)
      by (apply Z.mul_le_mono_nonneg_r; lia).
    replace (P * (K * W)) with (P * K * W) by ring.
    set (PKW := P * K * W) in *. set (KW := K * W) in *.
    replace ((2 * P - 1) * K * W) with (2 * PKW - KW) in H1 by (unfold PKW, KW; ring).
    replace ((2 * P + 1) * K * W) with (2 * PKW + KW) in H2 by (unfold PKW, KW; ring).
    lia.
Qed.

(** The difference of two amounts is rounded to nearest: twice the error
    is at most the spacing of the larger one. *)
Lemma fsub_lt_nearest x y :
  valid x -> valid y -> is_finite x = true -> is_finite y = true ->
  0 <= ulps y -> ulps y < ulps x ->
  2 * Z.abs (ulps (fsub x y) - (ulps x - ulps y)) <= spacing x.
Proof.
  intros Vx Vy Fx Fy Hy Hlt.
  destruct (fsub_lt_bounds x y Vx Vy Fx Fy Hy Hlt) as (Vr & Fr & _ & _).
  revert Vr Fr.
  destruct (ulps_finite_pos x ltac:(lia)) as (mx & ex & ->).
  destruct (ulps_nonneg_cases y Vy Fy Hy) as [[sy ->] | (my & ey & -> & Hypos)].
  { intros _ _. cbn [ulps] in Hlt |- *. rewrite fsub_zero_r by discriminate.
    cbn [spacing ulps].
    pose proof (Z.pow_nonneg 2 (ex - emin) ltac:(lia)). lia. }
  pose proof Vx as Bx. pose proof Vy as By.
  unfold valid in Bx, By. cbn [valid_binary] in Bx, By.
  destruct (bounded_inv _ _ Bx) as [Hcx Hex].
  destruct (bounded_inv _ _ By) as [Hcy Hey].
  assert (Hminx : emin <= ex) by (unfold fexp, emin in *; lia).
  assert (Hminy : emin <= ey) by (unfold fexp, emin in *; lia).
  cbn [ulps cond_Zopp] in Hlt, Hypos |- *.
  set (X := Zpos mx * 2 ^ (ex - emin)) in *.
  set (Y := Zpos my * 2 ^ (ey - emin)) in *.
  unfold fsub, SFsub. cbn [cond_Zopp].
  set (ez := Z.min ex ey).
  destruct (shl_align_spec mx ex ez ltac:(lia)) as [-> _].
  destruct (shl_align_spec my ey ez ltac:(lia)) as [-> _].
  pose proof (pow2_pos (ez - emin) ltac:(lia)) as Hpz.
  assert (HX : X = Zpos mx * 2 ^ (ex - ez) * 2 ^ (ez - emin)).
  { unfold X. rewrite <- Z.mul_assoc, <- Z.pow_add_r by lia. do 2 f_equal. lia. }
  assert (HY : Y = Zpos my * 2 ^ (ey - ez) * 2 ^ (ez - emin)).
  { unfold Y. rewrite <- Z.mul_assoc, <- Z.pow_add_r by lia. do 2 f_equal. lia. }
  set (M := Zpos mx * 2 ^ (ex - ez) - Zpos my * 2 ^ (ey - ez)).
  assert (HM : M * 2 ^ (ez - emin) = X - Y) by (unfold M; lia).
  assert (HMpos : 0 < M) by nia.
  destruct M as [ | pM | pM] eqn:HeqM; try lia. cbn [binary_normalize].
  destruct (binary_round_nearest false pM ez ltac:(lia))
    as (p & e' & Hcan & Herr & ->).
  cbn zeta in Herr. rewrite HM in Herr.
  (* the unit in the last place of the difference is at most that of [x] *)
  assert (HEX : fexp (Zpos (digits2_pos pM) + ez) <= ex).
  { rewrite <- Hcx. apply fexp_le.
    assert (Hd : Zdigits2 (X - Y) <= Zdigits2 X) by (apply Zdigits2_le; lia).
    rewrite <- HM in Hd. unfold X in Hd. rewrite !Zdigits2_shift in Hd by lia.
    cbn [Zdigits2] in Hd. lia. }
  pose proof (fexp_emin (Zpos (digits2_pos pM) + ez)) as HEmin.
  assert (HU : 2 ^ (fexp (Zpos (digits2_pos pM) + ez) - emin) <= 2 ^ (ex - emin))
    by (apply Z.pow_le_mono_r; lia).
  destruct (e' <=? emax - prec); [ | discriminate].
  intros _ _. cbn [ulps cond_Zopp spacing]. lia.
Qed.

(** The location the division computes follows the quotient. *)
Lemma new_location_follows b r q a :
  0 < b -> a = q * b + r -> 0 <= r < b ->
  follows (shr_record_of_loc q (new_location b r)) a b.
Proof.
  intros Hb Ha Hr. unfold new_location.
  destruct (Z.even b) eqn:Hev.
  - unfold new_location_even. destruct (Z.eqb_spec r 0) as [-> | Hnz].
    + apply follows_intro; cbn [shr_record_of_loc shr_m shr_r shr_s Z.b2z]; lia.
    + destruct (Z.compare_spec (2 * r) b);
        apply follows_intro; cbn [shr_record_of_loc shr_m shr_r shr_s Z.b2z]; lia.
  - unfold new_location_odd. destruct (Z.eqb_spec r 0) as [-> | Hnz].
    + apply follows_intro; cbn [shr_record_of_loc shr_m shr_r shr_s Z.b2z]; lia.
    + assert (Hodd : 2 * r <> b).
      { intros E. rewrite <- E, Z.even_mul in Hev. discriminate. }
      destruct (Z.compare_spec (2 * r + 1) b);
        apply follows_intro; cbn [shr_record_of_loc shr_m shr_r shr_s Z.b2z]; lia.
Qed.

Lemma SFdiv_core_binary_follows m1 e1 m2 e2 :
  0 < m1 -> 0 < m2 ->
  let '(q, e', l) := SFdiv_core_binary prec emax m1 e1 m2 e2 in
  e' <= e1 - e2 /\
  follows (shr_record_of_loc q l) (m1 * 2 ^ (e1 - e2 - e')) m2.
Proof.
  intros H1 H2. unfold SFdiv_core_binary. rewrite fexp_eq.
  set (d1 := Zdigits2 m1). set (d2 := Zdigits2 m2).
  set (e' := Z.min (fexp (d1 + e1 - (d2 + e2))) (e1 - e2)).
  set (s := e1 - e2 - e').
  assert (Hs : 0 <= s) by (unfold s, e'; lia).
  set (m' := match s with Z.pos _ => Z.shiftl m1 s | 0 => m1 | Z.neg _ => 0 end).
  assert (Hm' : m' = m1 * 2 ^ s).
  { unfold m'. clearbody s. destruct s as [ | p | p]; try lia.
    apply Z.shiftl_mul_pow2. lia. }
  pose proof (Z_div_mod m' m2 ltac:(lia)) as Hdm.
  destruct (Z.div_eucl m' m2) as [q r]. destruct Hdm as [Hq Hr].
  split; [unfold e'; lia | ].
  fold s. rewrite <- Hm'. apply new_location_follows; lia.
Qed.

(** Two sides of an inequality may be rescaled. *)
Lemma le_rescale u v x y c d :
  0 < c -> 0 < d -> x * d = u * c -> y * d = v * c -> u <= v -> x <= y.
Proof. intros Hc Hd Hx Hy Huv. nia. Qed.

(** The quotient of two positive floats is the float nearest to the
    exact quotient: in units of 2^-1074, with [t] and [m] the values of
    the two floats, twice the distance from [q * m] to [t * 2^1074] is at
    most the spacing of [q] times [m]. *)
Lemma fdiv_nearest mx ex my ey :
  valid (S754_finite false mx ex) -> valid (S754_finite false my ey) ->
  let t := Zpos mx * 2 ^ (ex - emin) in
  let m := Zpos my * 2 ^ (ey - emin) in
  let q := fdiv (S754_finite false mx ex) (S754_finite false my ey) in
  (q = S754_zero false /\ 2 * (t * 2 ^ 1074) <= m) \/
  exists p e',
    canonical_mantissa prec emax p e' = true /\
    (q = if e' <=? emax - prec then S754_finite false p e'
         else S754_infinity false) /\
    2 * Z.abs (Zpos p * 2 ^ (e' - emin) * m - t * 2 ^ 1074)
    <= 2 ^ (e' - emin) * m.
Proof.
  intros Vx Vy t m q.
  unfold valid in Vx, Vy. cbn [valid_binary] in Vx, Vy.
  destruct (bounded_inv _ _ Vx) as [Hcx Hex].
  destruct (bounded_inv _ _ Vy) as [Hcy Hey].
  assert (Hminx : emin <= ex) by (unfold fexp, emin in *; lia).
  assert (Hminy : emin <= ey) by (unfold fexp, emin in *; lia).
  subst q. unfold fdiv, SFdiv. cbn [xorb].
  pose proof (SFdiv_core_binary_pre (Zpos mx) ex (Zpos my) ey ltac:(lia) ltac:(lia)) as Hp.
  pose proof (SFdiv_core_binary_follows (Zpos mx) ex (Zpos my) ey ltac:(lia) ltac:(lia)) as Hf.
  destruct (SFdiv_core_binary prec emax (Zpos mx) ex (Zpos my) ey) as [[mq e] l].
  destruct Hp as [Hq Hpre]. destruct Hf as [Hee Hfol].
  set (E := fexp (Zdigits2 mq + e)) in *.
  pose proof (fexp_emin (Zdigits2 mq + e)) as HEmin. fold E in HEmin.
  set (s := ex - ey - e) in *.
  (* the scaling between the units of the division and those of the values *)
  set (g := ey + e - 2 * emin).
  set (c := 2 ^ Z.max g 0). set (d := 2 ^ Z.max (- g) 0).
  assert (Hc : 0 < c) by (apply pow2_pos; lia).
  assert (Hd : 0 < d) by (apply pow2_pos; lia).
  assert (Hm0 : 0 < m) by (apply ulps_pos; assumption).
  assert (Ht0 : 0 < t) by (apply ulps_pos; assumption).
  assert (Hpw : forall i j k l : Z, 0 <= i -> 0 <= j -> 0 <= k -> 0 <= l ->
                 i + j = k + l -> 2 ^ i * 2 ^ j = 2 ^ k * 2 ^ l).
  { intros i j k l' Hi Hj Hk Hl Hij. rewrite <- !Z.pow_add_r by assumption.
    f_equal. exact Hij. }
  (* [t * 2^1074] against the numerator, [2^(E - emin) * m] against the unit *)
  assert (HT : t * 2 ^ 1074 * d = Zpos mx * 2 ^ s * c).
  { unfold t, d, c. rewrite <- !Z.mul_assoc. f_equal.
    rewrite <- Z.pow_add_r by (unfold emin; lia).
    apply Hpw; unfold s, g, emin in *; lia. }
  assert (HM : forall X, X * (2 ^ (E - emin) * m) * d
                         = X * (2 ^ (E - e) * Zpos my) * c).
  { intros X. unfold m, d, c.
    assert (H : 2 ^ (E - emin) * 2 ^ (ey - emin) * 2 ^ Z.max (- g) 0
                = 2 ^ (E - e) * 2 ^ Z.max g 0).
    { rewrite <- (Z.pow_add_r 2 (E - emin)) by lia.
      apply Hpw; unfold g, emin in *; lia. }
    replace (X * (2 ^ (E - emin) * (Zpos my * 2 ^ (ey - emin))) * 2 ^ Z.max (- g) 0)
      with (X * Zpos my * (2 ^ (E - emin) * 2 ^ (ey - emin) * 2 ^ Z.max (- g) 0))
      by ring.
    rewrite H. ring. }
  destruct (binary_round_aux_nearest false mq e l (Zpos mx * 2 ^ s) (Zpos my)
              Hq ltac:(lia) Hpre Hfol)
    as [(Hz & Hnear & HEe) | (p & e' & Hcan & Hge & [Hlo Hhi] & Hres)].
  - left. split; [exact Hz | ]. fold E in Hnear, HEe.
    pose proof (HM 1) as H1. rewrite HEe in H1 at 1.
    rewrite Z.sub_diag, Z.pow_0_r in H1.
    set (TW := t * 2 ^ 1074) in *. set (A := Zpos mx * 2 ^ s) in *.
    set (KB := 2 ^ (E - e) * Zpos my) in *.
    apply (le_rescale (2 * A) KB _ _ c d Hc Hd); [lia | lia | exact Hnear].
  - right. exists p, e'. fold E in Hge, Hlo, Hhi.
    split; [exact Hcan | ]. split; [exact Hres | ].
    set (P := Zpos p * 2 ^ (e' - E)) in *.
    assert (HQ : Zpos p * 2 ^ (e' - emin) = P * 2 ^ (E - emin)).
    { unfold P. rewrite <- Z.mul_assoc, <- Z.pow_add_r by lia. do 2 f_equal. lia. }
    assert (HUle : 2 ^ (E - emin) * m <= 2 ^ (e' - emin) * m).
    { apply Z.mul_le_mono_nonneg_r; [lia | ]. apply Z.pow_le_mono_r; lia. }
    rewrite HQ.
    pose proof (HM (2 * P - 1)) as HMlo. pose proof (HM (2 * P + 1)) as HMhi.
    set (u := 2 ^ (E - emin) * m) in *.
    set (TW := t * 2 ^ 1074) in *. set (A := Zpos mx * 2 ^ s) in *.
    set (KB := 2 ^ (E - e) * Zpos my) in *.
    assert (H1 : (2 * P - 1) * u <= 2 * TW).
    { apply (le_rescale ((2 * P - 1) * KB) (2 * A) _ _ c d Hc Hd);
        [exact HMlo | lia | exact Hlo]. }
    assert (H2 : 2 * TW <= (2 * P + 1) * u).
    { apply (le_rescale (2 * A) ((2 * P + 1) * KB) _ _ c d Hc Hd);
        [lia | exact HMhi | exact Hhi]. }
    replace (P * 2 ^ (E - emin) * m) with (P * u) by (unfold u; ring).
    set (Pu := P * u) in *.
    replace ((2 * P - 1) * u) with (2 * Pu - u) in H1 by (unfold Pu; ring).
    replace ((2 * P + 1) * u) with (2 * Pu + u) in H2 by (unfold Pu; ring).
    lia.
Qed.

(** [math.ceil] of a positive float is a positive integer that is not
    below the float. *)
Lemma ceil_not_below p e c :
  emin <= e -> Py.ceil (S754_finite false p e) = Ok c ->
  1 <= c /\ Zpos p * 2 ^ (e - emin) <= c * 2 ^ 1074.
Proof.
  intros He H.
  change (Py.ceil (S754_finite false p e))
    with (Ok (if 0 <=? e then Zpos p * 2 ^ e else - (- Zpos p / 2 ^ (- e))))
    in H.
  assert (Hc : (if 0 <=? e then Zpos p * 2 ^ e else - (- Zpos p / 2 ^ (- e))) = c)
    by congruence.
  clear H. subst c.
  destruct (0 <=? e) eqn:H0;
    [apply Z.leb_le in H0 | apply Z.leb_gt in H0].
  - pose proof (pow2_pos e H0).
    assert (1 * 1 <= Zpos p * 2 ^ e) by (apply Z.mul_le_mono_nonneg; lia).
    split; [lia | ].
    rewrite <- Z.mul_assoc, <- Z.pow_add_r by lia.
    replace (e + 1074) with (e - emin) by (unfold emin; lia). lia.
  - pose proof (pow2_pos (- e) ltac:(lia)) as Hk.
    pose proof (pow2_pos (e - emin) ltac:(lia)) as Hj.
    pose proof (Z.mul_div_le (- Zpos p) (2 ^ (- e)) Hk) as Hd.
    set (k := - (- Zpos p / 2 ^ (- e))) in *.
    assert (Hc : Zpos p <= k * 2 ^ (- e)) by (unfold k; lia).
    split; [destruct (Z_le_gt_dec 1 k); [assumption | nia] | ].
    replace (2 ^ 1074) with (2 ^ (- e) * 2 ^ (e - emin)).
    + rewrite Z.mul_assoc. apply Z.mul_le_mono_nonneg_r; lia.
    + rewrite <- Z.pow_add_r by lia. f_equal. unfold emin. lia.
Qed.

(** A float of the machine has at most 53 bits: its value is less than
    2^53 times its spacing, and at least 2^52 times unless its exponent
    is the smallest one. *)
Lemma valid_mantissa_bounds s p e :
  valid (S754_finite s p e) ->
  emin <= e <= 971 /\ Zpos p < 2 ^ 53 /\ (2 ^ 52 <= Zpos p \/ e = emin).
Proof.
  unfold valid. cbn [valid_binary]. intros B.
  destruct (bounded_inv _ _ B) as [Hc He].
  destruct (digits2_pos_bounds p) as [Hl Hu].
  assert (Hd : Zpos (digits2_pos p) <= 53) by (unfold fexp, emin in *; lia).
  assert (Hu' : 2 ^ Zpos (digits2_pos p) <= 2 ^ 53)
    by (apply Z.pow_le_mono_r; lia).
  split; [unfold fexp, emin in *; lia | ]. split; [lia | ].
  destruct (Z.eq_dec e emin) as [ | Hne]; [right; assumption | left].
  assert (Hd53 : Zpos (digits2_pos p) = 53) by (unfold fexp, emin in *; lia).
  rewrite Hd53 in Hl. exact Hl.
Qed.

(** When the float quotient of two amounts, rounded up to an integer
    [c], falls short of the exact quotient, it does so by less than one
    part in 2^53: [t - c * m] is below [t / 2^53]. *)
Lemma float_ceiling_close t m c :
  valid t -> valid m -> 0 < ulps t -> 0 < ulps m ->
  Py.ceil (fdiv t m) = Ok c -> 1 <= c ->
  c * ulps m < ulps t ->
  2 ^ 53 * (ulps t - c * ulps m) < ulps t.
Proof.
  intros Vt Vm Ht Hm Hc Hc1 Hshort.
  destruct (ulps_finite_pos t Ht) as (mt & et & ->).
  destruct (ulps_finite_pos m Hm) as (mm & em & ->).
  destruct (fdiv_nearest mt et mm em Vt Vm)
    as [[Hz _] | (p & e' & Hcan & Hq & Hnear)]; cbn zeta in *.
  { rewrite Hz in Hc. cbn [Py.ceil] in Hc. injection Hc as <-. lia. }
  pose proof (fdiv_valid (S754_finite false mt et) (S754_finite false mm em)) as Vq.
  rewrite Hq in Hc, Vq.
  destruct (e' <=? emax - prec); [ | discriminate].
  destruct (valid_mantissa_bounds _ _ _ Vq) as (He' & Hp53 & Hnorm).
  destruct (ceil_not_below p e' c ltac:(lia) Hc) as [_ Hceil].
  cbn [ulps cond_Zopp] in *.
  set (T := Zpos mt * 2 ^ (et - emin)) in *.
  set (M := Zpos mm * 2 ^ (em - emin)) in *.
  set (S := 2 ^ (e' - emin)) in *.
  assert (HS : 0 < S) by (apply pow2_pos; lia).
  set (W := 2 ^ 1074) in *.
  assert (HW : 0 < W) by (apply pow2_pos; lia).
  (* the spacing of the quotient is at most [c / 2^52] *)
  assert (H52 : 2 ^ 52 * S <= c * W).
  { destruct Hnorm as [Hn | He].
    - apply Z.le_trans with (2 := Hceil). fold S.
      apply Z.mul_le_mono_nonneg_r; lia.
    - unfold S. rewrite He, Z.sub_diag, Z.pow_0_r, Z.mul_1_r.
      assert (2 ^ 52 <= W) by (apply Z.pow_le_mono_r; lia). nia. }
  fold S in Hceil.
  set (Q := Zpos p * S) in *.
  (* [2 W (T - c M) <= S M], and [2^52 S M <= c W M < W T] *)
  assert (H1 : 2 * (T * W) <= 2 * (Q * M) + S * M) by lia.
  assert (H2 : Q * M <= c * W * M) by (apply Z.mul_le_mono_nonneg_r; lia).
  assert (H3 : 2 ^ 52 * S * M <= c * W * M) by (apply Z.mul_le_mono_nonneg_r; lia).
  assert (H4 : c * M * W < T * W) by (apply Z.mul_lt_mono_pos_r; lia).
  assert (H5 : 2 * W * (T - c * M) <= S * M) by lia.
  assert (H6 : 2 ^ 52 * (2 * W * (T - c * M)) <= 2 ^ 52 * (S * M))
    by (apply Z.mul_le_mono_nonneg_l; lia).
  assert (H7 : 2 ^ 53 * (T - c * M) * W < T * W).
  { change (2 ^ 53) with (2 ^ 52 * 2). lia. }
  apply Z.mul_lt_mono_pos_r in H7; assumption.
Qed.

(** Two floats of the machine are not that close: the larger is not
    within one part in 2^53 of the smaller. *)
Lemma floats_apart t m :
  valid t -> valid m -> 0 < ulps m -> ulps m < ulps t ->
  ulps t <= 2 ^ 53 * (ulps t - ulps m).
Proof.
  intros Vt Vm Hm Hlt.
  destruct (ulps_finite_pos t ltac:(lia)) as (mt & et & ->).
  destruct (ulps_finite_pos m Hm) as (mm & em & ->).
  destruct (valid_mantissa_bounds _ _ _ Vt) as (Het & _ & _).
  destruct (valid_mantissa_bounds _ _ _ Vm) as (Hem & Hm53 & _).
  cbn [ulps cond_Zopp] in *.
  assert (Hee : em <= et).
  { destruct (Z_le_gt_dec em et) as [ | Hgt]; [assumption | ].
    unfold valid in Vt, Vm. cbn [valid_binary] in Vt, Vm. unfold bounded in Vt, Vm.
    apply andb_true_iff in Vt as [Ct _]. apply andb_true_iff in Vm as [Cm _].
    pose proof (canonical_lt_exp mt et mm em Ct Cm ltac:(lia)). lia. }
  replace (et - emin) with ((et - em) + (em - emin)) in * by lia.
  rewrite Z.pow_add_r in * by lia.
  pose proof (pow2_pos (et - em) ltac:(lia)) as Hk.
  pose proof (pow2_pos (em - emin) ltac:(lia)) as HS.
  set (S := 2 ^ (em - emin)) in *. set (K := 2 ^ (et - em)) in *.
  rewrite Z.mul_assoc in *.
  set (a := Zpos mt * K) in *.
  assert (Ha : Zpos mm < a) by nia.
  assert (a <= 2 ^ 53 * (a - Zpos mm)) by lia.
  replace (a * S - Zpos mm * S) with ((a - Zpos mm) * S) by ring.
  rewrite Z.mul_assoc. apply Z.mul_le_mono_nonneg_r; lia.
Qed.

(** * The number of calls the total cost takes *)

(** A float that [round] takes to a positive float is at least 1/200. *)
Lemma round2_pos_not_tiny mx ex :
  valid (S754_finite false mx ex) ->
  0 < ulps (Py.round2 (S754_finite false mx ex)) ->
  2 ^ 1066 <= Zpos mx * 2 ^ (ex - emin).
Proof.
  intros V H.
  destruct (valid_mantissa_bounds _ _ _ V) as (He & _ & _).
  pose proof (pow2_pos (ex - emin) ltac:(lia)) as HS.
  unfold Py.round2 in H. destruct (Z.leb_spec 0 ex) as [H0 | H0].
  - assert (2 ^ 1066 <= 2 ^ (ex - emin))
      by (apply Z.pow_le_mono_r; unfold emin; lia).
    nia.
  - pose proof (pow2_pos (- ex) ltac:(lia)) as Hd.
    assert (Hk : 2 ^ (- ex) <= 2 * (100 * Zpos mx)).
    { destruct (Z_le_gt_dec (2 ^ (- ex)) (2 * (100 * Zpos mx))) as [ | Hsmall];
        [assumption | exfalso].
      unfold Py.div_half_even in H.
      rewrite Z.div_small, Z.mod_small in H by lia.
      replace (2 * (100 * Zpos mx) ?= 2 ^ (- ex)) with Lt in H
        by (symmetry; apply Z.compare_lt_iff; lia).
      cbn [Py.hundredths ulps] in H. lia. }
    assert (Hw : 2 ^ 1074 = 2 ^ (- ex) * 2 ^ (ex - emin)).
    { rewrite <- Z.pow_add_r by lia. f_equal. unfold emin. lia. }
    assert (H200 : 2 ^ 1074 <= 200 * (Zpos mx * 2 ^ (ex - emin))).
    { rewrite Hw. replace (200 * (Zpos mx * 2 ^ (ex - emin)))
        with (2 * (100 * Zpos mx) * 2 ^ (ex - emin)) by ring.
      apply Z.mul_le_mono_nonneg_r; lia. }
    change (2 ^ 1074) with (2 ^ 8 * 2 ^ 1066) in H200.
    set (X := Zpos mx * 2 ^ (ex - emin)) in *.
    set (C := 2 ^ 1066) in *.
    change (2 ^ 8) with 256 in H200. lia.
Qed.

(** [float(n)] of a positive int is a float of the machine, at least one
    half. *)
Lemma float_of_int_not_small n y :
  1 <= n -> Py.float_of_int n = Ok y ->
  exists p e, y = S754_finite false p e /\ valid y /\
    2 ^ 1073 <= Zpos p * 2 ^ (e - emin).
Proof.
  intros Hn. unfold Py.float_of_int, of_Z.
  destruct n as [ | pn | pn]; try lia. cbn [binary_normalize].
  destruct (binary_round_nearest false pn 0 ltac:(unfold emin; lia))
    as (p & e' & Hcan & Herr & ->).
  cbn zeta in Herr.
  destruct (e' <=? emax - prec) eqn:He; [ | discriminate].
  intros H. injection H as <-. exists p, e'.
  split; [reflexivity | ]. split.
  { unfold valid. cbn [valid_binary]. unfold bounded. rewrite Hcan, He. reflexivity. }
  destruct (digits2_pos_bounds pn) as [Hl _].
  set (dg := Zpos (digits2_pos pn)) in *.
  assert (Hdg : 1 <= dg) by (unfold dg; lia).
  replace (0 - emin) with 1074 in Herr by (unfold emin; lia).
  set (E := fexp (dg + 0)) in *.
  assert (HE : emin <= E /\ E - emin <= dg - 1 + 1074)
    by (unfold E, fexp, emin; lia).
  assert (HU : 2 ^ (E - emin) <= 2 ^ (dg - 1 + 1074))
    by (apply Z.pow_le_mono_r; lia).
  rewrite Z.pow_add_r in HU by lia.
  pose proof (pow2_pos (dg - 1) ltac:(lia)) as Hd1.
  assert (HV : 2 ^ (dg - 1) * 2 ^ 1074 <= Zpos pn * 2 ^ 1074)
    by (apply Z.mul_le_mono_nonneg_r; lia).
  assert (H1 : 1 * 2 ^ 1074 <= 2 ^ (dg - 1) * 2 ^ 1074)
    by (apply Z.mul_le_mono_nonneg_r; lia).
  change (2 ^ 1074) with (2 * 2 ^ 1073) in *.
  set (C := 2 ^ 1073) in *. lia.
Qed.

(** The monthly amount the constructor computes, when it is above zero,
    is not so large that the quotient of the total cost by it would
    vanish. *)
Lemma monthly_not_huge nm total n sd self out :
  amount total -> init nm total n sd = Ok (self, out) ->
  0 < ulps (monthly_amortization_amount self) ->
  0 < ulps total /\
  ulps (monthly_amortization_amount self) < 2 * (ulps total * 2 ^ 1074).
Proof.
  intros (Vt & Ft & Ht) Hi Hm.
  pose proof (init_sound _ _ _ _ _ _ (conj Vt (conj Ft Ht)) Hi) as (_ & Vm & _).
  apply init_inv in Hi as (Hn & y & Hy & _ & ->).
  cbn [monthly_amortization_amount] in *.
  destruct (float_of_int_not_small n y ltac:(lia) Hy) as (py & ey & -> & Vy & Hy1).
  destruct (ulps_nonneg_cases total Vt Ft Ht) as [[s ->] | (mt & et & -> & Htpos)].
  { exfalso. destruct s; cbn in Hm; lia. }
  split; [exact Htpos | ].
  (* the monthly amount is a float of the machine *)
  destruct (ulps_finite_pos _ Hm) as (pm & em & Em). rewrite Em in *.
  destruct (valid_mantissa_bounds _ _ _ Vm) as (Hem & Hpm & _).
  cbn [ulps cond_Zopp] in *.
  assert (HM : Zpos pm * 2 ^ (em - emin) < 2 ^ 53 * 2 ^ 2045).
  { assert (2 ^ (em - emin) <= 2 ^ 2045)
      by (apply Z.pow_le_mono_r; unfold emin in *; lia).
    pose proof (pow2_pos (em - emin) ltac:(lia)).
    apply Z.lt_le_trans with (2 ^ 53 * 2 ^ (em - emin)).
    - apply Z.mul_lt_mono_pos_r; lia.
    - apply Z.mul_le_mono_nonneg_l; lia. }
  (* the quotient that was rounded is at least 1/200 *)
  destruct (fdiv_nearest mt et py ey Vt Vy)
    as [[Hz _] | (p & e' & Hcan & Hq & Hnear)]; cbn zeta in *.
  { rewrite Hz in Em. discriminate. }
  pose proof (fdiv_valid (S754_finite false mt et) (S754_finite false py ey)) as Vq.
  rewrite Hq in Em, Vq.
  destruct (e' <=? emax - prec); [ | discriminate].
  assert (Hx : 2 ^ 1066 <= Zpos p * 2 ^ (e' - emin)).
  { apply round2_pos_not_tiny; [exact Vq | ]. rewrite Em. cbn [ulps cond_Zopp].
    apply ulps_pos. lia. }
  destruct (valid_mantissa_bounds _ _ _ Vq) as (He' & _ & _).
  set (T := Zpos mt * 2 ^ (et - emin)) in *.
  set (Y := Zpos py * 2 ^ (ey - emin)) in *.
  set (S := 2 ^ (e' - emin)) in *.
  assert (HS : 0 < S) by (apply pow2_pos; lia).
  set (Q := Zpos p * S) in *.
  assert (HSQ : S <= Q) by (unfold Q; nia).
  assert (HY0 : 0 < Y) by (apply ulps_pos; unfold valid in Vy; cbn in Vy;
                           apply bounded_inv in Vy; unfold fexp, emin in *; lia).
  (* [Q * Y <= 2 T W], hence [Q <= 4 T] *)
  assert (H1 : 2 * (Q * Y) - S * Y <= 2 * (T * 2 ^ 1074)) by lia.
  assert (H2 : S * Y <= Q * Y) by (apply Z.mul_le_mono_nonneg_r; lia).
  assert (H3 : Q * 2 ^ 1073 <= Q * Y) by (apply Z.mul_le_mono_nonneg_l; lia).
  assert (H4 : Q * 2 ^ 1073 <= 2 * (T * 2 ^ 1074)) by lia.
  change (2 ^ 1074) with (2 * 2 ^ 1073) in H4.
  assert (H5 : Q <= 4 * T).
  { pose proof (pow2_pos 1073 ltac:(lia)) as H73.
    set (C := 2 ^ 1073) in *.
    destruct (Z_le_gt_dec Q (4 * T)) as [ | Hgt]; [assumption | exfalso].
    assert ((4 * T + 1) * C <= Q * C) by (apply Z.mul_le_mono_nonneg_r; lia).
    lia. }
  assert (H6 : 2 ^ 1064 <= T).
  { change (2 ^ 1066) with (4 * 2 ^ 1064) in Hx. lia. }
  assert (H7 : 2 ^ 1064 * 2 ^ 1074 <= T * 2 ^ 1074)
    by (apply Z.mul_le_mono_nonneg_r; lia).
  rewrite <- Z.pow_add_r in H7, HM by lia.
  assert (2 ^ (53 + 2045) < 2 ^ (1064 + 1074)) by (apply Z.pow_lt_mono_r; lia).
  lia.
Qed.

(** For an asset from the constructor with a monthly amount above zero,
    the float quotient [total_cost / monthly_amortization_amount] rounded
    up by [math.ceil], when it is an integer at all, is at least 1. *)
Lemma init_float_ceiling_pos nm total n sd self out c :
  amount total -> init nm total n sd = Ok (self, out) ->
  0 < ulps (monthly_amortization_amount self) ->
  Py.ceil (fdiv total (monthly_amortization_amount self)) = Ok c ->
  1 <= c.
Proof.
  intros Ht Hi Hm Hc.
  destruct (monthly_not_huge _ _ _ _ _ _ Ht Hi Hm) as [Htpos Hhuge].
  pose proof (init_sound _ _ _ _ _ _ Ht Hi) as (_ & Vm & _).
  destruct Ht as (Vt & _ & _).
  destruct (ulps_finite_pos _ Htpos) as (mt & et & Et).
  destruct (ulps_finite_pos _ Hm) as (pm & em & Em).
  rewrite Et, Em in *.
  destruct (fdiv_nearest mt et pm em Vt Vm)
    as [[_ Hz] | (p & e' & Hcan & Hq & _)]; cbn zeta in *.
  { cbn [ulps cond_Zopp] in Hhuge. lia. }
  pose proof (fdiv_valid (S754_finite false mt et) (S754_finite false pm em)) as Vq.
  rewrite Hq in Hc, Vq.
  destruct (e' <=? emax - prec); [ | discriminate].
  destruct (valid_mantissa_bounds _ _ _ Vq) as (He' & _ & _).
  apply (ceil_not_below p e' c); [lia | exact Hc].
Qed.

(** One call adds a record and at most one half of the spacing of the
    total cost to the drift. *)
Lemma amortize_drift_nearest self d :
  sound self -> amount (total_cost self) ->
  ulps (book_value self) <= ulps (total_cost self) ->
  2 * Z.abs (drift self)
  <= Z.of_nat (List.length (amortization_history self)) * spacing (total_cost self) ->
  let self' := fst (amortize_for_period self d) in
  2 * Z.abs (drift self')
  <= Z.of_nat (List.length (amortization_history self')) * spacing (total_cost self').
Proof.
  intros (Hb & Vm & Nm) Ht Hle Hd. cbn zeta.
  pose proof (spacing_nonneg (total_cost self)) as Hsp.
  destruct (fle (book_value self) zero) eqn:Hz.
  - rewrite amortize_noop by assumption. exact Hd.
  - rewrite amortize_active by assumption. unfold drift in *.
    cbn [append_history set_book_value book_value total_cost amortization_history].
    rewrite amounts_app, exact_sum_app, length_app. cbn [amortized_amount List.length].
    rewrite Nat2Z.inj_add. change (Z.of_nat 1) with 1.
    unfold Py.min.
    destruct (flt (monthly_amortization_amount self) (book_value self)) eqn:Hlt.
    + destruct (monthly_below_amount _ _ Vm Nm Hb Hlt) as ((Vm' & Fm & Hm) & Hlt').
      pose proof (spacing_le _ _ Hb Ht Hle) as Hs.
      destruct Hb as (Vb & Fb & Hb).
      pose proof (fsub_lt_nearest _ _ Vb Vm' Fb Fm Hm Hlt') as Herr.
      cbn [exact_sum fold_right]. lia.
    + rewrite fsub_self by apply Hb. cbn [ulps zero exact_sum fold_right]. lia.
Qed.

Lemma amortize_all_drift_nearest self ds :
  sound self -> amount (total_cost self) ->
  ulps (book_value self) <= ulps (total_cost self) ->
  2 * Z.abs (drift self)
  <= Z.of_nat (List.length (amortization_history self)) * spacing (total_cost self) ->
  let self' := amortize_all self ds in
  2 * Z.abs (drift self')
  <= Z.of_nat (List.length (amortization_history self')) * spacing (total_cost self').
Proof.
  revert self. induction ds as [ | d ds IH]; intros self Hs Ht Hle Hd.
  - exact Hd.
  - cbn [amortize_all].
    destruct (amortize_sound self d Hs) as [Hs' Hle'].
    destruct (amortize_frame self d) as (_ & Htc & _ & _ & _).
    apply IH.
    + exact Hs'.
    + rewrite Htc. exact Ht.
    + rewrite Htc. cbn zeta in Hle'. lia.
    + apply amortize_drift_nearest; assumption.
Qed.

(** The run from the constructor on: twice the drift is at most one
    spacing of the total cost for each record. *)
Lemma init_drift_nearest nm total n sd self out ds :
  amount total -> init nm total n sd = Ok (self, out) ->
  let self' := amortize_all self ds in
  2 * Z.abs (drift self')
  <= Z.of_nat (List.length (amortization_history self')) * spacing total.
Proof.
  intros Ht Hi. cbn zeta.
  pose proof (init_sound _ _ _ _ _ _ Ht Hi) as Hs.
  assert (H0 : book_value self = total /\ total_cost self = total /\
               amortization_history self = [])
    by (apply init_inv in Hi as (_ & y & _ & _ & ->); auto).
  destruct H0 as (Hb & Htc & Hh).
  destruct (amortize_all_frame self ds) as [Htc' _].
  pose proof (amortize_all_drift_nearest self ds Hs) as Hd.
  cbn zeta in Hd, Htc'. rewrite Htc', Htc in Hd. apply Hd.
  - exact Ht.
  - rewrite Hb. lia.
  - unfold drift. rewrite Hh, Hb, Htc.
    replace (exact_sum (amounts []) + ulps total - ulps total) with 0
      by (cbn [amounts map exact_sum fold_right]; lia).
    cbn [List.length]. lia.
Qed.

(** An amount is less than 2^53 times its spacing. *)
Lemma amount_below_spacing x :
  valid x -> 0 < ulps x -> ulps x < 2 ^ 53 * spacing x.
Proof.
  intros V H. destruct (ulps_finite_pos x H) as (p & e & ->).
  destruct (valid_mantissa_bounds _ _ _ V) as (He & Hp & _).
  cbn [ulps cond_Zopp spacing].
  apply Z.mul_lt_mono_pos_r; [apply pow2_pos; lia | exact Hp].
Qed.

(** Enough calls, counted either way: the total cost is covered, or what
    is not covered is below one part in 2^53 of it, after at least two
    calls. *)
Lemma enough_calls nm total n sd self out (k : Z) :
  amount total ->
  init nm total n sd = Ok (self, out) ->
  0 < ulps (monthly_amortization_amount self) ->
  (ceil_quotient total (monthly_amortization_amount self) <= k \/
   exists c, Py.ceil (fdiv total (monthly_amortization_amount self)) = Ok c /\
             c <= k) ->
  let m := ulps (monthly_amortization_amount self) in
  ulps total <= k * m \/
  (k * m < ulps total /\ 2 <= k /\ 2 ^ 53 * (ulps total - k * m) < ulps total).
Proof.
  intros Hamount Hi Hm Hk. cbn zeta.
  destruct Hk as [Hk | (c & Hc & Hck)].
  { left. apply ceil_quotient_le; assumption. }
  destruct (Z_le_gt_dec (ulps total)
              (k * ulps (monthly_amortization_amount self))) as [ | Hshort];
    [left; assumption | right].
  pose proof (init_float_ceiling_pos _ _ _ _ _ _ c Hamount Hi Hm Hc) as Hc1.
  destruct (monthly_not_huge _ _ _ _ _ _ Hamount Hi Hm) as [Htpos _].
  pose proof (init_sound _ _ _ _ _ _ Hamount Hi) as (_ & Vm & _).
  destruct Hamount as (Vt & _ & _).
  set (M := ulps (monthly_amortization_amount self)) in *.
  set (T := ulps total) in *.
  assert (HcM : c * M <= k * M) by (apply Z.mul_le_mono_nonneg_r; lia).
  pose proof (float_ceiling_close total (monthly_amortization_amount self) c
                Vt Vm Htpos Hm Hc Hc1 ltac:(fold M T; lia)) as Hclose.
  fold M T in Hclose.
  split; [lia | ]. split; [ | lia].
  destruct (Z_le_gt_dec 2 k) as [ | Hk1]; [assumption | exfalso].
  assert (c = 1) by lia. subst c.
  pose proof (floats_apart total (monthly_amortization_amount self)
                Vt Vm Hm ltac:(fold M T; lia)) as Hapart.
  fold M T in Hapart. lia.
Qed.

(** * The properties of the specification *)

Ltac by_computation :=
  vm_compute; first [reflexivity | discriminate | intro; discriminate].

(** C1, as stated, fails: 0.11 over 3 months.  After one call the record
    shows 0.04 and the book value is 0.07, the difference 0.11 - 0.04
    having been rounded; 0.07 + 0.04 is 0.11000000000000001 in floats, and
    in exact arithmetic the two floats do not add up to the float 0.11
    either. *)
Lemma C1_conservation_fails_under_rounding :
  exists self out,
    init "Office Renovation" (dec2 11) 3 new_year = Ok (self, out) /\
    let self' := amortize_all self [new_year] in
    amounts (amortization_history self') = [dec2 4] /\
    book_value self' = dec2 7 /\
    feq (fadd (Py.sum (amounts (amortization_history self'))) (book_value self'))
        (total_cost self') = false /\
    exact_sum (amounts (amortization_history self')) + ulps (book_value self')
    <> ulps (total_cost self').
Proof.
  eexists; eexists. split; [vm_compute; reflexivity | ].
  repeat split; by_computation.
Qed.

(** C1, amended: for every validly constructed asset and every finite
    sequence of calls, [book_value] is [total_cost] with the amortized
    amounts of the history subtracted from it one after the other in float
    arithmetic.  For a finite non-negative [total_cost], the sum of the
    amortized amounts plus [book_value] equals [total_cost] up to rounding:
    in exact arithmetic they differ by at most one unit in the last place
    of [total_cost] for each record; and they are equal when [total_cost]
    and the monthly amount are on a common grid (whole multiples of a power
    of two, as whole numbers below 2^53 are), so that no subtraction
    rounds. *)
Theorem C1_conservation_up_to_rounding nm total n sd self out ds :
  init nm total n sd = Ok (self, out) ->
  let self' := amortize_all self ds in
  total_cost self' = total /\
  book_value self'
  = fold_left fsub (amounts (amortization_history self')) total /\
  (amount total ->
   Z.abs (exact_sum (amounts (amortization_history self'))
          + ulps (book_value self') - ulps total)
   <= Z.of_nat (List.length (amortization_history self')) * spacing total) /\
  (forall w,
     amount total -> 0 <= w ->
     ulps total mod 2 ^ w = 0 -> ulps total < 2 ^ (53 + w) ->
     ulps (monthly_amortization_amount self) mod 2 ^ w = 0 ->
     exact_sum (amounts (amortization_history self')) + ulps (book_value self')
     = ulps total).
Proof.
  intros Hi. cbn zeta.
  assert (Ht : total_cost (amortize_all self ds) = total).
  { destruct (amortize_all_frame self ds) as [-> _].
    apply init_inv in Hi as (_ & y & _ & _ & ->). reflexivity. }
  split; [exact Ht | ]. split; [ | split].
  - rewrite <- Ht. apply amortize_all_chain.
    apply init_inv in Hi as (_ & y & _ & _ & ->). reflexivity.
  - intros Hamount.
    destruct (init_drift _ _ _ _ _ _ ds Hamount Hi) as (_ & Htc & _ & Hd & _).
    cbn zeta in Htc, Hd. unfold drift in Hd. rewrite Htc in Hd. exact Hd.
  - intros w Hamount Hw Gt Bt Gm.
    destruct (init_on_grid _ _ _ _ _ _ w Hamount Hi Gt Bt Gm)
      as (Hg & Hb & _ & Hh).
    destruct (amortize_all_grid w self ds Hw Hg) as (_ & Hsum & _).
    cbn zeta in Hsum. rewrite Hsum, Hh, Hb. reflexivity.
Qed.

Lemma C1_conservation_up_to_rounding_witness :
  exists self out,
    init "Office Renovation" (dec2 12000000) 60 new_year = Ok (self, out) /\
    let self' := amortize_all self (months_from 0 62) in
    total_cost self' = dec2 12000000 /\
    book_value self'
    = fold_left fsub (amounts (amortization_history self')) (dec2 12000000) /\
    Z.abs (exact_sum (amounts (amortization_history self'))
           + ulps (book_value self') - ulps (dec2 12000000))
    <= Z.of_nat (List.length (amortization_history self'))
       * spacing (dec2 12000000) /\
    exact_sum (amounts (amortization_history self')) + ulps (book_value self')
    = ulps (dec2 12000000).
Proof.
  eexists; eexists. split; [vm_compute; reflexivity | ].
  destruct (C1_conservation_up_to_rounding
              "Office Renovation" (dec2 12000000) 60 new_year _ _
              (months_from 0 62) eq_refl) as (H1 & H2 & H3 & H4).
  split; [exact H1 | ]. split; [exact H2 | ]. split.
  - apply H3. repeat split; by_computation.
  - apply (H4 1074); [repeat split | | | | ]; by_computation.
Defined.

(** C2: what the program does with 100.00 over 3 months.  The monthly
    amount is 33.33 and the book value after two calls is 33.34, as the
    claim says; but the third call amortizes 33.33, not 33.34, and leaves
    0.010000000000005116 on the books, which only a fourth call takes. *)
Theorem C2_residue_left_after_last_period :
  exists self out,
    init "Office Renovation" (dec2 10000) 3 new_year = Ok (self, out) /\
    monthly_amortization_amount self = dec2 3333 /\
    book_value (amortize_all self (months_from 0 2)) = dec2 3334 /\
    amounts (amortization_history (amortize_all self (months_from 0 3)))
    = [dec2 3333; dec2 3333; dec2 3333] /\
    book_value (amortize_all self (months_from 0 3))
    = S754_finite false 5764607523037184 (-59) /\
    fle (book_value (amortize_all self (months_from 0 3))) zero = false /\
    amounts (amortization_history (amortize_all self (months_from 0 4)))
    = [dec2 3333; dec2 3333; dec2 3333;
       S754_finite false 5764607523037184 (-59)] /\
    book_value (amortize_all self (months_from 0 4)) = zero.
Proof.
  eexists; eexists. split; [vm_compute; reflexivity | ].
  repeat split; by_computation.
Qed.

(** C3, as stated, fails: 0.70 over 7 months.  The monthly amount is 0.10
    and [ceil (0.70 / 0.10)] is 7, in exact arithmetic and with the float
    quotient 6.999999999999999 alike; after 7 calls the book value is
    2^-55, not zero, and an eighth call adds a record. *)
Lemma C3_termination_fails_under_rounding :
  exists self out,
    init "Office Renovation" (dec2 70) 7 new_year = Ok (self, out) /\
    monthly_amortization_amount self = dec2 10 /\
    flt zero (monthly_amortization_amount self) = true /\
    ceil_quotient (total_cost self) (monthly_amortization_amount self) = 7 /\
    Py.ceil (fdiv (total_cost self) (monthly_amortization_amount self)) = Ok 7 /\
    let self' := amortize_all self (months_from 0 7) in
    book_value self' = S754_finite false 4503599627370496 (-107) /\
    feq (book_value self') zero = false /\
    List.length (amortization_history (fst (amortize_for_period self' new_year)))
    = 8%nat.
Proof.
  eexists; eexists. split; [vm_compute; reflexivity | ].
  repeat split; by_computation.
Qed.

(** C3, amended: for every asset constructed with a finite non-negative
    total cost and a positive monthly amount, calling
    [amortize_for_period] [N] times, with [N] at least
    [ceil (total_cost / monthly)], drives [book_value] to 0 up to
    rounding.  The ceiling may be taken either way: of the float quotient,
    as [math.ceil (total_cost / monthly)] computes it in Python, or of the
    quotient of the two floats in exact arithmetic (the two can differ: 5
    and 6 for 0.05 over 5 months).  What is left is not negative and at
    most [N] units in the last place of [total_cost]; it is exactly 0
    when [total_cost] and the monthly amount are on a common grid (whole
    multiples of a power of two, as whole numbers below 2^53 are), so
    that no subtraction rounds; and once [book_value] is 0 every
    subsequent call is a no-op that leaves the asset, its history
    included, unchanged. *)
Theorem C3_termination_up_to_rounding nm total n sd self out ds :
  amount total ->
  init nm total n sd = Ok (self, out) ->
  0 < ulps (monthly_amortization_amount self) ->
  (ceil_quotient total (monthly_amortization_amount self)
   <= Z.of_nat (List.length ds) \/
   exists c,
     Py.ceil (fdiv total (monthly_amortization_amount self)) = Ok c /\
     c <= Z.of_nat (List.length ds)) ->
  let self' := amortize_all self ds in
  0 <= ulps (book_value self') <= Z.of_nat (List.length ds) * spacing total /\
  (forall w,
     0 <= w -> ulps total mod 2 ^ w = 0 -> ulps total < 2 ^ (53 + w) ->
     ulps (monthly_amortization_amount self) mod 2 ^ w = 0 ->
     feq (book_value self') zero = true) /\
  (feq (book_value self') zero = true ->
   forall d,
     amortize_for_period self' d = (self', [FullyAmortized d (name self')])).
Proof.
  intros Hamount Hi Hm Hn. cbn zeta.
  pose proof (enough_calls _ _ _ _ _ _ _ Hamount Hi Hm Hn) as Hcover.
  cbn zeta in Hcover.
  destruct (init_drift _ _ _ _ _ _ ds Hamount Hi) as (Hs & Htc & Hmm & Hd & Hk).
  pose proof (init_drift_nearest _ _ _ _ _ _ ds Hamount Hi) as Hd2.
  cbn zeta in Hs, Htc, Hmm, Hd, Hk, Hd2.
  pose proof (spacing_nonneg total) as Hsp.
  destruct Hs as ((Vb & Fb & Hb) & _).
  split; [ | split].
  - split; [exact Hb | ].
    destruct Hk as [Hz | [Hlen Hsum]].
    + rewrite Hz. apply Z.mul_nonneg_nonneg; lia.
    + unfold drift in Hd, Hd2. rewrite Htc, Hlen, Hsum, Hmm in Hd, Hd2.
      destruct Hcover as [Hle | (Hshort & H2 & Hclose)]; [lia | ].
      destruct Hamount as (Vt & _ & _).
      pose proof (amount_below_spacing total Vt ltac:(lia)) as Hbelow.
      set (N := Z.of_nat (List.length ds)) in *.
      set (r := ulps total - N * ulps (monthly_amortization_amount self)) in *.
      assert (Hr : r < spacing total).
      { destruct (Z_lt_le_dec r (spacing total)) as [ | Hge]; [assumption | exfalso].
        assert (2 ^ 53 * spacing total <= 2 ^ 53 * r)
          by (apply Z.mul_le_mono_nonneg_l; lia).
        lia. }
      assert (2 * spacing total <= N * spacing total)
        by (apply Z.mul_le_mono_nonneg_r; lia).
      lia.
  - intros w Hw Gt Bt Gm.
    destruct (init_on_grid _ _ _ _ _ _ w Hamount Hi Gt Bt Gm)
      as (Hg & Hbt & _ & _).
    destruct (amortize_all_grid w self ds Hw Hg) as (Hg' & _ & Hmax).
    specialize (Hmax Hm). cbn zeta in Hmax, Hg'. rewrite Hbt in Hmax.
    assert (Hz : ulps (book_value (amortize_all self ds)) = 0).
    { destruct Hcover as [Hle | (Hshort & _ & Hclose)]; [lia | exfalso].
      (* what is not covered is a multiple of the grid *)
      set (N := Z.of_nat (List.length ds)) in *.
      set (M := ulps (monthly_amortization_amount self)) in *.
      pose proof (pow2_pos w Hw) as Hpw.
      assert (Hmod : (ulps total - N * M) mod 2 ^ w = 0).
      { rewrite Zminus_mod, Gt, Zmult_mod, Gm, Z.mul_0_r.
        rewrite Z.mod_0_l by lia. reflexivity. }
      apply Z.mod_divide in Hmod; [ | lia]. destruct Hmod as [j Hj].
      rewrite Z.pow_add_r in Bt by lia.
      assert (1 <= j) by nia.
      assert (2 ^ w <= ulps total - N * M) by nia.
      assert (2 ^ 53 * 2 ^ w <= 2 ^ 53 * (ulps total - N * M))
        by (apply Z.mul_le_mono_nonneg_l; lia).
      lia. }
    destruct Hg' as ((Hb' & _) & _).
    destruct (amount_ulps_zero _ Hb' Hz) as [s Hs]. rewrite Hs. reflexivity.
  - intros Hz d. apply amortize_noop.
    destruct (feq_zero_inv _ Hz) as [s ->]. reflexivity.
Qed.

Lemma C3_termination_up_to_rounding_witness :
  (exists self out,
     init "Office Renovation" (dec2 12000000) 60 new_year = Ok (self, out) /\
     let self' := amortize_all self (months_from 0 60) in
     0 <= ulps (book_value self')
     <= Z.of_nat (List.length (months_from 0 60)) * spacing (dec2 12000000) /\
     feq (book_value self') zero = true /\
     forall d,
       amortize_for_period self' d = (self', [FullyAmortized d (name self')])) /\
  (exists self out,
     init "Office Renovation" (dec2 5) 5 new_year = Ok (self, out) /\
     ceil_quotient (dec2 5) (monthly_amortization_amount self) = 6 /\
     Py.ceil (fdiv (dec2 5) (monthly_amortization_amount self)) = Ok 5 /\
     let self' := amortize_all self (months_from 0 5) in
     0 <= ulps (book_value self')
     <= Z.of_nat (List.length (months_from 0 5)) * spacing (dec2 5)).
Proof.
  split.
  - eexists; eexists. split; [vm_compute; reflexivity | ].
    edestruct C3_termination_up_to_rounding
      with (nm := "Office Renovation"%string) (total := dec2 12000000)
           (n := 60) (sd := new_year) (ds := months_from 0 60)
      as (H1 & H2 & H3);
      [repeat split; by_computation | vm_compute; reflexivity
       | by_computation | left; by_computation | ].
    pose proof (H2 1074 ltac:(by_computation) ltac:(by_computation)
                  ltac:(by_computation) ltac:(by_computation)) as Hz.
    split; [exact H1 | ]. split; [exact Hz | exact (H3 Hz)].
  - eexists; eexists. split; [vm_compute; reflexivity | ].
    split; [by_computation | ]. split; [by_computation | ].
    edestruct C3_termination_up_to_rounding
      with (nm := "Office Renovation"%string) (total := dec2 5)
           (n := 5) (sd := new_year) (ds := months_from 0 5)
      as (H1 & _ & _);
      [repeat split; by_computation | vm_compute; reflexivity
       | by_computation | right; exists 5; split; by_computation | ].
    exact H1.
Defined.

(** C4: whenever [book_value <= 0], a call to [amortize_for_period], with
    any date, appends nothing to the history and changes no field of the
    asset: it only prints that the expense is fully amortized. *)
Theorem C4_terminal_state_idempotent self d :
  fle (book_value self) zero = true ->
  amortize_for_period self d = (self, [FullyAmortized d (name self)]).
Proof. exact (amortize_noop self d). Qed.

Lemma C4_terminal_state_idempotent_witness :
  let self := mk_expense "Office Renovation" zero 12 new_year zero zero [] in
  amortize_for_period self (datetime.mk_date 2025 2 1)
  = (self, [FullyAmortized (datetime.mk_date 2025 2 1) "Office Renovation"]).
Proof.
  apply (C4_terminal_state_idempotent
           (mk_expense "Office Renovation" zero 12 new_year zero zero [])).
  reflexivity.
Defined.

(** C5, as stated, fails: 0.25 over 2 months gives the quotient 0.125,
    a tie between 0.12 and 0.13; the program stores 0.12 where rounding
    half up gives 0.13.  And 0.125 over 1 month gives 0.12, which is not
    the total cost. *)
Lemma C5_rounding_is_not_half_up :
  exists self out self1 out1,
    init "Office Renovation" (dec2 25) 2 new_year = Ok (self, out) /\
    monthly_amortization_amount self = dec2 12 /\
    round2_half_up (fdiv (dec2 25) (of_Z 2)) = dec2 13 /\
    feq (monthly_amortization_amount self)
        (round2_half_up (fdiv (dec2 25) (of_Z 2))) = false /\
    init "Office Renovation" (fdiv (of_Z 125) (of_Z 1000)) 1 new_year
    = Ok (self1, out1) /\
    monthly_amortization_amount self1 = dec2 12 /\
    feq (monthly_amortization_amount self1) (total_cost self1) = false.
Proof.
  do 4 eexists. split; [vm_compute; reflexivity | ].
  split; [by_computation | ]. split; [by_computation | ].
  split; [by_computation | ]. split; [vm_compute; reflexivity | ].
  split; by_computation.
Qed.

(** C5, amended: at construction the monthly amount is the quotient of
    [total_cost] by the float of [period_count], rounded to two decimals
    with ties to even ([rounded2]: the float nearest to [k / 100] for the
    integer [k] nearest to 100 times the exact value of the quotient, the
    even one on a tie); for [period_count = 1] it is [total_cost] rounded
    so, and for 120000.00 over 60 periods it is 2000.00 exactly. *)
Theorem C5_monthly_amount_rounds_half_even nm total n sd self out :
  valid total ->
  init nm total n sd = Ok (self, out) ->
  (exists y, Py.float_of_int n = Ok y /\
             rounded2 (fdiv total y) (monthly_amortization_amount self)) /\
  (n = 1 -> rounded2 total (monthly_amortization_amount self)) /\
  (total = dec2 12000000 -> n = 60 ->
   monthly_amortization_amount self = dec2 200000).
Proof.
  intros V Hi. pose proof Hi as Hi'.
  apply init_inv in Hi' as (_ & y & Hy & _ & ->).
  cbn [monthly_amortization_amount]. split; [ | split].
  - exists y. split; [assumption | apply round2_rounded2].
  - intros ->. injection Hy as <-. rewrite fdiv_one by assumption.
    apply round2_rounded2.
  - intros -> ->. injection Hy as <-. vm_compute. reflexivity.
Qed.

Lemma C5_monthly_amount_rounds_half_even_witness :
  exists self out,
    init "Office Renovation" (dec2 12000000) 60 new_year = Ok (self, out) /\
    (exists y, Py.float_of_int 60 = Ok y /\
               rounded2 (fdiv (dec2 12000000) y)
                 (monthly_amortization_amount self)) /\
    monthly_amortization_amount self = dec2 200000.
Proof.
  eexists; eexists. split; [vm_compute; reflexivity | ].
  edestruct (C5_monthly_amount_rounds_half_even
               "Office Renovation" (dec2 12000000) 60 new_year)
    as (H1 & _ & H3); [ | vm_compute; reflexivity | ].
  - by_computation.
  - split; [exact H1 | ]. apply H3; reflexivity.
Defined.

(** C6, as stated, fails: a period count of 2^1024 is positive, yet the
    constructor raises [OverflowError], the int being too large for the
    float division. *)
Lemma C6_huge_period_count_overflows :
  init "Office Renovation" (dec2 10000) (2 ^ 1024) new_year
  = Raise OverflowError.
Proof. vm_compute. reflexivity. Qed.

(** C6, amended: the constructor raises [ValueError] if and only if
    [period_count <= 0]; for [1 <= period_count] up to the largest float
    (1.7976931348623157e308) construction succeeds, and from 2^1024 on it
    raises [OverflowError]; the operations on a constructed asset, being
    total functions, never fail. *)
Theorem C6_construction_validation nm total n sd :
  (init nm total n sd = Raise ValueError <-> n <= 0) /\
  (1 <= n <= max_float -> exists self out, init nm total n sd = Ok (self, out)) /\
  (2 ^ 1024 <= n -> init nm total n sd = Raise OverflowError) /\
  (forall self d, exists self' out,
     amortize_for_period self d = (self', out) /\
     get_status self' = (self', [BookValue (book_value self'); Rule])).
Proof.
  split; [ | split; [ | split]].
  - unfold init. destruct (n <=? 0) eqn:Hn.
    + apply Z.leb_le in Hn. tauto.
    + apply Z.leb_gt in Hn. split; [ | lia].
      unfold Py.truediv, Py.float_of_int, bind.
      destruct (of_Z n); try discriminate;
        match goal with
        | |- context [feq ?y zero] => destruct (feq y zero); discriminate
        end.
  - intros Hn. destruct (of_Z_pos n Hn) as (p & e & Hy & _).
    unfold init. replace (n <=? 0) with false by (symmetry; apply Z.leb_gt; lia).
    unfold Py.truediv, Py.float_of_int, bind. rewrite Hy. cbn. eauto.
  - intros Hn. pose proof (pow2_pos 1024 ltac:(lia)).
    unfold init. replace (n <=? 0) with false by (symmetry; apply Z.leb_gt; lia).
    unfold Py.truediv, Py.float_of_int, bind.
    rewrite (of_Z_overflow n Hn). reflexivity.
  - intros self d. destruct (amortize_for_period self d) as [self' out].
    exists self', out. split; reflexivity.
Qed.

Lemma C6_construction_validation_witness :
  (init "Office Renovation" (dec2 12000000) 0 new_year = Raise ValueError) /\
  (exists self out,
     init "Office Renovation" (dec2 12000000) 60 new_year = Ok (self, out)) /\
  init "Office Renovation" (dec2 12000000) (2 ^ 1024) new_year
  = Raise OverflowError.
Proof.
  destruct (C6_construction_validation
              "Office Renovation" (dec2 12000000) 0 new_year) as ([_ H0] & _).
  destruct (C6_construction_validation
              "Office Renovation" (dec2 12000000) 60 new_year) as (_ & H1 & _).
  destruct (C6_construction_validation
              "Office Renovation" (dec2 12000000) (2 ^ 1024) new_year)
    as (_ & _ & H2 & _).
  split; [apply H0; lia | ].
  split; [apply H1; split; by_computation | apply H2; lia].
Defined.

(** C7, as stated, fails: the float [inf] is a non-negative total cost.
    The monthly amount is [inf] too, the first call takes [inf] from [inf],
    and the book value is NaN from then on, which is neither [>= 0] nor
    [<= total_cost]. *)
Lemma C7_infinite_cost_breaks_bounds :
  exists self out,
    init "Office Renovation" (S754_infinity false) 3 new_year = Ok (self, out) /\
    fle zero (total_cost self) = true /\
    let self' := amortize_all self [new_year] in
    book_value self' = S754_nan /\
    fle zero (book_value self') = false /\
    fle (book_value self') (total_cost self') = false.
Proof.
  eexists; eexists. split; [vm_compute; reflexivity | ].
  repeat split; by_computation.
Qed.

(** C7, amended: for every asset constructed with a finite non-negative
    total cost, [book_value] starts at [total_cost]; after any sequence of
    calls it satisfies [0 <= book_value <= total_cost]; it does not grow
    across a call of [amortize_for_period], and [get_status] leaves it as
    it is. *)
Theorem C7_book_value_bounds nm total n sd self out ds d :
  valid total -> is_finite total = true -> fle zero total = true ->
  init nm total n sd = Ok (self, out) ->
  book_value self = total /\
  let self' := amortize_all self ds in
  fle zero (book_value self') = true /\
  fle (book_value self') total = true /\
  fle (book_value (fst (amortize_for_period self' d))) (book_value self') = true /\
  book_value (fst (get_status self')) = book_value self'.
Proof.
  intros V F H0 Hi.
  assert (Hamount : amount total)
    by (repeat split; try assumption; apply fle_zero_ulps; assumption).
  pose proof (init_sound _ _ _ _ _ _ Hamount Hi) as Hs.
  assert (Hb : book_value self = total)
    by (apply init_inv in Hi as (_ & y & _ & _ & ->); reflexivity).
  split; [exact Hb | ]. cbn zeta.
  destruct (amortize_all_sound self ds Hs) as [Hs' Hle]. cbn zeta in Hs', Hle.
  destruct (amortize_sound (amortize_all self ds) d Hs') as [Hs'' Hle'].
  cbn zeta in Hs'', Hle'. rewrite Hb in Hle.
  destruct Hs' as ((V' & F' & H') & _). destruct Hs'' as ((V'' & F'' & H'') & _).
  repeat split.
  - apply ulps_fle_zero; assumption.
  - rewrite fle_ulps by assumption. apply Z.leb_le. exact Hle.
  - rewrite fle_ulps by assumption. apply Z.leb_le. exact Hle'.
Qed.

Lemma C7_book_value_bounds_witness :
  exists self out,
    init "Office Renovation" (dec2 10000) 3 new_year = Ok (self, out) /\
    book_value self = dec2 10000 /\
    let self' := amortize_all self (months_from 0 2) in
    fle zero (book_value self') = true /\
    fle (book_value self') (dec2 10000) = true /\
    fle (book_value (fst (amortize_for_period self' (datetime.mk_date 2025 3 1))))
        (book_value self') = true /\
    book_value (fst (get_status self')) = book_value self'.
Proof.
  eexists; eexists. split; [vm_compute; reflexivity | ].
  eapply (C7_book_value_bounds "Office Renovation" (dec2 10000) 3 new_year);
    by_computation.
Defined.

(** C8: [get_status] is a pure read: it shows the current book value,
    returns the asset as it was, and is a total function. *)
Theorem C8_get_status_pure self :
  fst (get_status self) = self /\
  snd (get_status self) = [BookValue (book_value self); Rule].
Proof. split; reflexivity. Qed.

(** C9: for every asset state and any two dates, [amortize_for_period]
    computes the same amount and the same book value; the fields it leaves
    alone are the same; the histories differ at most in the date of the
    record appended, which is the date supplied. *)
Theorem C9_date_noninterference self d1 d2 :
  let s1 := fst (amortize_for_period self d1) in
  let s2 := fst (amortize_for_period self d2) in
  book_value s1 = book_value s2 /\
  total_cost s1 = total_cost s2 /\
  monthly_amortization_amount s1 = monthly_amortization_amount s2 /\
  ((s1 = self /\ s2 = self) \/
   exists a b,
     amortization_history s1
     = amortization_history self ++ [mk_transaction d1 a b] /\
     amortization_history s2
     = amortization_history self ++ [mk_transaction d2 a b] /\
     book_value s1 = b).
Proof.
  cbn zeta. destruct (fle (book_value self) zero) eqn:Hz.
  - rewrite !amortize_noop by assumption. cbn [fst]. auto 6.
  - rewrite !amortize_active by assumption.
    cbn [append_history set_book_value book_value total_cost
           monthly_amortization_amount amortization_history].
    repeat split. right. eauto.
Qed.

Lemma amortize_all_zero_amount self ds :
  flt zero (book_value self) = true ->
  feq (monthly_amortization_amount self) zero = true ->
  let self' := amortize_all self ds in
  amortization_history self'
  = amortization_history self
    ++ map (fun d => mk_transaction d (monthly_amortization_amount self)
                       (book_value self)) ds /\
  book_value self' = book_value self.
Proof.
  revert self. induction ds as [ | d ds IH]; intros self Hpos Hm.
  - cbn. rewrite app_nil_r. auto.
  - cbn [amortize_all map]. rewrite (amortize_zero_amount self d Hpos Hm).
    destruct (IH (append_history self
                    (mk_transaction d (monthly_amortization_amount self)
                       (book_value self)))) as [Hh Hb]; [assumption | assumption | ].
    cbn zeta in Hh, Hb.
    cbn [append_history amortization_history book_value
           monthly_amortization_amount] in Hh, Hb.
    rewrite Hh, Hb, <- app_assoc. auto.
Qed.

(** C10: for every asset constructed with [total_cost > 0] whose monthly
    amount rounds to zero, every call of [amortize_for_period] appends a
    record whose amortized amount is zero and leaves [book_value] at
    [total_cost]: the history has one record per call and the book value
    never reaches zero. *)
Theorem C10_zero_amount_never_terminates nm total n sd self out ds :
  init nm total n sd = Ok (self, out) ->
  flt zero total = true ->
  feq (monthly_amortization_amount self) zero = true ->
  let self' := amortize_all self ds in
  amortization_history self'
  = map (fun d => mk_transaction d (monthly_amortization_amount self) total) ds /\
  Forall (fun t => feq (amortized_amount t) zero = true)
    (amortization_history self') /\
  List.length (amortization_history self') = List.length ds /\
  book_value self' = total /\
  fle (book_value self') zero = false.
Proof.
  intros Hi Hpos Hm.
  assert (Hb : book_value self = total /\ amortization_history self = [])
    by (apply init_inv in Hi as (_ & y & _ & _ & ->); auto).
  destruct Hb as [Hb Hh].
  destruct (amortize_all_zero_amount self ds) as [Hh' Hb'];
    [rewrite Hb; assumption | assumption | ].
  cbn zeta in *. rewrite Hh, Hb in Hh'. cbn [app] in Hh'. rewrite Hb in Hb'.
  rewrite Hh', Hb'. repeat split.
  - apply Forall_forall. intros t Ht. apply in_map_iff in Ht as (d & <- & _).
    exact Hm.
  - apply length_map.
  - apply flt_not_fle. assumption.
Qed.

Lemma C10_zero_amount_never_terminates_witness :
  exists self out,
    init "Office Renovation" (dec2 1) 3 new_year = Ok (self, out) /\
    let self' := amortize_all self (months_from 0 5) in
    amortization_history self'
    = map (fun d => mk_transaction d (monthly_amortization_amount self) (dec2 1))
        (months_from 0 5) /\
    Forall (fun t => feq (amortized_amount t) zero = true)
      (amortization_history self') /\
    List.length (amortization_history self') = 5%nat /\
    book_value self' = dec2 1 /\
    fle (book_value self') zero = false.
Proof.
  eexists; eexists. split; [vm_compute; reflexivity | ].
  eapply (C10_zero_amount_never_terminates
            "Office Renovation" (dec2 1) 3 new_year _ _ (months_from 0 5));
    by_computation.
Defined.

(** * Further properties: floats added without rounding *)

(** Addition is exact on a grid: two amounts that are multiples of
    [2 ^ w] units and whose sum is not above a float below
    [2 ^ (53 + w)] units add up without rounding. *)
Lemma fadd_exact x y t w :
  valid x -> valid y -> valid t ->
  is_finite x = true -> is_finite y = true -> is_finite t = true ->
  0 <= ulps x -> 0 <= ulps y -> ulps x + ulps y <= ulps t -> 0 <= w ->
  ulps x mod 2 ^ w = 0 -> ulps y mod 2 ^ w = 0 -> ulps t < 2 ^ (53 + w) ->
  valid (fadd x y) /\ is_finite (fadd x y) = true /\
  ulps (fadd x y) = ulps x + ulps y.
Proof.
  intros Vx Vy Vt Fx Fy Ft Hx Hy Hle Hw Gx Gy Ht.
  destruct (ulps_nonneg_cases x Vx Fx Hx) as [[sx ->] | (mx & ex & -> & Hxpos)];
    destruct (ulps_nonneg_cases y Vy Fy Hy) as [[sy ->] | (my & ey & -> & Hypos)].
  - destruct sx, sy; repeat split.
  - unfold fadd. cbn [SFadd ulps]. repeat split; try assumption; lia.
  - unfold fadd. cbn [SFadd ulps]. repeat split; try assumption; lia.
  - destruct (ulps_finite_pos t ltac:(lia)) as (mt & et & ->).
    pose proof Vx as Bx. pose proof Vy as By. pose proof Vt as Bt.
    unfold valid in Bx, By, Bt. cbn [valid_binary] in Bx, By, Bt.
    destruct (bounded_inv _ _ Bx) as [Hcx Hex].
    destruct (bounded_inv _ _ By) as [Hcy Hey].
    assert (Hminx : emin <= ex) by (unfold fexp, emin in *; lia).
    assert (Hminy : emin <= ey) by (unfold fexp, emin in *; lia).
    cbn [ulps cond_Zopp] in Hle, Hxpos, Hypos, Gx, Gy, Ht |- *.
    set (X := Zpos mx * 2 ^ (ex - emin)) in *.
    set (Y := Zpos my * 2 ^ (ey - emin)) in *.
    unfold fadd, SFadd. cbn [cond_Zopp].
    set (ez := Z.min ex ey).
    destruct (shl_align_spec mx ex ez ltac:(lia)) as [-> _].
    destruct (shl_align_spec my ey ez ltac:(lia)) as [-> _].
    pose proof (pow2_pos (ez - emin) ltac:(lia)) as Hpz.
    assert (HX : X = Zpos mx * 2 ^ (ex - ez) * 2 ^ (ez - emin)).
    { unfold X. rewrite <- Z.mul_assoc, <- Z.pow_add_r by lia. do 2 f_equal. lia. }
    assert (HY : Y = Zpos my * 2 ^ (ey - ez) * 2 ^ (ez - emin)).
    { unfold Y. rewrite <- Z.mul_assoc, <- Z.pow_add_r by lia. do 2 f_equal. lia. }
    set (M := Zpos mx * 2 ^ (ex - ez) + Zpos my * 2 ^ (ey - ez)).
    assert (HM : M * 2 ^ (ez - emin) = X + Y) by (unfold M; lia).
    assert (HMpos : 0 < M) by nia.
    destruct M as [ | pM | pM] eqn:HeqM; try lia. cbn [binary_normalize].
    assert (Hgrid : (X + Y) mod 2 ^ w = 0).
    { pose proof (pow2_pos w Hw). rewrite Zplus_mod, Gx, Gy. reflexivity. }
    pose proof (grid_exact pM ez w ltac:(lia) Hw) as Hg. cbn zeta in Hg.
    rewrite HM in Hg. specialize (Hg Hgrid ltac:(lia)).
    destruct (binary_round_spec false pM ez ltac:(lia))
      as (p & e' & Hcan & _ & Hexact & Hres).
    rewrite HM in Hexact. specialize (Hexact Hg).
    destruct (binary_round_le false pM ez mt et ltac:(lia) Bt)
      as (p' & e'' & Hres' & Bp & _); [rewrite HM; lia | ].
    rewrite Hres' in Hres |- *.
    destruct (e' <=? emax - prec); [ | discriminate].
    injection Hres as -> ->. cbn [ulps cond_Zopp].
    repeat split; assumption.
Qed.

(** The sum of the builtin is exact on a grid: amounts that are multiples
    of [2 ^ w] units, with a total not above a float below
    [2 ^ (53 + w)] units, are summed without rounding. *)
Lemma fold_fadd_exact t w xs : forall acc,
  valid t -> is_finite t = true -> ulps t < 2 ^ (53 + w) -> 0 <= w ->
  amount acc -> ulps acc mod 2 ^ w = 0 ->
  Forall (fun x => amount x /\ ulps x mod 2 ^ w = 0) xs ->
  ulps acc + exact_sum xs <= ulps t ->
  amount (fold_left fadd xs acc) /\
  ulps (fold_left fadd xs acc) = ulps acc + exact_sum xs.
Proof.
  induction xs as [ | x xs IH]; intros acc Vt Ft Ht Hw Ha Ga Hxs Hle.
  - cbn. split; [assumption | lia].
  - apply Forall_cons_iff in Hxs as [[Hx Gx] Hxs].
    cbn [fold_left exact_sum fold_right] in *. fold (exact_sum xs) in *.
    assert (Hpos : 0 <= exact_sum xs).
    { clear - Hxs. induction Hxs as [ | y ys [(_ & _ & Hy) _] _ IHys];
        cbn [exact_sum fold_right]; [lia | ]. fold (exact_sum ys). lia. }
    destruct Ha as (Va & Fa & Ha0). destruct Hx as (Vx & Fx & Hx0).
    destruct (fadd_exact acc x t w) as (V & F & E); try assumption; try lia.
    destruct (IH (fadd acc x)) as [Hr Er]; try assumption.
    + repeat split; try assumption. lia.
    + rewrite E, Zplus_mod, Ga, Gx. reflexivity.
    + lia.
    + split; [assumption | lia].
Qed.

(** * Further properties: the history of an asset *)

(** X1: the history only grows, by at most one record for each call, and
    the records added carry the dates of the first calls, in the order of
    the calls: no call after a no-op records anything. *)
Theorem history_is_append_only self ds :
  let self' := amortize_all self ds in
  exists new,
    amortization_history self' = amortization_history self ++ new /\
    (List.length new <= List.length ds)%nat /\
    map date new = firstn (List.length new) ds.
Proof.
  revert self. induction ds as [ | d ds IH]; intros self; cbn zeta.
  - exists []. rewrite app_nil_r. repeat split. cbn. lia.
  - destruct (fle (book_value self) zero) eqn:Hz.
    + rewrite (amortize_all_noop self (d :: ds) Hz).
      exists []. rewrite app_nil_r. repeat split. cbn. lia.
    + cbn [amortize_all]. rewrite amortize_active by assumption.
      match goal with
      | |- context [amortize_all ?s ds] => destruct (IH s) as (new & Hh & Hlen & Hd)
      end.
      cbn [append_history set_book_value amortization_history] in Hh.
      rewrite <- app_assoc in Hh. cbn [app] in Hh.
      eexists. split; [exact Hh | ]. cbn [List.length map firstn date].
      split; [lia | ]. f_equal. exact Hd.
Qed.

(** X2: no sequence of calls changes the name, the total cost, the period,
    the start date or the monthly amount of an asset. *)
Theorem parameters_never_change self ds :
  let self' := amortize_all self ds in
  name self' = name self /\
  total_cost self' = total_cost self /\
  amortization_period_months self' = amortization_period_months self /\
  start_date self' = start_date self /\
  monthly_amortization_amount self' = monthly_amortization_amount self.
Proof.
  revert self. induction ds as [ | d ds IH]; intros self; cbn zeta.
  - repeat split.
  - cbn [amortize_all].
    destruct (IH (fst (amortize_for_period self d))) as (-> & -> & -> & -> & ->).
    apply amortize_frame.
Qed.

Lemma running_app b xs a :
  running b (xs ++ [a]) = running b xs ++ [fsub (fold_left fsub xs b) a].
Proof.
  revert b. induction xs as [ | x xs IH]; intros b; cbn [running app fold_left].
  - reflexivity.
  - rewrite IH. reflexivity.
Qed.

Lemma last_cons {A : Type} (c : A) l d : last (c :: l) d = last l c.
Proof.
  revert c d. induction l as [ | x l IH]; intros c d; [reflexivity | ].
  change (last (c :: x :: l) d) with (last (x :: l) d).
  rewrite (IH x d), (IH x c). reflexivity.
Qed.

Lemma last_running xs b : last (running b xs) b = fold_left fsub xs b.
Proof.
  revert b. induction xs as [ | x xs IH]; intros b; [reflexivity | ].
  cbn [running fold_left]. rewrite last_cons. apply IH.
Qed.

Lemma amortize_all_running self ds :
  map remaining_book_value (amortization_history self)
  = running (total_cost self) (amounts (amortization_history self)) ->
  book_value self
  = fold_left fsub (amounts (amortization_history self)) (total_cost self) ->
  let self' := amortize_all self ds in
  map remaining_book_value (amortization_history self')
  = running (total_cost self') (amounts (amortization_history self')).
Proof.
  revert self. induction ds as [ | d ds IH]; intros self Hr Hb; [exact Hr | ].
  cbn [amortize_all]. cbn zeta.
  destruct (fle (book_value self) zero) eqn:Hz.
  - rewrite amortize_noop by assumption. cbn [fst]. apply IH; assumption.
  - rewrite amortize_active by assumption. apply IH.
    + cbn [append_history set_book_value amortization_history total_cost].
      rewrite amounts_app, map_app, running_app, Hr, <- Hb. reflexivity.
    + cbn [append_history set_book_value book_value amortization_history total_cost].
      rewrite amounts_app, fold_left_app, <- Hb. reflexivity.
Qed.

(** X3: in the history of a constructed asset every record shows the
    balance it left: the first one the total cost less its amount, each
    later one the balance of the record before less its amount (float
    subtraction); and the book value of the asset is the balance of the
    last record, the total cost when there is none. *)
Theorem history_shows_running_balance nm total n sd self out ds :
  init nm total n sd = Ok (self, out) ->
  let self' := amortize_all self ds in
  map remaining_book_value (amortization_history self')
  = running total (amounts (amortization_history self')) /\
  book_value self'
  = last (map remaining_book_value (amortization_history self')) total.
Proof.
  intros Hi. cbn zeta.
  assert (Ht : total_cost (amortize_all self ds) = total).
  { destruct (amortize_all_frame self ds) as [-> _].
    apply init_inv in Hi as (_ & y & _ & _ & ->). reflexivity. }
  assert (Hb : book_value (amortize_all self ds)
               = fold_left fsub
                   (amounts (amortization_history (amortize_all self ds))) total).
  { rewrite <- Ht. apply amortize_all_chain.
    apply init_inv in Hi as (_ & y & _ & _ & ->). reflexivity. }
  assert (Hr : map remaining_book_value (amortization_history (amortize_all self ds))
               = running total (amounts (amortization_history (amortize_all self ds)))).
  { rewrite <- Ht. apply amortize_all_running;
      apply init_inv in Hi as (_ & y & _ & _ & ->); reflexivity. }
  split; [exact Hr | ]. rewrite Hr, last_running. exact Hb.
Qed.

Lemma history_shows_running_balance_witness :
  exists self out,
    init "Office Renovation" (dec2 10000) 3 new_year = Ok (self, out) /\
    let self' := amortize_all self (months_from 0 5) in
    map remaining_book_value (amortization_history self')
    = running (dec2 10000) (amounts (amortization_history self')) /\
    book_value self'
    = last (map remaining_book_value (amortization_history self')) (dec2 10000).
Proof.
  eexists; eexists. split; [vm_compute; reflexivity | ].
  eapply (history_shows_running_balance
            "Office Renovation" (dec2 10000) 3 new_year).
  vm_compute; reflexivity.
Defined.

(** The monthly amount of an asset constructed with an amount for total
    cost: a zero, a positive float or the positive infinity, never NaN. *)
Lemma round2_shape x :
  (exists s, x = S754_zero s) \/ (exists p e, x = S754_finite false p e)
  \/ x = S754_infinity false ->
  (exists s, Py.round2 x = S754_zero s)
  \/ (exists p e, Py.round2 x = S754_finite false p e)
  \/ Py.round2 x = S754_infinity false.
Proof.
  intros [[s ->] | [(p & e & ->) | ->]]; cbn [Py.round2]; eauto.
  destruct (0 <=? e); [eauto | ]. unfold Py.hundredths.
  destruct (Py.div_half_even _ _) as [ | k | k]; eauto.
  destruct (fdiv_finite_shape false k 0 100 0) as [_ [-> | [(q & e' & ->) | ->]]];
    eauto 6.
Qed.

Lemma init_monthly_shape nm total n sd self out :
  amount total -> init nm total n sd = Ok (self, out) ->
  let m := monthly_amortization_amount self in
  (exists s, m = S754_zero s) \/ (exists p e, m = S754_finite false p e)
  \/ m = S754_infinity false.
Proof.
  intros (V & F & H) Hi. apply init_inv in Hi as (Hn & y & Hy & _ & ->).
  destruct (float_of_int_pos n y Hn Hy) as (p & e & ->).
  cbn [monthly_amortization_amount]. cbn zeta. apply round2_shape.
  destruct (ulps_nonneg_cases total V F H) as [[s ->] | (mt & et & -> & _)].
  - left. exists s. destruct s; reflexivity.
  - destruct (fdiv_finite_shape false mt et p e) as [_ [-> | [(q & e' & ->) | ->]]];
      eauto 6.
Qed.

(** An amount that the monthly amount is not below does not exceed it. *)
Lemma not_below_is_above m b :
  valid m ->
  (exists s, m = S754_zero s) \/ (exists p e, m = S754_finite false p e)
  \/ m = S754_infinity false ->
  amount b -> flt m b = false -> fle b m = true.
Proof.
  intros Vm Hm (Vb & Fb & Hb) Hlt.
  destruct Hm as [[s ->] | [(p & e & ->) | ->]].
  - rewrite flt_ulps in Hlt by (auto; reflexivity).
    rewrite fle_ulps by (auto; reflexivity).
    apply Z.ltb_ge in Hlt. apply Z.leb_le. exact Hlt.
  - rewrite flt_ulps in Hlt by (auto; reflexivity).
    rewrite fle_ulps by (auto; reflexivity).
    apply Z.ltb_ge in Hlt. apply Z.leb_le. exact Hlt.
  - destruct b as [sb | sb | | sb mb eb]; try discriminate; try reflexivity;
      destruct sb; reflexivity.
Qed.

Lemma fle_refl_amount x : amount x -> fle x x = true.
Proof.
  intros (V & F & _). rewrite fle_ulps by assumption. apply Z.leb_refl.
Qed.

Lemma amortize_records_in_bounds self d total :
  sound self -> amount total ->
  ulps (book_value self) <= ulps total ->
  (let m := monthly_amortization_amount self in
   (exists s, m = S754_zero s) \/ (exists p e, m = S754_finite false p e)
   \/ m = S754_infinity false) ->
  Forall (record_in_bounds total (monthly_amortization_amount self))
    (amortization_history self) ->
  Forall (record_in_bounds total (monthly_amortization_amount self))
    (amortization_history (fst (amortize_for_period self d))).
Proof.
  intros (Hb & Vm & Nm) Ht Hle Hm Hall. cbn zeta in Hm.
  destruct (fle (book_value self) zero) eqn:Hz.
  - rewrite amortize_noop by assumption. exact Hall.
  - rewrite amortize_active by assumption.
    cbn [append_history set_book_value amortization_history].
    apply Forall_app. split; [exact Hall | ]. constructor; [ | constructor].
    unfold record_in_bounds. cbn [amortized_amount remaining_book_value].
    destruct Ht as (Vt & Ft & Ht0).
    unfold Py.min.
    destruct (flt (monthly_amortization_amount self) (book_value self)) eqn:Hlt.
    + destruct (monthly_below_amount _ _ Vm Nm Hb Hlt) as (Hma & Hlt').
      pose proof Hma as (Vm' & Fm & Hm0). destruct Hb as (Vb & Fb & Hb0).
      destruct (fsub_lt_bounds _ _ Vb Vm' Fb Fm Hm0 Hlt') as (V & F & [H0 H1] & _).
      repeat split.
      * apply ulps_fle_zero; assumption.
      * apply fle_refl_amount; assumption.
      * apply ulps_fle_zero; try assumption. lia.
      * rewrite fle_ulps by assumption. apply Z.leb_le. lia.
    + rewrite fsub_self by apply Hb. pose proof Hb as (Vb & Fb & Hb0).
      repeat split.
      * apply ulps_fle_zero; assumption.
      * apply not_below_is_above; assumption.
      * apply ulps_fle_zero; assumption.
Qed.

(** X4: in the history of an asset constructed with a finite non-negative
    total cost, every amortized amount is between 0 and the monthly
    amount, and every remaining book value between 0 and the total
    cost. *)
Theorem records_stay_in_bounds nm total n sd self out ds :
  valid total -> is_finite total = true -> fle zero total = true ->
  init nm total n sd = Ok (self, out) ->
  Forall
    (fun t =>
       fle zero (amortized_amount t) = true /\
       fle (amortized_amount t) (monthly_amortization_amount self) = true /\
       fle zero (remaining_book_value t) = true /\
       fle (remaining_book_value t) total = true)
    (amortization_history (amortize_all self ds)).
Proof.
  intros V F H0 Hi.
  assert (Hamount : amount total)
    by (repeat split; try assumption; apply fle_zero_ulps; assumption).
  pose proof (init_sound _ _ _ _ _ _ Hamount Hi) as Hs.
  pose proof (init_monthly_shape _ _ _ _ _ _ Hamount Hi) as Hm.
  assert (Hinit : book_value self = total /\ amortization_history self = [])
    by (apply init_inv in Hi as (_ & y & _ & _ & ->); auto).
  destruct Hinit as [Hb Hh].
  change (Forall (record_in_bounds total (monthly_amortization_amount self))
            (amortization_history (amortize_all self ds))).
  assert (Hgen : forall s,
             sound s -> ulps (book_value s) <= ulps total ->
             monthly_amortization_amount s = monthly_amortization_amount self ->
             Forall (record_in_bounds total (monthly_amortization_amount self))
               (amortization_history s) ->
             Forall (record_in_bounds total (monthly_amortization_amount self))
               (amortization_history (amortize_all s ds))).
  { clear Hs Hb Hh. induction ds as [ | d ds IH]; intros s Hs Hle Hms Hall;
      [exact Hall | ].
    cbn [amortize_all].
    destruct (amortize_sound s d Hs) as [Hs' Hle'].
    destruct (amortize_frame s d) as (_ & _ & _ & _ & Hm').
    apply IH; try assumption.
    - cbn zeta in Hle'. lia.
    - congruence.
    - rewrite <- Hms. apply amortize_records_in_bounds; try assumption.
      + cbn zeta. rewrite Hms. exact Hm.
      + rewrite Hms. exact Hall. }
  apply Hgen; try assumption; try reflexivity.
  - rewrite Hb. lia.
  - rewrite Hh. constructor.
Qed.

Lemma records_stay_in_bounds_witness :
  exists self out,
    init "Office Renovation" (dec2 10000) 3 new_year = Ok (self, out) /\
    Forall
      (fun t =>
         fle zero (amortized_amount t) = true /\
         fle (amortized_amount t) (monthly_amortization_amount self) = true /\
         fle zero (remaining_book_value t) = true /\
         fle (remaining_book_value t) (dec2 10000) = true)
      (amortization_history (amortize_all self (months_from 0 5))).
Proof.
  eexists; eexists. split; [vm_compute; reflexivity | ].
  eapply (records_stay_in_bounds "Office Renovation" (dec2 10000) 3 new_year);
    by_computation.
Defined.

(** X5: the last period.  A call that finds a finite book value above 0
    and not above the monthly amount records the whole book value, leaves
    a book value of exactly [+0.0], and after it no call changes the asset
    any more. *)
Theorem last_period_clears_the_books self d ds :
  is_finite (book_value self) = true ->
  fle (book_value self) zero = false ->
  fle (book_value self) (monthly_amortization_amount self) = true ->
  let self' := fst (amortize_for_period self d) in
  amortization_history self'
  = amortization_history self ++ [mk_transaction d (book_value self) zero] /\
  book_value self' = zero /\
  amortize_all self' ds = self'.
Proof.
  intros F Hz Hle. cbn zeta. rewrite amortize_last_period by assumption.
  cbn [append_history set_book_value amortization_history book_value].
  repeat split. apply amortize_all_noop. reflexivity.
Qed.

Lemma last_period_clears_the_books_witness :
  let self := mk_expense "Office Renovation" (dec2 10000) 3 new_year
                (dec2 1) (dec2 3333) [] in
  let self' := fst (amortize_for_period self new_year) in
  amortization_history self' = [mk_transaction new_year (dec2 1) zero] /\
  book_value self' = zero /\
  amortize_all self' (months_from 1 3) = self'.
Proof.
  apply (last_period_clears_the_books
           (mk_expense "Office Renovation" (dec2 10000) 3 new_year
              (dec2 1) (dec2 3333) []) new_year (months_from 1 3));
    by_computation.
Defined.

(** X6: a total cost that is zero or negative is accepted by the
    constructor, and the asset is never amortized: every call is a no-op
    that prints the fully-amortized line, and the history stays empty. *)
Theorem non_positive_cost_is_never_amortized nm total n sd self out ds d :
  init nm total n sd = Ok (self, out) ->
  fle total zero = true ->
  amortize_all self ds = self /\
  amortization_history (amortize_all self ds) = [] /\
  amortize_for_period (amortize_all self ds) d = (self, [FullyAmortized d nm]).
Proof.
  intros Hi Hz.
  assert (H : book_value self = total /\ amortization_history self = [] /\
              name self = nm)
    by (apply init_inv in Hi as (_ & y & _ & _ & ->); auto).
  destruct H as (Hb & Hh & Hn).
  assert (Hz' : fle (book_value self) zero = true) by (rewrite Hb; exact Hz).
  rewrite (amortize_all_noop self ds Hz'), Hh, (amortize_noop self d Hz'), Hn.
  auto.
Qed.

Lemma non_positive_cost_is_never_amortized_witness :
  exists self out,
    init "Office Renovation" (SFopp (dec2 50000)) 12 new_year = Ok (self, out) /\
    amortize_all self (months_from 0 12) = self /\
    amortization_history (amortize_all self (months_from 0 12)) = [] /\
    amortize_for_period (amortize_all self (months_from 0 12)) new_year
    = (self, [FullyAmortized new_year "Office Renovation"]).
Proof.
  eexists; eexists. split; [vm_compute; reflexivity | ].
  eapply (non_positive_cost_is_never_amortized
            "Office Renovation" (SFopp (dec2 50000)) 12 new_year);
    by_computation.
Defined.

(** X7: for a finite non-negative total cost the constructor stores a
    monthly amount that is a float of the machine, is not NaN and is not
    below zero; it is zero when the total cost is. *)
Theorem monthly_amount_is_not_negative nm total n sd self out :
  valid total -> is_finite total = true -> fle zero total = true ->
  init nm total n sd = Ok (self, out) ->
  valid (monthly_amortization_amount self) /\
  monthly_amortization_amount self <> S754_nan /\
  fle zero (monthly_amortization_amount self) = true /\
  (feq total zero = true -> feq (monthly_amortization_amount self) zero = true).
Proof.
  intros V F H0 Hi.
  assert (Hamount : amount total)
    by (repeat split; try assumption; apply fle_zero_ulps; assumption).
  destruct (init_sound _ _ _ _ _ _ Hamount Hi) as (_ & Vm & _).
  pose proof (init_monthly_shape _ _ _ _ _ _ Hamount Hi) as Hm. cbn zeta in Hm.
  split; [exact Vm | ]. split; [ | split].
  - destruct Hm as [[s ->] | [(p & e & ->) | ->]]; discriminate.
  - destruct Hm as [[s ->] | [(p & e & ->) | ->]]; reflexivity.
  - intros Hz. destruct (feq_zero_inv _ Hz) as [s ->].
    apply init_inv in Hi as (Hn & y & Hy & _ & ->).
    destruct (float_of_int_pos n y Hn Hy) as (p & e & ->).
    destruct s; reflexivity.
Qed.

Lemma monthly_amount_is_not_negative_witness :
  exists self out,
    init "Office Renovation" (dec2 10000) 3 new_year = Ok (self, out) /\
    valid (monthly_amortization_amount self) /\
    monthly_amortization_amount self <> S754_nan /\
    fle zero (monthly_amortization_amount self) = true.
Proof.
  eexists; eexists. split; [vm_compute; reflexivity | ].
  edestruct (monthly_amount_is_not_negative
               "Office Renovation" (dec2 10000) 3 new_year)
    as (H1 & H2 & H3 & _);
    [by_computation | by_computation | by_computation
     | vm_compute; reflexivity | ].
  auto.
Defined.

(** * Further properties: the total [main] prints *)

Lemma feq_ulps x y :
  valid x -> valid y -> is_finite x = true -> is_finite y = true ->
  feq x y = (ulps x =? ulps y).
Proof.
  intros. unfold feq, SFeqb. rewrite SFcompare_ulps by assumption.
  destruct (Z.eqb_spec (ulps x) (ulps y)) as [E | E].
  - rewrite E, Z.compare_refl. reflexivity.
  - destruct (Z.compare_spec (ulps x) (ulps y)); [contradiction | | ]; reflexivity.
Qed.

Lemma amortize_amounts_on_grid w self d :
  on_grid w self ->
  Forall (fun x => amount x /\ ulps x mod 2 ^ w = 0)
    (amounts (amortization_history self)) ->
  Forall (fun x => amount x /\ ulps x mod 2 ^ w = 0)
    (amounts (amortization_history (fst (amortize_for_period self d)))).
Proof.
  intros ((Hb & Vm & Nm) & Gb & _ & Gm) Hall.
  destruct (fle (book_value self) zero) eqn:Hz.
  - rewrite amortize_noop by assumption. exact Hall.
  - rewrite amortize_active by assumption.
    cbn [append_history set_book_value amortization_history].
    rewrite amounts_app. cbn [amortized_amount].
    apply Forall_app. split; [exact Hall | ]. constructor; [ | constructor].
    unfold Py.min.
    destruct (flt (monthly_amortization_amount self) (book_value self)) eqn:Hlt.
    + destruct (monthly_below_amount _ _ Vm Nm Hb Hlt) as (Hma & _). auto.
    + auto.
Qed.

Lemma amortize_all_amounts_on_grid w self ds :
  0 <= w -> on_grid w self ->
  Forall (fun x => amount x /\ ulps x mod 2 ^ w = 0)
    (amounts (amortization_history self)) ->
  Forall (fun x => amount x /\ ulps x mod 2 ^ w = 0)
    (amounts (amortization_history (amortize_all self ds))).
Proof.
  intros Hw. revert self. induction ds as [ | d ds IH]; intros self Hg Hall;
    [exact Hall | ].
  cbn [amortize_all]. apply IH.
  - apply (amortize_grid w self d Hw Hg).
  - apply amortize_amounts_on_grid; assumption.
Qed.

(** The float sum of the amortized amounts of an asset that starts on a
    grid with an empty history: nothing is rounded. *)
Lemma sum_on_grid w self ds :
  0 <= w -> on_grid w self ->
  amortization_history self = [] -> book_value self = total_cost self ->
  let self' := amortize_all self ds in
  let total_amortized := Py.sum (amounts (amortization_history self')) in
  amount total_amortized /\
  ulps total_amortized = ulps (total_cost self) - ulps (book_value self') /\
  feq (fadd total_amortized (book_value self')) (total_cost self) = true.
Proof.
  intros Hw Hg Hh Hb. cbn zeta.
  destruct (amortize_all_grid w self ds Hw Hg) as (Hg' & Hsum & _).
  cbn zeta in Hg', Hsum. rewrite Hh, Hb in Hsum. cbn in Hsum.
  pose proof (amortize_all_amounts_on_grid w self ds Hw Hg) as Hall.
  rewrite Hh in Hall. specialize (Hall (Forall_nil _)).
  destruct Hg' as (((Vb & Fb & Hb0) & _) & Gb' & _ & _).
  destruct Hg as (((Vt & Ft & Ht0) & _) & Gt & Bt & _).
  rewrite Hb in Vt, Ft, Ht0, Gt, Bt.
  set (total := total_cost self) in *.
  destruct (fold_fadd_exact total w
              (amounts (amortization_history (amortize_all self ds))) zero)
    as [(Vs & Fs & Hs0) Es]; try assumption.
  - apply amount_zero.
  - apply Z.mod_0_l. apply Z.neq_sym, Z.lt_neq, pow2_pos. exact Hw.
  - cbn [ulps zero]. lia.
  - cbn [ulps zero] in Es. unfold Py.sum.
    split; [repeat split; assumption | ]. split; [lia | ].
    destruct (fadd_exact
                (fold_left fadd
                   (amounts (amortization_history (amortize_all self ds))) zero)
                (book_value (amortize_all self ds)) total w)
      as (Va & Fa & Ea); try assumption; try lia.
    + rewrite Es.
      replace (0 + exact_sum (amounts (amortization_history (amortize_all self ds))))
        with (ulps total - ulps (book_value (amortize_all self ds))) by lia.
      rewrite Zminus_mod, Gt, Gb'. reflexivity.
    + rewrite feq_ulps by assumption. apply Z.eqb_eq. lia.
Qed.

(** X8: the sum [main] takes.  When the total cost and the monthly amount
    are on a common grid (whole multiples of a power of two, as whole
    numbers below 2^53 are), after any sequence of calls the float sum of
    the amortized amounts, as [sum] computes it, has lost nothing: it is
    the total cost less the book value, and adding the book value to it
    gives the total cost again, in float arithmetic. *)
Theorem float_sum_is_exact_on_grid nm total n sd self out ds w :
  amount total ->
  init nm total n sd = Ok (self, out) ->
  0 <= w ->
  ulps total mod 2 ^ w = 0 -> ulps total < 2 ^ (53 + w) ->
  ulps (monthly_amortization_amount self) mod 2 ^ w = 0 ->
  let self' := amortize_all self ds in
  let total_amortized := Py.sum (amounts (amortization_history self')) in
  is_finite total_amortized = true /\
  ulps total_amortized = ulps total - ulps (book_value self') /\
  feq (fadd total_amortized (book_value self')) total = true.
Proof.
  intros Hamount Hi Hw Gt Bt Gm. cbn zeta.
  destruct (init_on_grid _ _ _ _ _ _ w Hamount Hi Gt Bt Gm)
    as (Hg & Hb & Htc & Hh).
  destruct (sum_on_grid w self ds Hw Hg Hh) as ((_ & Fs & _) & Es & Hfeq).
  - rewrite Hb, Htc. reflexivity.
  - rewrite Htc in Es, Hfeq. auto.
Qed.

Lemma float_sum_is_exact_on_grid_witness :
  exists self out,
    init "Office Renovation" (dec2 12000000) 60 new_year = Ok (self, out) /\
    let self' := amortize_all self (months_from 0 40) in
    let total_amortized := Py.sum (amounts (amortization_history self')) in
    is_finite total_amortized = true /\
    ulps total_amortized = ulps (dec2 12000000) - ulps (book_value self') /\
    feq (fadd total_amortized (book_value self')) (dec2 12000000) = true.
Proof.
  eexists; eexists. split; [vm_compute; reflexivity | ].
  eapply (float_sum_is_exact_on_grid
            "Office Renovation" (dec2 12000000) 60 new_year _ _
            (months_from 0 40) 1074);
    [repeat split | | | | | ]; by_computation.
Defined.

(** * Further properties: the dates of the simulation *)

Lemma check_fields_inv y m d :
  pydate.check_fields y m d = true ->
  1 <= y <= 9999 /\ 1 <= m <= 12 /\ 1 <= d /\
  exists n, calendar.monthrange y m = Ok n /\ d <= n.
Proof.
  unfold pydate.check_fields. intros H.
  repeat (apply andb_true_iff in H as [H ?]).
  destruct (calendar.monthrange y m) as [n | e]; [ | discriminate].
  repeat match goal with
         | H : (_ <=? _) = true |- _ => apply Z.leb_le in H
         end.
  repeat split; try lia. exists n. split; [reflexivity | lia].
Qed.

Lemma check_fields_intro y m d n :
  1 <= y <= 9999 -> 1 <= m <= 12 -> 1 <= d ->
  calendar.monthrange y m = Ok n -> d <= n ->
  pydate.check_fields y m d = true.
Proof.
  intros Hy Hm Hd Hn Hdn. unfold pydate.check_fields. rewrite Hn.
  repeat (apply andb_true_iff; split); apply Z.leb_le; lia.
Qed.

(** Every month has 28 to 31 days. *)
Lemma monthrange_bounds y m :
  1 <= m <= 12 -> exists n, calendar.monthrange y m = Ok n /\ 28 <= n <= 31.
Proof.
  intros Hm. unfold calendar.monthrange.
  replace ((1 <=? m) && (m <=? 12)) with true
    by (symmetry; apply andb_true_iff; split; apply Z.leb_le; lia).
  eexists. split; [reflexivity | ].
  assert (Hcases : m = 1 \/ m = 2 \/ m = 3 \/ m = 4 \/ m = 5 \/ m = 6 \/ m = 7
                   \/ m = 8 \/ m = 9 \/ m = 10 \/ m = 11 \/ m = 12) by lia.
  repeat (destruct Hcases as [-> | Hcases]); try subst m; cbn;
    try lia; destruct (calendar.isleap y); lia.
Qed.

(** One month on: the month that follows, the year that follows after
    December, the day clipped to the new month; [ValueError] after
    December 9999. *)
Lemma add_one_month_spec d :
  pydate.wf d ->
  let y' := if datetime.month d =? 12 then datetime.year d + 1
            else datetime.year d in
  let m' := if datetime.month d =? 12 then 1 else datetime.month d + 1 in
  (y' <= 9999 ->
   exists d', relativedelta.add_one_month d = Ok d' /\ pydate.wf d' /\
     datetime.year d' = y' /\ datetime.month d' = m' /\
     datetime.day d' <= datetime.day d /\
     (datetime.day d <= 28 -> datetime.day d' = datetime.day d) /\
     pydate.lt d d') /\
  (9999 < y' -> relativedelta.add_one_month d = Raise ValueError).
Proof.
  destruct d as [y m dd]. unfold pydate.wf. cbn [datetime.year datetime.month datetime.day].
  intros Hwf. apply check_fields_inv in Hwf as (Hy & Hm & Hd & n0 & _ & Hn0).
  cbn zeta. unfold relativedelta.add_one_month.
  cbn [datetime.year datetime.month datetime.day].
  assert (Hnorm : (if 12 <? m + 1 then (y + 1, m + 1 - 12)
                   else if m + 1 <? 1 then (y - 1, m + 1 + 12) else (y, m + 1))
                  = (if m =? 12 then y + 1 else y, if m =? 12 then 1 else m + 1)).
  { destruct (Z.eqb_spec m 12) as [-> | Hne]; [reflexivity | ].
    replace (12 <? m + 1) with false by (symmetry; apply Z.ltb_ge; lia).
    replace (m + 1 <? 1) with false by (symmetry; apply Z.ltb_ge; lia).
    reflexivity. }
  rewrite Hnorm. clear Hnorm.
  set (y' := if m =? 12 then y + 1 else y).
  set (m' := if m =? 12 then 1 else m + 1).
  assert (Hm' : 1 <= m' <= 12) by (unfold m'; destruct (Z.eqb_spec m 12); lia).
  assert (Hy' : 1 <= y') by (unfold y'; destruct (Z.eqb_spec m 12); lia).
  destruct (monthrange_bounds y' m' Hm') as (n & Hn & Hnb).
  unfold bind. rewrite Hn. unfold pydate.make. split.
  - intros Hle.
    rewrite (check_fields_intro y' m' (Z.min n dd) n) by (try assumption; lia).
    eexists. split; [reflexivity | ]. unfold pydate.wf.
    cbn [datetime.year datetime.month datetime.day].
    split; [apply (check_fields_intro y' m' (Z.min n dd) n); try assumption; lia | ].
    repeat split; try lia.
    unfold pydate.lt. cbn [datetime.year datetime.month datetime.day].
    unfold y', m'. destruct (Z.eqb_spec m 12); lia.
  - intros Hgt. unfold pydate.check_fields.
    replace (y' <=? 9999) with false by (symmetry; apply Z.leb_gt; lia).
    rewrite andb_false_r. reflexivity.
Qed.

Lemma wf_inv d :
  pydate.wf d ->
  1 <= datetime.year d <= 9999 /\ 1 <= datetime.month d <= 12 /\
  1 <= datetime.day d.
Proof.
  unfold pydate.wf. intros H.
  apply check_fields_inv in H as (Hy & Hm & Hd & _). auto.
Qed.

Lemma month_at_zero d : pydate.wf d -> month_at d 0 = d.
Proof.
  intros H. apply wf_inv in H as (_ & Hm & _).
  destruct d as [y m dd]. unfold month_at.
  cbn [datetime.year datetime.month datetime.day] in *.
  rewrite Z.add_0_r, Z.div_small, Z.mod_small by lia. f_equal; lia.
Qed.

Lemma month_at_year_le d i i' :
  (i <= i')%nat ->
  datetime.year (month_at d i) <= datetime.year (month_at d i').
Proof.
  intros H. unfold month_at. cbn [datetime.year].
  apply Z.add_le_mono_l. apply Z.div_le_mono; lia.
Qed.

Lemma increasing_firstn n ds : increasing ds -> increasing (firstn n ds).
Proof.
  revert ds. induction n as [ | n IH]; intros ds H; [exact I | ].
  destruct ds as [ | d ds]; [exact I | ].
  cbn [firstn increasing]. destruct H as [H1 H2]. split; [ | apply IH; exact H2].
  destruct n as [ | n]; [exact I | ].
  destruct ds as [ | d' ds]; [exact I | ]. exact H1.
Qed.

Lemma month_at_one d :
  1 <= datetime.month d <= 12 ->
  datetime.year (month_at d 1)
  = (if datetime.month d =? 12 then datetime.year d + 1 else datetime.year d) /\
  datetime.month (month_at d 1)
  = (if datetime.month d =? 12 then 1 else datetime.month d + 1).
Proof.
  intros Hm. unfold month_at. cbn [datetime.year datetime.month].
  change (Z.of_nat 1) with 1.
  destruct (Z.eqb_spec (datetime.month d) 12); Z.div_mod_to_equations; lia.
Qed.

(** Months are counted the same from the month that follows. *)
Lemma month_at_shift d d' i :
  1 <= datetime.month d <= 12 ->
  year_month d' = year_month (month_at d 1) ->
  year_month (month_at d' i) = year_month (month_at d (S i)).
Proof.
  intros Hm H. unfold year_month in *. injection H as Hy' Hm'.
  unfold month_at in *. cbn [datetime.year datetime.month] in *.
  rewrite Hy', Hm', Nat2Z.inj_succ. change (Z.of_nat 1) with 1.
  f_equal; Z.div_mod_to_equations; lia.
Qed.

Lemma month_at_year_month d i :
  month_at d i
  = datetime.mk_date (fst (year_month (month_at d i)))
      (snd (year_month (month_at d i))) (datetime.day d).
Proof. reflexivity. Qed.

(** The iterations of the loop of [main] after the first: each one moves
    the date one month on. *)
Lemma simulation_loop_advancing k :
  forall a self cur,
  pydate.wf cur ->
  (datetime.year (month_at cur k) <= 9999 ->
   exists dates,
     simulation_loop (seq (S a) k) self cur
     = Ok (amortize_all self dates, last dates cur,
           printed_by_calls self dates) /\
     List.length dates = k /\
     increasing (cur :: dates) /\
     Forall pydate.wf dates /\
     map year_month dates = map year_month (map (month_at cur) (seq 1 k)) /\
     Forall (fun d => datetime.day d <= datetime.day cur) dates /\
     (datetime.day cur <= 28 -> dates = map (month_at cur) (seq 1 k))) /\
  (9999 < datetime.year (month_at cur k) ->
   simulation_loop (seq (S a) k) self cur = Raise ValueError).
Proof.
  induction k as [ | k IH]; intros a self cur Hwf.
  - pose proof (wf_inv cur Hwf) as (Hy & _).
    rewrite (month_at_zero cur Hwf). split; [ | lia].
    intros _. exists []. cbn. repeat split; auto.
  - pose proof (wf_inv cur Hwf) as (Hy & Hm & Hd).
    destruct (month_at_one cur Hm) as [Hy1 Hm1].
    destruct (add_one_month_spec cur Hwf) as [Hok Hraise]. cbn zeta in Hok, Hraise.
    rewrite <- Hy1 in Hok, Hraise. rewrite <- Hm1 in Hok.
    pose proof (month_at_year_le cur 1 (S k) ltac:(lia)) as Hmono.
    cbn [seq simulation_loop]. replace (0 <? S a)%nat with true by reflexivity.
    destruct (Z_le_gt_dec (datetime.year (month_at cur 1)) 9999) as [Hle | Hgt].
    + destruct (Hok Hle) as (d' & Hadd & Hwf' & Hy' & Hm' & Hdle & Hdeq & Hlt).
      rewrite Hadd. cbn [bind].
      assert (Hym : year_month d' = year_month (month_at cur 1))
        by (unfold year_month; rewrite Hy', Hm'; reflexivity).
      assert (Hshift : forall i,
                 year_month (month_at d' i) = year_month (month_at cur (S i)))
        by (intros i; apply month_at_shift; assumption).
      assert (Hlast : datetime.year (month_at d' k)
                      = datetime.year (month_at cur (S k)))
        by (pose proof (Hshift k) as E; unfold year_month in E;
            injection E as E _; exact E).
      destruct (amortize_for_period self d') as [self1 out] eqn:Hcall.
      destruct (IH (S a) self1 d' Hwf') as [IHok IHraise].
      rewrite Hlast in IHok, IHraise. split.
      * intros Hend.
        destruct (IHok Hend) as (dates & Hloop & Hlen & Hinc & Hall & Hyms & Hdays & Hclosed).
        exists (d' :: dates). rewrite Hloop. cbn [bind].
        cbn [amortize_all printed_by_calls]. rewrite Hcall. cbn [fst snd].
        split.
        { rewrite last_cons. reflexivity. }
        split; [cbn [List.length]; lia | ].
        split; [cbn [increasing] in *; split; [exact Hlt | exact Hinc] | ].
        split; [constructor; assumption | ].
        split.
        { cbn [map seq]. rewrite Hym. f_equal. rewrite Hyms.
          rewrite <- (seq_shift k 1), !map_map. apply map_ext. intros i. apply Hshift. }
        split.
        { constructor; [exact Hdle | ].
          eapply Forall_impl; [ | exact Hdays]. cbn beta. intros e He. lia. }
        intros H28.
        assert (Hd' : d' = month_at cur 1).
        { rewrite (month_at_year_month cur 1), <- Hym. destruct d' as [y1 m1 dd1].
          unfold year_month. cbn [datetime.year datetime.month datetime.day fst snd] in *.
          rewrite (Hdeq H28). reflexivity. }
        cbn [map seq]. rewrite <- Hd'. f_equal.
        rewrite Hclosed by (rewrite (Hdeq H28); exact H28).
        rewrite <- (seq_shift k 1), map_map. apply map_ext. intros i.
        rewrite (month_at_year_month d' i), (month_at_year_month cur (S i)).
        rewrite Hshift, (Hdeq H28). reflexivity.
      * intros Hend. rewrite (IHraise Hend). reflexivity.
    + split; [lia | ]. intros _. rewrite (Hraise ltac:(lia)). reflexivity.
Qed.

Lemma simulation_loop_range start k self :
  pydate.wf start ->
  let n := Z.to_nat k in
  (datetime.year (month_at start (pred n)) <= 9999 ->
   exists dates,
     simulation_loop (range k) self start
     = Ok (amortize_all self dates, last dates start,
           printed_by_calls self dates) /\
     List.length dates = n /\
     hd start dates = start /\
     increasing dates /\
     Forall pydate.wf dates /\
     map year_month dates = map year_month (months_on start n) /\
     Forall (fun d => datetime.day d <= datetime.day start) dates /\
     (datetime.day start <= 28 -> dates = months_on start n)) /\
  (9999 < datetime.year (month_at start (pred n)) ->
   simulation_loop (range k) self start = Raise ValueError).
Proof.
  intros Hwf n. unfold range. fold n. destruct n as [ | n].
  - cbn [pred]. rewrite month_at_zero by assumption.
    pose proof (wf_inv _ Hwf). split; [ | lia].
    intros _. exists []. cbn. repeat split; auto.
  - cbn [pred seq simulation_loop].
    replace (0 <? 0)%nat with false by reflexivity. cbn [bind].
    destruct (amortize_for_period self start) as [self1 out] eqn:Hcall.
    destruct (simulation_loop_advancing n 0%nat self1 start Hwf) as [Hok Hraise].
    split.
    + intros Hend.
      destruct (Hok Hend)
        as (dates & Hloop & Hlen & Hinc & Hall & Hyms & Hdays & Hclosed).
      exists (start :: dates). rewrite Hloop. cbn [bind amortize_all printed_by_calls].
      rewrite Hcall. cbn [fst snd]. rewrite last_cons.
      split; [reflexivity | ].
      split; [cbn [List.length]; lia | ].
      split; [reflexivity | ].
      split; [exact Hinc | ].
      split; [constructor; assumption | ].
      unfold months_on. cbn [seq map]. rewrite (month_at_zero start Hwf).
      split; [f_equal; exact Hyms | ].
      split; [constructor; [lia | exact Hdays] | ].
      intros H28. f_equal. apply Hclosed. exact H28.
    + intros Hend. rewrite (Hraise Hend). reflexivity.
Qed.

Lemma last_months_on start n :
  pydate.wf start -> last (months_on start n) start = month_at start (pred n).
Proof.
  intros Hwf. destruct n as [ | n].
  - cbn. symmetry. apply month_at_zero. exact Hwf.
  - unfold months_on. rewrite seq_S, map_app. cbn [map pred].
    rewrite last_last. reflexivity.
Qed.

(** X9: the loop of [main].  From a start date on one of the first 28 days
    of its month, the loop calls [amortize_for_period] once for each of
    the [k] consecutive months from the start date on, on that day of the
    month, and prints what these calls print; it raises [ValueError]
    instead when the last of these months lies after December 9999. *)
Theorem loop_visits_consecutive_months start k self :
  pydate.wf start -> datetime.day start <= 28 ->
  let n := Z.to_nat k in
  simulation_loop (range k) self start
  = if datetime.year (month_at start (pred n)) <=? 9999
    then Ok (amortize_all self (months_on start n),
             month_at start (pred n),
             printed_by_calls self (months_on start n))
    else Raise ValueError.
Proof.
  intros Hwf H28 n.
  destruct (simulation_loop_range start k self Hwf) as [Hok Hraise].
  fold n in Hok, Hraise.
  destruct (Z.leb_spec (datetime.year (month_at start (pred n))) 9999) as [Hle | Hgt].
  - destruct (Hok Hle) as (dates & Hloop & _ & _ & _ & _ & _ & _ & Hclosed).
    rewrite Hloop, (Hclosed H28), last_months_on by assumption. reflexivity.
  - apply Hraise. exact Hgt.
Qed.

Lemma loop_visits_consecutive_months_witness :
  pydate.wf (datetime.mk_date 9995 3 28) /\
  exists self out,
    init "Office Renovation" (dec2 12000000) 60 new_year = Ok (self, out) /\
    simulation_loop (range 58) self (datetime.mk_date 9995 3 28)
    = Ok (amortize_all self (months_on (datetime.mk_date 9995 3 28) 58),
          datetime.mk_date 9999 12 28,
          printed_by_calls self (months_on (datetime.mk_date 9995 3 28) 58)) /\
    simulation_loop (range 59) self (datetime.mk_date 9995 3 28)
    = Raise ValueError.
Proof.
  split; [by_computation | ].
  eexists; eexists. split; [vm_compute; reflexivity | ]. split.
  - apply (loop_visits_consecutive_months (datetime.mk_date 9995 3 28) 58);
      by_computation.
  - apply (loop_visits_consecutive_months (datetime.mk_date 9995 3 28) 59);
      by_computation.
Defined.

(** * Further properties: what the calls print *)

Lemma amortize_active_printed self d :
  fle (book_value self) zero = false ->
  let a := Py.min (book_value self) (monthly_amortization_amount self) in
  let b := fsub (book_value self) a in
  snd (amortize_for_period self d)
  = journal (name self) (mk_transaction d a b).
Proof. intros H. unfold amortize_for_period. rewrite H. reflexivity. Qed.

Lemma printed_by_calls_noop self ds :
  fle (book_value self) zero = true ->
  printed_by_calls self ds = map (fun d => FullyAmortized d (name self)) ds.
Proof.
  intros H. induction ds as [ | d ds IH]; [reflexivity | ].
  cbn [printed_by_calls map]. rewrite (amortize_noop self d H).
  cbn [fst snd app]. rewrite IH. reflexivity.
Qed.

(** What a sequence of calls records and prints. *)
Lemma amortize_all_trace self ds :
  let self' := amortize_all self ds in
  exists new,
    amortization_history self' = amortization_history self ++ new /\
    (List.length new <= List.length ds)%nat /\
    map date new = firstn (List.length new) ds /\
    printed_by_calls self ds
    = flat_map (journal (name self)) new
      ++ map (fun d => FullyAmortized d (name self))
           (skipn (List.length new) ds).
Proof.
  revert self. induction ds as [ | d ds IH]; intros self; cbn zeta.
  - exists []. rewrite app_nil_r. repeat split. cbn. lia.
  - destruct (fle (book_value self) zero) eqn:Hz.
    + rewrite (amortize_all_noop self (d :: ds) Hz).
      exists []. rewrite app_nil_r.
      rewrite (printed_by_calls_noop self (d :: ds) Hz).
      repeat split. cbn. lia.
    + cbn [amortize_all printed_by_calls].
      rewrite (amortize_active_printed self d Hz).
      rewrite amortize_active by assumption.
      match goal with
      | |- context [amortize_all ?s ds] =>
          destruct (IH s) as (new & Hh & Hlen & Hd & Hp)
      end.
      cbn [append_history set_book_value amortization_history name] in Hh, Hp.
      rewrite <- app_assoc in Hh. cbn [app] in Hh.
      eexists. split; [exact Hh | ].
      cbn [List.length map firstn skipn date flat_map].
      split; [lia | ]. split; [f_equal; exact Hd | ].
      rewrite Hp, app_assoc. reflexivity.
Qed.

(** X10: what the calls print is what they record.  Over any sequence of
    calls, each call that adds a record prints that record (its date, its
    amount as the debit and as the credit, its remaining book value as the
    book value), and every call after them prints the one line that the
    asset is fully amortized: no journal entry is printed once that line
    has been. *)
Theorem calls_print_what_they_record self ds :
  let self' := amortize_all self ds in
  exists new,
    amortization_history self' = amortization_history self ++ new /\
    printed_by_calls self ds
    = flat_map (journal (name self)) new
      ++ map (fun d => FullyAmortized d (name self))
           (skipn (List.length new) ds).
Proof.
  cbn zeta. destruct (amortize_all_trace self ds) as (new & Hh & _ & _ & Hp).
  exists new. split; assumption.
Qed.

(** * Further properties: the simulation of [main] *)

Lemma date_valid y m d :
  pydate.check_fields y m d = true ->
  pydate.date y m d = Ok (datetime.mk_date y m d).
Proof.
  intros H.
  pose proof (check_fields_inv _ _ _ H) as (Hy & Hm & Hd & n & Hn & Hdn).
  destruct (monthrange_bounds y m Hm) as (n' & Hn' & Hb).
  rewrite Hn in Hn'. injection Hn' as <-.
  unfold pydate.date, pydate.make.
  assert (Hc : forall z, 1 <= z <= 9999 -> pydate.c_int z = true)
    by (intros z Hz; unfold pydate.c_int; apply andb_true_iff;
        split; apply Z.leb_le; lia).
  rewrite !Hc by lia. rewrite H. reflexivity.
Qed.

Lemma date_inv y m d start :
  pydate.date y m d = Ok start ->
  start = datetime.mk_date y m d /\ pydate.check_fields y m d = true.
Proof.
  unfold pydate.date, pydate.make.
  destruct (pydate.c_int y && pydate.c_int m && pydate.c_int d);
    [ | discriminate].
  destruct (pydate.check_fields y m d); [ | discriminate].
  intros E. injection E as <-. split; reflexivity.
Qed.

Lemma init_succeeds nm total n sd :
  1 <= n <= max_float -> exists self out, init nm total n sd = Ok (self, out).
Proof.
  intros Hn. unfold init.
  replace (n <=? 0) with false by (symmetry; apply Z.leb_gt; lia).
  unfold Py.truediv, Py.float_of_int.
  destruct (of_Z_pos n Hn) as (p & e & -> & _). cbn [bind].
  replace (feq (S754_finite false p e) zero) with false by reflexivity.
  eexists. eexists. reflexivity.
Qed.

Lemma firstn_seq_le a k n : (k <= n)%nat -> firstn k (seq a n) = seq a k.
Proof.
  revert a n. induction k as [ | k IH]; intros a n H; [reflexivity | ].
  destruct n as [ | n]; [lia | ]. cbn [seq firstn]. f_equal. apply IH. lia.
Qed.

Lemma Forall_firstn_of {A : Type} (P : A -> Prop) k (l : list A) :
  Forall P l -> Forall P (firstn k l).
Proof.
  intros H. rewrite <- (firstn_skipn k l) in H.
  apply Forall_app in H. apply H.
Qed.

(** What a run of the simulation that ends has done. *)
Lemma simulation_inv nm cost years y m d asset report :
  simulation nm cost years y m d = Ok (asset, report) ->
  let start := datetime.mk_date y m d in
  let n := Z.to_nat (years * 12 + 2) in
  exists self out0 dates,
    pydate.wf start /\
    init nm cost (years * 12) start = Ok (self, out0) /\
    asset = amortize_all self dates /\
    List.length dates = n /\
    hd start dates = start /\
    increasing dates /\
    Forall pydate.wf dates /\
    map year_month dates = map year_month (months_on start n) /\
    Forall (fun e => datetime.day e <= d) dates /\
    (d <= 28 -> dates = months_on start n) /\
    report
    = [Hello] ++ map FromAsset out0 ++ [SimulationStarts] ++
      map FromAsset (printed_by_calls self dates) ++
      [SimulationEnds;
       TotalAmortized (Py.sum (amounts (amortization_history asset)));
       FinalBookValue (book_value asset)].
Proof.
  unfold simulation. cbn zeta.
  destruct (pydate.date y m d) as [start | e] eqn:Hdate; [ | discriminate].
  destruct (date_inv _ _ _ _ Hdate) as [-> Hwf]. cbn [bind].
  destruct (init nm cost (years * 12) (datetime.mk_date y m d))
    as [[self out0] | e] eqn:Hinit; [ | discriminate].
  cbn [bind].
  destruct (simulation_loop_range (datetime.mk_date y m d) (years * 12 + 2)
              self Hwf) as [Hok Hraise].
  cbn zeta in Hok, Hraise.
  destruct (Z_le_gt_dec
              (datetime.year (month_at (datetime.mk_date y m d)
                                (pred (Z.to_nat (years * 12 + 2))))) 9999)
    as [Hle | Hgt].
  - destruct (Hok Hle)
      as (dates & Hloop & Hlen & Hhd & Hinc & Hall & Hyms & Hdays & Hclosed).
    rewrite Hloop. cbn [bind]. intros E. injection E as <- <-.
    exists self, out0, dates. cbn [datetime.day] in Hdays, Hclosed.
    repeat (split; [assumption || reflexivity | ]). reflexivity.
  - rewrite (Hraise ltac:(lia)). discriminate.
Qed.

Lemma last_year_bounds y m d years :
  1 <= y -> 1 <= m <= 12 -> 0 < years ->
  let start := datetime.mk_date y m d in
  pred (Z.to_nat (years * 12 + 2)) = Z.to_nat (years * 12 + 1) /\
  y + years <= datetime.year (month_at start (Z.to_nat (years * 12 + 1))).
Proof.
  intros Hy Hm Hn. cbn zeta. split; [lia | ].
  unfold month_at. cbn [datetime.year datetime.month].
  rewrite Z2Nat.id by lia.
  assert (years <= (m - 1 + (years * 12 + 1)) / 12)
    by (apply Z.div_le_lower_bound; lia).
  lia.
Qed.

Lemma small_counts_are_floats n : n <= 200000 -> n <= max_float.
Proof.
  intros H. assert (200000 <= max_float) by (vm_compute; discriminate). lia.
Qed.

(** X11: when the simulation runs to its end.  With a start date that
    exists, a period of at least one year, and the last month simulated
    (the start month [12 * years + 1] months on) not after December 9999,
    the simulation raises nothing; the asset it ends with has the name,
    the cost, the period in months and the start date it was given, and
    at most [12 * years + 2] records. *)
Theorem simulation_runs_to_its_end nm cost years y m d :
  pydate.check_fields y m d = true ->
  0 < years ->
  datetime.year (month_at (datetime.mk_date y m d)
                   (Z.to_nat (years * 12 + 1))) <= 9999 ->
  exists asset report,
    simulation nm cost years y m d = Ok (asset, report) /\
    name asset = nm /\ total_cost asset = cost /\
    amortization_period_months asset = years * 12 /\
    start_date asset = datetime.mk_date y m d /\
    (List.length (amortization_history asset)
     <= Z.to_nat (years * 12 + 2))%nat.
Proof.
  intros Hwf Hn Hend.
  pose proof (check_fields_inv _ _ _ Hwf) as (Hy & Hm & _).
  destruct (last_year_bounds y m d years ltac:(lia) Hm Hn) as [Hpred Hlow].
  cbn zeta in Hlow.
  destruct (init_succeeds nm cost (years * 12) (datetime.mk_date y m d))
    as (self & out0 & Hinit).
  { split; [lia | ]. apply small_counts_are_floats. lia. }
  destruct (simulation_loop_range (datetime.mk_date y m d) (years * 12 + 2)
              self Hwf) as [Hok _].
  cbn zeta in Hok. rewrite Hpred in Hok.
  destruct (Hok Hend) as (dates & Hloop & Hlen & _).
  unfold simulation. cbn zeta. rewrite (date_valid _ _ _ Hwf). cbn [bind].
  rewrite Hinit. cbn [bind]. rewrite Hloop. cbn [bind].
  eexists. eexists. split; [reflexivity | ].
  apply init_inv in Hinit as (_ & f & _ & _ & ->).
  destruct (amortize_all_trace
              (mk_expense nm cost (years * 12) (datetime.mk_date y m d) cost
                 (Py.round2 (fdiv cost f)) []) dates)
    as (new & Hh & Hle & _).
  cbn zeta in Hh. cbn [amortization_history app] in Hh.
  match goal with
  | |- context [amortize_all ?s dates] =>
      pose proof (amortize_all_frame s dates) as [Htc _];
      assert (Hfix : name (amortize_all s dates) = name s /\
                     amortization_period_months (amortize_all s dates)
                     = amortization_period_months s /\
                     start_date (amortize_all s dates) = start_date s)
  end.
  { clear. generalize (mk_expense nm cost (years * 12) (datetime.mk_date y m d)
                         cost (Py.round2 (fdiv cost f)) []).
    induction dates as [ | e dates IH]; intros s; [auto | ].
    cbn [amortize_all].
    destruct (IH (fst (amortize_for_period s e))) as (-> & -> & ->).
    destruct (amortize_frame s e) as (-> & _ & -> & -> & _). auto. }
  destruct Hfix as (Hname & Hper & Hsd). cbn zeta in Htc.
  rewrite Hname, Htc, Hper, Hsd, Hh.
  cbn [name total_cost amortization_period_months start_date].
  repeat split. lia.
Qed.

Lemma simulation_runs_to_its_end_witness :
  exists asset report,
    main = Ok (asset, report) /\
    name asset = "办公室装修费"%string /\ total_cost asset = dec2 12000000 /\
    amortization_period_months asset = 5 * 12 /\
    start_date asset = datetime.mk_date 2025 1 1 /\
    (List.length (amortization_history asset) <= Z.to_nat (5 * 12 + 2))%nat.
Proof.
  apply (simulation_runs_to_its_end "办公室装修费" (dec2 12000000) 5 2025 1 1);
    by_computation.
Defined.

(** X12: when the simulation raises [ValueError].  With a start date that
    exists, the simulation raises [ValueError] when the period is not at
    least one year (from the constructor), and when the last month
    simulated lies after December 9999 (from moving the date on), the
    number of months being one a float can hold. *)
Theorem simulation_raises_value_error nm cost years y m d :
  pydate.check_fields y m d = true ->
  years <= 0 \/
  (years * 12 <= max_float /\
   9999 < datetime.year (month_at (datetime.mk_date y m d)
                           (Z.to_nat (years * 12 + 1)))) ->
  simulation nm cost years y m d = Raise ValueError.
Proof.
  intros Hwf Hcase. unfold simulation. cbn zeta.
  rewrite (date_valid _ _ _ Hwf). cbn [bind].
  destruct (Z_le_gt_dec years 0) as [Hle | Hgt].
  - unfold init.
    replace (years * 12 <=? 0) with true by (symmetry; apply Z.leb_le; lia).
    reflexivity.
  - destruct Hcase as [Hle | [Hfloat Hend]]; [lia | ].
    pose proof (check_fields_inv _ _ _ Hwf) as (Hy & Hm & _).
    destruct (last_year_bounds y m d years ltac:(lia) Hm ltac:(lia)) as [Hpred _].
    destruct (init_succeeds nm cost (years * 12) (datetime.mk_date y m d))
      as (self & out0 & Hinit); [lia | ].
    rewrite Hinit. cbn [bind].
    destruct (simulation_loop_range (datetime.mk_date y m d) (years * 12 + 2)
                self Hwf) as [_ Hraise].
    cbn zeta in Hraise. rewrite Hpred in Hraise.
    rewrite (Hraise Hend). reflexivity.
Qed.

Lemma simulation_raises_value_error_witness :
  simulation "Office Renovation" (dec2 12000000) 0 2025 1 1 = Raise ValueError /\
  simulation "Office Renovation" (dec2 12000000) 5 9995 1 1 = Raise ValueError.
Proof.
  split.
  - apply (simulation_raises_value_error
             "Office Renovation" (dec2 12000000) 0 2025 1 1);
      [by_computation | left; by_computation].
  - apply (simulation_raises_value_error
             "Office Renovation" (dec2 12000000) 5 9995 1 1);
      [by_computation | right; split; by_computation].
Defined.

Lemma firstn_months_on start k n :
  (k <= n)%nat -> firstn k (months_on start n) = months_on start k.
Proof.
  intros H. unfold months_on. rewrite firstn_map, firstn_seq_le by assumption.
  reflexivity.
Qed.

(** X13: the history the simulation leaves is in the order of time.  The
    records are dated month after month from the start date on, one
    record a month and none missing: each date exists, each is later than
    the one before, no day of the month is after the day of the start
    date, and the days are that very day when it is one of the first 28
    of its month. *)
Theorem simulation_history_is_chronological nm cost years y m d asset report :
  simulation nm cost years y m d = Ok (asset, report) ->
  let start := datetime.mk_date y m d in
  let days := map date (amortization_history asset) in
  increasing days /\
  Forall pydate.wf days /\
  map year_month days
  = map year_month (months_on start (List.length days)) /\
  Forall (fun e => datetime.day e <= d) days /\
  (d <= 28 -> days = months_on start (List.length days)).
Proof.
  intros Hsim. cbn zeta.
  destruct (simulation_inv _ _ _ _ _ _ _ _ Hsim)
    as (self & out0 & dates & Hwf & Hinit & -> & Hlen & _ & Hinc & Hall
        & Hyms & Hdays & Hclosed & _).
  apply init_inv in Hinit as (_ & f & _ & _ & Hself).
  destruct (amortize_all_trace self dates) as (new & Hh & Hle & Hd & _).
  cbn zeta in Hh. rewrite Hself in Hh at 2. cbn [amortization_history app] in Hh.
  rewrite Hh, Hd, length_firstn.
  rewrite Nat.min_l by exact Hle.
  rewrite Hlen in Hle.
  split; [apply increasing_firstn; exact Hinc | ].
  split; [apply Forall_firstn_of; exact Hall | ].
  split.
  { rewrite <- firstn_map, Hyms, firstn_map, firstn_months_on by exact Hle.
    reflexivity. }
  split; [apply Forall_firstn_of; exact Hdays | ].
  intros H28. rewrite (Hclosed H28). apply firstn_months_on. exact Hle.
Qed.

Lemma simulation_history_is_chronological_witness :
  exists asset report,
    simulation "Office Renovation" (dec2 10000) 1 2024 1 31
    = Ok (asset, report) /\
    let start := datetime.mk_date 2024 1 31 in
    let days := map date (amortization_history asset) in
    increasing days /\
    Forall pydate.wf days /\
    map year_month days
    = map year_month (months_on start (List.length days)) /\
    Forall (fun e => datetime.day e <= 31) days /\
    (31 <= 28 -> days = months_on start (List.length days)).
Proof.
  eexists; eexists. split; [vm_compute; reflexivity | ].
  eapply (simulation_history_is_chronological
            "Office Renovation" (dec2 10000) 1 2024 1 31).
  vm_compute. reflexivity.
Defined.

(** X14: the books of the simulation balance.  When the cost and the
    monthly amount are on a common grid (whole multiples of a power of
    two, as whole numbers below 2^53 are), the monthly amount is above
    zero, and [ceil (cost / monthly amount)] is at most the number of
    months simulated, [12 * years + 2], then the last three lines of the
    report are the end of the simulation, a total amortized amount equal
    to the cost, and a final book value equal to zero. *)
Theorem simulation_books_balance nm cost years y m d asset report w :
  simulation nm cost years y m d = Ok (asset, report) ->
  amount cost ->
  0 <= w ->
  ulps cost mod 2 ^ w = 0 -> ulps cost < 2 ^ (53 + w) ->
  ulps (monthly_amortization_amount asset) mod 2 ^ w = 0 ->
  0 < ulps (monthly_amortization_amount asset) ->
  ceil_quotient cost (monthly_amortization_amount asset) <= years * 12 + 2 ->
  exists printed total_amortized final,
    report
    = printed ++ [SimulationEnds; TotalAmortized total_amortized;
                  FinalBookValue final] /\
    total_amortized = Py.sum (amounts (amortization_history asset)) /\
    final = book_value asset /\
    feq total_amortized cost = true /\
    feq final zero = true.
Proof.
  intros Hsim Hamount Hw Gt Bt Gm Hm Hn.
  destruct (simulation_inv _ _ _ _ _ _ _ _ Hsim)
    as (self & out0 & dates & _ & Hinit & -> & Hlen & _ & _ & _ & _ & _ & _
        & ->).
  destruct (amortize_all_frame self dates) as [_ Hmm]. cbn zeta in Hmm.
  rewrite Hmm in Gm, Hm, Hn.
  destruct (init_on_grid _ _ _ _ _ _ w Hamount Hinit Gt Bt Gm)
    as (Hg & Hb & Htc & Hh).
  destruct (amortize_all_grid w self dates Hw Hg) as (Hg' & _ & Hmax).
  specialize (Hmax Hm). cbn zeta in Hmax, Hg'. rewrite Hb in Hmax.
  assert (Hcalls : ceil_quotient cost (monthly_amortization_amount self)
                   <= Z.of_nat (List.length dates)).
  { rewrite Hlen. rewrite Z2Nat.id; [exact Hn | ].
    apply Z.le_trans with (2 := Hn). unfold ceil_quotient.
    destruct Hamount as (_ & _ & H0).
    assert (- ulps cost / ulps (monthly_amortization_amount self) <= 0).
    { apply Z.div_le_upper_bound; lia. }
    lia. }
  pose proof (ceil_quotient_le _ _ _ Hm Hcalls) as Hle.
  assert (Hz : ulps (book_value (amortize_all self dates)) = 0) by lia.
  destruct (sum_on_grid w self dates Hw Hg Hh) as ((Vs & Fs & _) & Es & _).
  { rewrite Hb, Htc. reflexivity. }
  rewrite Htc, Hz in Es.
  eexists. eexists. eexists. split.
  { rewrite !app_assoc. reflexivity. }
  split; [reflexivity | ]. split; [reflexivity | ]. split.
  - destruct Hamount as (Vt & Ft & _).
    rewrite feq_ulps by assumption. apply Z.eqb_eq. lia.
  - destruct Hg' as ((Hb' & _) & _).
    destruct (amount_ulps_zero _ Hb' Hz) as [s Hs]. rewrite Hs. reflexivity.
Qed.

Lemma simulation_books_balance_witness :
  exists asset report,
    main = Ok (asset, report) /\
    exists printed total_amortized final,
      report
      = printed ++ [SimulationEnds; TotalAmortized total_amortized;
                    FinalBookValue final] /\
      total_amortized = Py.sum (amounts (amortization_history asset)) /\
      final = book_value asset /\
      feq total_amortized (dec2 12000000) = true /\
      feq final zero = true.
Proof.
  eexists; eexists. split; [vm_compute; reflexivity | ].
  eapply (simulation_books_balance
            "办公室装修费" (dec2 12000000) 5 2025 1 1 _ _ 1074);
    [ | repeat split | | | | | | ]; by_computation.
Defined.

Lemma init_never_divides_by_zero nm total n sd :
  init nm total n sd <> Raise ZeroDivisionError.
Proof.
  unfold init. destruct (Z.leb_spec n 0) as [Hn | Hn]; [discriminate | ].
  unfold Py.truediv, Py.float_of_int.
  destruct (of_Z_shape n Hn) as [(p & e & ->) | ->]; cbn [bind]; discriminate.
Qed.

(** X15: no division by zero.  Whatever the name, the cost, the period and
    the start date, neither the constructor nor the simulation raises
    [ZeroDivisionError]: a period that is not above zero is refused before
    the cost is divided by it. *)
Theorem simulation_never_divides_by_zero nm cost years y m d sd n :
  init nm cost n sd <> Raise ZeroDivisionError /\
  simulation nm cost years y m d <> Raise ZeroDivisionError.
Proof.
  split; [apply init_never_divides_by_zero | ].
  unfold simulation. cbn zeta.
  destruct (pydate.date y m d) as [start | e] eqn:Hdate.
  - destruct (date_inv _ _ _ _ Hdate) as [-> Hwf]. cbn [bind].
    pose proof (init_never_divides_by_zero nm cost (years * 12)
                  (datetime.mk_date y m d)) as Hinit.
    destruct (init nm cost (years * 12) (datetime.mk_date y m d))
      as [[self out0] | e]; [ | cbn [bind]; congruence].
    cbn [bind].
    destruct (simulation_loop_range (datetime.mk_date y m d) (years * 12 + 2)
                self Hwf) as [Hok Hraise].
    cbn zeta in Hok, Hraise.
    destruct (Z_le_gt_dec
                (datetime.year (month_at (datetime.mk_date y m d)
                                  (pred (Z.to_nat (years * 12 + 2))))) 9999)
      as [Hle | Hgt].
    + destruct (Hok Hle) as (dates & -> & _). discriminate.
    + rewrite (Hraise ltac:(lia)). discriminate.
  - cbn [bind]. unfold pydate.date, pydate.make in Hdate.
    destruct (pydate.c_int y && pydate.c_int m && pydate.c_int d);
      [ | congruence].
    destruct (pydate.check_fields y m d); congruence.
Qed.
